(** * torchwood tlog client: a shallow embedding of [tlogclient.go]

    The development covers the entry cut preset, the edge memory cache,
    the permanent (directory) cache, the remote tile fetcher and the
    streaming engine [Client.Entries], each followed by its facts.

    Conventions.
    - Go's [int64] and [int] (64 bit) are modelled as [Z] with the
      two's-complement wrap-around written out ([Int64.wrap]).
    - [[]byte] is [list byte]; a Go string is [string].
    - A function that can panic returns its panic as a value.
    - Collaborators that live outside the file ([tlog.RecordHash],
      [tlog.StoredHashIndex], the tile reader behind the
      [TileReaderWithContext] interface, the hash reader, [strconv.Atoi],
      [http.ParseTime], the operating system) are Section variables or
      explicit oracles. *)

From Stdlib Require Import ZArith Lia List String.
From Stdlib Require Strings.Byte.
From stdpp Require Import base tactics option list list_numbers gmap strings
  sorting.

Local Open Scope Z_scope.

(** ** Machine integers *)

Module Int64.

Definition modulus : Z := 2 ^ 64.
Definition min_int : Z := - 2 ^ 63.
Definition max_int : Z := 2 ^ 63 - 1.

(** Two's-complement reduction of a mathematical integer to [int64]. *)
Definition wrap (z : Z) : Z := (z + 2 ^ 63) mod 2 ^ 64 - 2 ^ 63.

Definition add (a b : Z) : Z := wrap (a + b).
Definition sub (a b : Z) : Z := wrap (a - b).
Definition mul (a b : Z) : Z := wrap (a * b).
(** Go's [/] truncates towards zero. *)
Definition div (a b : Z) : Z := wrap (Z.quot a b).

Definition in_range (z : Z) : Prop := min_int <= z <= max_int.

End Int64.

Arguments Int64.wrap : simpl never.
Arguments Int64.add : simpl never.
Arguments Int64.sub : simpl never.
Arguments Int64.mul : simpl never.
Arguments Int64.div : simpl never.

(** ** Bytes *)

Abbreviation byte := Byte.byte.
Abbreviation bytes := (list Byte.byte).

#[global] Instance byte_eq_dec : EqDecision byte := Byte.byte_eq_dec.

(** The newline byte, ['\n']. *)
Definition nl : byte := Byte.x0a.

(** [len(b)] *)
Definition len {A} (l : list A) : Z := Z.of_nat (length l).

(** [b[:hi]] and [b[lo:]] for indices known to be in range. *)
Definition slice_to {A} (l : list A) (hi : Z) : list A := take (Z.to_nat hi) l.
Definition slice_from {A} (l : list A) (lo : Z) : list A := drop (Z.to_nat lo) l.

(** [s[i]] for a Go [int]/[int64] index: [None] stands for the
  index-out-of-range panic. *)
Definition index {A} (l : list A) (i : Z) : option A :=
if decide (0 <= i) then l !! Z.to_nat i else None.

(** [bytes.HasPrefix(s, prefix)] *)
Fixpoint has_prefix (prefix s : bytes) : bool :=
match prefix, s with
| [], _ => true
| _ :: _, [] => false
| p :: prefix', c :: s' => if decide (p = c) then has_prefix prefix' s' else false
end.

(** [bytes.Index(s, sep)]: the index of the first instance of [sep] in
  [s], or [-1] when [sep] is not present. *)
Fixpoint bytes_Index (s sep : bytes) : Z :=
if has_prefix sep s then 0
else match s with
     | [] => -1
     | _ :: s' =>
         let r := bytes_Index s' sep in
         if decide (r < 0) then -1 else r + 1
     end.

(** ** Tiles *)

(** [tlog.Tile]: height, level, index within the level, width. *)
Record Tile : Type := mkTile { tH : Z; tL : Z; tN : Z; tW : Z }.

#[global] Instance Tile_eq_dec : EqDecision Tile.
Proof. solve_decision. Defined.

(** The zero value [tlog.Tile{}]. *)
Definition zeroTile : Tile := mkTile 0 0 0 0.

(** Modelled from the spec: the constants [TileHeight] and [TileWidth] are
  declared in another file of the package.  The spec fixes the tile
  height as a log-wide constant, 8, and the tile width as [2^H] = 256. *)
Definition TileHeight : Z := 8.
Definition TileWidth : Z := 2 ^ TileHeight.
Arguments TileHeight : simpl never.
Arguments TileWidth : simpl never.

(** [tlog.Tree] *)
Record Tree (Hash : Type) : Type := mkTree { treeN : Z; treeHash : Hash }.
Arguments mkTree {Hash}.
Arguments treeN {Hash}.
Arguments treeHash {Hash}.

(** ** The cut preset [WithSumDBEntries] *)

(** The spec's words: [sep] occurs in [s] at position [i]. *)
Definition occurs_at (sep s : bytes) (i : nat) : Prop :=
  take (length sep) (drop i s) = sep.

(** The spec's words: [i] is the first position where [sep] occurs. *)
Definition first_occurrence (sep s : bytes) (i : nat) : Prop :=
  occurs_at sep s i /\ forall j, (j < i)%nat -> ~ occurs_at sep s j.

(** The spec's words: [sep] does not occur in [s]. *)
Definition absent (sep s : bytes) : Prop := forall j, ~ occurs_at sep s j.

Section SumDB.
Context {Hash E : Type}.
(** [tlog.RecordHash] *)
Variable RecordHash : bytes -> Hash.

(** The closure installed by [WithSumDBEntries].  The result is Go's
    four-tuple [(entry, rh, rest, err)]; [err] is [None] for [nil]. *)
Definition sumdb_cut (tile : bytes) : bytes * Hash * bytes * option E :=
  let idx := bytes_Index tile [nl; nl] in
  let '(entry, rest) :=
    if decide (idx >= 0)
    then (slice_to tile (idx + 1), slice_from tile (idx + 2))
    else (tile, []) in
  (entry, RecordHash entry, rest, None).

End SumDB.

(** *** Facts about [bytes.Index] *)

Lemma has_prefix_take (sep s : bytes) :
  has_prefix sep s = true <-> take (length sep) s = sep.
Proof.
  revert s; induction sep as [|p sep IH]; intros [|c s]; simpl; try easy.
  case_decide as Hpc.
  - subst c. rewrite IH. split; [congruence | now injection 1].
  - split; [easy | injection 1; congruence].
Qed.

Lemma bytes_Index_lower (s sep : bytes) : -1 <= bytes_Index s sep.
Proof.
  induction s as [|c s IH]; simpl.
  - destruct (has_prefix sep []); lia.
  - destruct (has_prefix sep (c :: s)); [lia|]. case_decide; lia.
Qed.

Lemma bytes_Index_found (s sep : bytes) :
  0 <= bytes_Index s sep ->
  first_occurrence sep s (Z.to_nat (bytes_Index s sep)).
Proof.
  induction s as [|c s IH]; simpl.
  - destruct (has_prefix sep []) eqn:Hp; [|lia].
    intros _. split; [now apply has_prefix_take | intros j Hj; simpl in Hj; lia].
  - destruct (has_prefix sep (c :: s)) eqn:Hp.
    + intros _. split; [now apply has_prefix_take | intros j Hj; simpl in Hj; lia].
    + case_decide as Hr; [lia|]. intros _.
      destruct IH as [Hocc Hmin]; [lia|].
      replace (Z.to_nat (bytes_Index s sep + 1)) with (S (Z.to_nat (bytes_Index s sep))) by lia.
      split; [exact Hocc|].
      intros [|j] Hj.
      * unfold occurs_at. rewrite drop_0. intros Hc.
        apply has_prefix_take in Hc. congruence.
      * apply (Hmin j). lia.
Qed.

Lemma bytes_Index_absent (s sep : bytes) :
  bytes_Index s sep < 0 -> sep <> [] -> absent sep s.
Proof.
  intros Hneg Hsep. induction s as [|c s IH]; simpl in Hneg.
  - intros j Hj. unfold occurs_at in Hj. rewrite drop_nil, take_nil in Hj. congruence.
  - destruct (has_prefix sep (c :: s)) eqn:Hp; [lia|].
    case_decide as Hr; [|pose proof (bytes_Index_lower s sep); lia].
    intros [|j] Hj.
    + unfold occurs_at in Hj. rewrite drop_0 in Hj.
      apply has_prefix_take in Hj. congruence.
    + exact (IH Hr j Hj).
Qed.

Lemma first_occurrence_unique (sep s : bytes) (i j : nat) :
  first_occurrence sep s i -> first_occurrence sep s j -> i = j.
Proof.
  intros [Hi Hmi] [Hj Hmj].
  destruct (Nat.lt_trichotomy i j) as [Hlt|[Heq|Hgt]]; [|easy|].
  - now apply Hmj in Hlt.
  - now apply Hmi in Hgt.
Qed.

Section SumDBFacts.
Context {Hash E : Type}.
Variable RecordHash : bytes -> Hash.

(** C9. For every tile the preset cut returns no error; when ["\n\n"]
    first occurs at [idx], the entry is [tile[:idx+1]], the rest is
    [tile[idx+2:]] and the hash is [RecordHash] of the entry; when ["\n\n"]
    does not occur, the whole tile is the entry and the rest is empty. One of
    the two cases always applies. *)
Theorem sumdb_cut_spec (tile : bytes) :
  (forall idx : nat, first_occurrence [nl; nl] tile idx ->
     sumdb_cut (E := E) RecordHash tile
     = (take (idx + 1) tile, RecordHash (take (idx + 1) tile),
        drop (idx + 2) tile, None))
  /\ (absent [nl; nl] tile ->
      sumdb_cut (E := E) RecordHash tile = (tile, RecordHash tile, [], None))
  /\ ((exists idx, first_occurrence [nl; nl] tile idx) \/ absent [nl; nl] tile)
  /\ (sumdb_cut (E := E) RecordHash tile).2 = None.
Proof.
  unfold sumdb_cut.
  pose proof (bytes_Index_lower tile [nl; nl]) as Hlow.
  destruct (decide (bytes_Index tile [nl; nl] >= 0)) as [Hge|Hlt].
  - pose proof (bytes_Index_found tile [nl; nl] ltac:(lia)) as Hfirst.
    repeat split.
    + intros idx Hidx.
      rewrite (first_occurrence_unique _ _ _ _ Hidx Hfirst).
      unfold slice_to, slice_from.
      replace (Z.to_nat (bytes_Index tile [nl; nl] + 1))
        with (Z.to_nat (bytes_Index tile [nl; nl]) + 1)%nat by lia.
      replace (Z.to_nat (bytes_Index tile [nl; nl] + 2))
        with (Z.to_nat (bytes_Index tile [nl; nl]) + 2)%nat by lia.
      reflexivity.
    + intros Habs. destruct Hfirst as [Hocc _]. now apply Habs in Hocc.
    + left. eauto.
  - assert (Habs : absent [nl; nl] tile)
      by (apply bytes_Index_absent; [lia | discriminate]).
    repeat split.
    + intros idx [Hocc _]. now apply Habs in Hocc.
    + right. exact Habs.
Qed.

End SumDBFacts.

(** Two runs of the preset: an entry followed by another, and an
    unterminated last entry. *)
Example sumdb_cut_two :
  sumdb_cut (E := unit) (fun e => e) [Byte.x61; nl; nl; Byte.x62; nl]
  = ([Byte.x61; nl], [Byte.x61; nl], [Byte.x62; nl], None).
Proof. reflexivity. Qed.

Example sumdb_cut_last :
  sumdb_cut (E := unit) (fun e => e) [Byte.x62; nl]
  = ([Byte.x62; nl], [Byte.x62; nl], [], None).
Proof. reflexivity. Qed.

(** ** The tile reader interface *)

(** [TileReaderWithContext]: the two methods every layer of the tile
    source stack offers.  [R] is the state of the layer (caches, the
    network, the disk), [E] the type of its errors.  The context argument of
    [ReadTiles] is part of the environment that decides a read's outcome. *)
Class TileReaderWithContext (R E : Type) : Type := {
  tr_ReadTiles : list Tile -> R -> (E + list bytes) * R;
  tr_SaveTiles : list Tile -> list bytes -> R -> R
}.

(** A reader for examples: it keeps the log of the [SaveTiles] calls it
    received, most recent first, and serves no tile. *)
Module Recorder.
Definition t : Type := list (list Tile * list bytes).
#[global] Instance reader : TileReaderWithContext t unit := {|
  tr_ReadTiles := fun _ log => (inl tt, log);
  tr_SaveTiles := fun tiles data log => (tiles, data) :: log
|}.
End Recorder.

(** ** The edge memory cache *)

Record tileWithData : Type := mkTWD { twTile : Tile; twData : bytes }.

#[global] Instance tileWithData_eq_dec : EqDecision tileWithData.
Proof. solve_decision. Defined.

(** The zero value of [tileWithData]. *)
Definition zeroTWD : tileWithData := mkTWD zeroTile [].

(** The spec's words: the zero descriptor is least, non-zero descriptors
    compare by [(N, W)] lexicographically. *)
Definition tile_lt (a b : Tile) : Prop :=
  (a = zeroTile /\ b <> zeroTile)
  \/ (a <> zeroTile /\ b <> zeroTile
      /\ (tN a < tN b \/ (tN a = tN b /\ tW a < tW b))).

#[global] Instance tile_lt_dec (a b : Tile) : Decision (tile_lt a b).
Proof. unfold tile_lt. apply _. Defined.

(** [tileLess]; [None] is [panic("different levels")]. *)
Definition tileLess (a b : Tile) : option bool :=
  if decide (a = zeroTile) then Some true
  else if decide (b = zeroTile) then Some false
  else if decide (tL a <> tL b) then None
  else Some (bool_decide (tN a < tN b)
             || (bool_decide (tN a = tN b) && bool_decide (tW a < tW b))).

Module EdgeMemoryCache.

(** [edgeMemoryCache]: the inner reader and the map from level to the two
    slots. *)
Record t (R : Type) : Type := mk {
  tr : R;
  slots : gmap Z (tileWithData * tileWithData)
}.
Arguments mk {R}.
Arguments tr {R}.
Arguments slots {R}.

(** [c.t[l]]: reading a missing key gives the zero value. *)
Definition get (m : gmap Z (tileWithData * tileWithData)) (l : Z)
  : tileWithData * tileWithData :=
  default (zeroTWD, zeroTWD) (m !! l).

(** [td := c.t[t.L]; td[0].Tile == t || td[1].Tile == t] *)
Definition present (m : gmap Z (tileWithData * tileWithData)) (t : Tile) : bool :=
  let td := get m (tL t) in
  bool_decide (twTile td.1 = t) || bool_decide (twTile td.2 = t).

(** The first loop of [SaveTiles]: the tiles, and their data, that are not
    in the cache yet.  [None] is the panic of [data[i]] out of range. *)
Fixpoint to_forward (m : gmap Z (tileWithData * tileWithData))
    (tiles : list Tile) (data : list bytes) (i : nat)
  : option (list Tile * list bytes) :=
  match tiles with
  | [] => Some ([], [])
  | t :: tiles' =>
      if present m t then to_forward m tiles' data (S i)
      else
        d ← data !! i;
        '(ts, ds) ← to_forward m tiles' data (S i);
        Some (t :: ts, d :: ds)
  end.

(** [a && b] on results that may panic, [b] evaluated only when needed. *)
Definition and_then (a : option bool) (b : option bool) : option bool :=
  match a with
  | Some true => b
  | other => other
  end.

(** One iteration of the second loop of [SaveTiles]: the [switch].  [od] is
    [data[i]], looked up only by the cases that store it. *)
Definition update_slot (m : gmap Z (tileWithData * tileWithData))
    (t : Tile) (od : option bytes)
  : option (gmap Z (tileWithData * tileWithData)) :=
  match m !! tL t with
  | None =>
      d ← od; Some (<[tL t := (mkTWD t d, zeroTWD)]> m)
  | Some (s0, s1) =>
      if bool_decide (twTile s0 = t) || bool_decide (twTile s1 = t)
      then Some m
      else
        c3 ← and_then (tileLess (twTile s0) t) (tileLess (twTile s0) (twTile s1));
        if c3 : bool then d ← od; Some (<[tL t := (mkTWD t d, s1)]> m)
        else
          c4 ← and_then (tileLess (twTile s1) t) (tileLess (twTile s1) (twTile s0));
          if c4 : bool then d ← od; Some (<[tL t := (s0, mkTWD t d)]> m)
          else Some m
  end.

(** The second loop of [SaveTiles]. *)
Fixpoint update_slots (m : gmap Z (tileWithData * tileWithData))
    (tiles : list Tile) (data : list bytes) (i : nat)
  : option (gmap Z (tileWithData * tileWithData)) :=
  match tiles with
  | [] => Some m
  | t :: tiles' =>
      m' ← update_slot m t (data !! i);
      update_slots m' tiles' data (S i)
  end.

Section Methods.
Context {R E : Type} `{!TileReaderWithContext R E}.

(** [edgeMemoryCache.SaveTiles]; [None] is a panic. *)
Definition SaveTiles (tiles : list Tile) (data : list bytes) (c : t R)
  : option (t R) :=
  '(ts, ds) ← to_forward (slots c) tiles data 0;
  let inner := tr_SaveTiles ts ds (tr c) in
  m' ← update_slots (slots c) tiles data 0;
  Some (mk inner m').

(** The cache of a new client ([NewClient]): an empty map. *)
Definition new (inner : R) : t R := mk inner ∅.

(** The spec's words: a descriptor has between one and [2^H] leaves. *)
Definition well_formed (t : Tile) : Prop := 1 <= tW t.

(** The caches a client can hold: a new one, or one that went through
    [SaveTiles] with well-formed descriptors. *)
Inductive reachable : t R -> Prop :=
| reachable_new inner : reachable (new inner)
| reachable_save c tiles data c' :
    reachable c ->
    Forall well_formed tiles ->
    SaveTiles tiles data c = Some c' ->
    reachable c'.

End Methods.

(** The invariant of the slot map: at every level that has slots, slot 0
    holds a non-zero descriptor of that level and slot 1 holds the zero
    descriptor or one of that level. *)
Definition slots_inv (m : gmap Z (tileWithData * tileWithData)) : Prop :=
  forall l s0 s1, m !! l = Some (s0, s1) ->
    twTile s0 <> zeroTile /\ tL (twTile s0) = l
    /\ (twTile s1 = zeroTile \/ tL (twTile s1) = l).

End EdgeMemoryCache.

(** *** Facts about the slot policy *)

Lemma tile_lt_irrefl (a : Tile) : ~ tile_lt a a.
Proof. unfold tile_lt. intros [[? ?]|(_ & _ & H)]; [congruence | lia]. Qed.

Lemma tile_lt_asym (a b : Tile) : tile_lt a b -> ~ tile_lt b a.
Proof.
  unfold tile_lt. intros [[? ?]|(? & ? & ?)] [[? ?]|(? & ? & ?)];
    try congruence; lia.
Qed.

(** On the arguments the cache compares, [tileLess] does not panic and
    decides the strict order of the spec. *)
Lemma tileLess_tile_lt (a b : Tile) :
  a <> zeroTile \/ b <> zeroTile ->
  a = zeroTile \/ b = zeroTile \/ tL a = tL b ->
  tileLess a b = Some (bool_decide (tile_lt a b)).
Proof.
  intros Hnz Hlvl. unfold tileLess.
  destruct (decide (a = zeroTile)) as [Ha|Ha].
  - f_equal. symmetry. apply bool_decide_eq_true. left. split; [easy|].
    destruct Hnz; congruence.
  - destruct (decide (b = zeroTile)) as [Hb|Hb].
    + f_equal. symmetry. apply bool_decide_eq_false.
      intros [[? ?]|(_ & ? & _)]; congruence.
    + destruct (decide (tL a <> tL b)) as [Hl|_];
        [destruct Hlvl as [?|[?|?]]; congruence|].
      f_equal. apply eq_true_iff_eq.
      rewrite orb_true_iff, andb_true_iff, !bool_decide_eq_true.
      unfold tile_lt. intuition congruence.
Qed.

Module EdgeMemoryCacheFacts.
Import EdgeMemoryCache.

(** The slot maps a client's cache goes through, one descriptor at a
    time. *)
Inductive observed : gmap Z (tileWithData * tileWithData) -> Prop :=
| observed_new : observed ∅
| observed_save m t d m' :
    observed m -> 1 <= tW t ->
    update_slot m t (Some d) = Some m' ->
    observed m'.

Lemma and_then_decide (P Q : Prop) `{!Decision P, !Decision Q} :
  and_then (Some (bool_decide P)) (Some (bool_decide Q))
  = Some (bool_decide (P /\ Q)).
Proof.
  unfold and_then. destruct (decide P) as [HP|HP].
  - rewrite (bool_decide_eq_true_2 _ HP). f_equal. apply bool_decide_ext. tauto.
  - rewrite (bool_decide_eq_false_2 _ HP). f_equal. symmetry.
    apply bool_decide_eq_false_2. tauto.
Qed.

Lemma well_formed_nonzero (t : Tile) : 1 <= tW t -> t <> zeroTile.
Proof. intros Hw ->. simpl in Hw. lia. Qed.

Lemma slots_inv_empty : slots_inv ∅.
Proof. intros l s0 s1 H. now rewrite lookup_empty in H. Qed.

Lemma slots_inv_insert m l s0 s1 :
  slots_inv m ->
  twTile s0 <> zeroTile -> tL (twTile s0) = l ->
  (twTile s1 = zeroTile \/ tL (twTile s1) = l) ->
  slots_inv (<[l := (s0, s1)]> m).
Proof.
  intros Hm H0 H0l H1 l' a b Hl'.
  destruct (decide (l = l')) as [->|Hne].
  - rewrite lookup_insert_eq in Hl'. now inversion Hl'; subst.
  - rewrite lookup_insert_ne in Hl' by easy. eauto.
Qed.

(** What one iteration of the second loop does, in a state that satisfies
    the invariant. *)
Lemma update_slot_cases m t d :
  slots_inv m -> t <> zeroTile ->
  match m !! tL t with
  | None => update_slot m t (Some d) = Some (<[tL t := (mkTWD t d, zeroTWD)]> m)
  | Some (s0, s1) =>
      if decide (twTile s0 = t \/ twTile s1 = t)
      then update_slot m t (Some d) = Some m
      else if decide (tile_lt (twTile s0) t /\ tile_lt (twTile s0) (twTile s1))
      then update_slot m t (Some d) = Some (<[tL t := (mkTWD t d, s1)]> m)
      else if decide (tile_lt (twTile s1) t /\ tile_lt (twTile s1) (twTile s0))
      then update_slot m t (Some d) = Some (<[tL t := (s0, mkTWD t d)]> m)
      else update_slot m t (Some d) = Some m
  end.
Proof.
  intros Hinv Ht. unfold update_slot.
  destruct (m !! tL t) as [[s0 s1]|] eqn:Hm; [|reflexivity].
  destruct (Hinv _ _ _ Hm) as (H0 & H0l & H1).
  destruct (decide (twTile s0 = t \/ twTile s1 = t)) as [Hdup|Hnew].
  - destruct Hdup as [<-|<-].
    + now rewrite (bool_decide_eq_true_2 (twTile s0 = twTile s0)).
    + rewrite (bool_decide_eq_true_2 (twTile s1 = twTile s1)) by easy.
      now rewrite orb_true_r.
  - rewrite !bool_decide_eq_false_2 by tauto. simpl.
    rewrite (tileLess_tile_lt (twTile s0) t), (tileLess_tile_lt (twTile s0) (twTile s1)),
      (tileLess_tile_lt (twTile s1) t), (tileLess_tile_lt (twTile s1) (twTile s0));
      try (destruct H1; intuition congruence).
    rewrite !and_then_decide.
    destruct (decide (tile_lt (twTile s0) t /\ tile_lt (twTile s0) (twTile s1)))
      as [H3|H3].
    { now rewrite (bool_decide_eq_true_2 _ H3). }
    rewrite (bool_decide_eq_false_2 _ H3). simpl.
    destruct (decide (tile_lt (twTile s1) t /\ tile_lt (twTile s1) (twTile s0)))
      as [H4|H4].
    { now rewrite (bool_decide_eq_true_2 _ H4). }
    now rewrite (bool_decide_eq_false_2 _ H4).
Qed.

Lemma update_slot_inv m t d m' :
  slots_inv m -> 1 <= tW t ->
  update_slot m t (Some d) = Some m' -> slots_inv m'.
Proof.
  intros Hinv Hw Hup.
  pose proof (well_formed_nonzero t Hw) as Ht.
  pose proof (update_slot_cases m t d Hinv Ht) as Hc.
  destruct (m !! tL t) as [[s0 s1]|] eqn:Hm.
  - destruct (Hinv _ _ _ Hm) as (H0 & H0l & H1).
    repeat case_decide; rewrite Hc in Hup; inversion Hup; subst; try easy.
    + apply slots_inv_insert; auto.
    + apply slots_inv_insert; auto.
  - rewrite Hc in Hup; inversion Hup; subst.
    apply slots_inv_insert; auto.
Qed.

Lemma observed_inv m : observed m -> slots_inv m.
Proof.
  induction 1 as [|m t d m' _ IH Hw Hup]; [apply slots_inv_empty|].
  eapply update_slot_inv; eauto.
Qed.

(** A case of the [switch] that succeeds without [data[i]] does not store
    it. *)
Lemma update_slot_no_data m t m' :
  update_slot m t None = Some m' ->
  forall d, update_slot m t (Some d) = Some m'.
Proof.
  unfold update_slot. intros H d.
  destruct (m !! tL t) as [[s0 s1]|]; [|discriminate].
  destruct (bool_decide (twTile s0 = t) || bool_decide (twTile s1 = t)); [easy|].
  destruct (and_then (tileLess (twTile s0) t) _) as [[|]|];
    simpl in *; try discriminate.
  destruct (and_then (tileLess (twTile s1) t) _) as [[|]|];
    simpl in *; try discriminate.
  exact H.
Qed.

Lemma update_slots_observed tiles : forall m data i m',
  observed m -> Forall (fun t => 1 <= tW t) tiles ->
  update_slots m tiles data i = Some m' -> observed m'.
Proof.
  induction tiles as [|t tiles IH]; intros m data i m' Hm Hwf Hup; simpl in Hup.
  - now inversion Hup; subst.
  - inversion Hwf as [|? ? Ht Htiles]; subst.
    destruct (update_slot m t (data !! i)) as [m1|] eqn:H1; [|discriminate].
    simpl in Hup. apply (IH m1 data (S i)); [|easy|easy].
    destruct (data !! i) as [d|].
    + eapply observed_save; eauto.
    + eapply observed_save; eauto. apply (update_slot_no_data _ _ _ H1 []).
Qed.

(** The slots after a batch are those after its descriptors saved one at a
    time. *)
Lemma update_slots_shift tiles : forall m d data i,
  update_slots m tiles (d :: data) (S i) = update_slots m tiles data i.
Proof.
  induction tiles as [|t tiles IH]; intros m d data i; simpl; [reflexivity|].
  destruct (update_slot m t (data !! i)); simpl; [apply IH | reflexivity].
Qed.

Lemma update_slots_cons m t tiles d data :
  update_slots m (t :: tiles) (d :: data) 0
  = m' ← update_slot m t (Some d); update_slots m' tiles data 0.
Proof.
  simpl. destruct (update_slot m t (Some d)); simpl; [|reflexivity].
  apply update_slots_shift.
Qed.

(** The cases of the claim: what saving the descriptor [t] with the bytes
    [d] does to the slots [m].  Other levels keep their slots; a level
    without slots gets [t] in slot 0; a descriptor that already occupies a
    slot changes nothing; otherwise the slot whose descriptor is strictly
    less than both [t] and the other slot is replaced by [(t, d)] and the
    other slot stays; and when neither slot is, [t] being older than both,
    nothing changes. *)
Definition policy (m : gmap Z (tileWithData * tileWithData)) (t : Tile)
    (d : bytes) (m' : gmap Z (tileWithData * tileWithData)) : Prop :=
  (forall l, l <> tL t -> m' !! l = m !! l)
  /\ (m !! tL t = None -> m' !! tL t = Some (mkTWD t d, zeroTWD))
  /\ (forall s0 s1, m !! tL t = Some (s0, s1) ->
      (twTile s0 = t \/ twTile s1 = t -> m' = m)
      /\ (twTile s0 <> t -> twTile s1 <> t ->
          tile_lt (twTile s0) t -> tile_lt (twTile s0) (twTile s1) ->
          m' !! tL t = Some (mkTWD t d, s1))
      /\ (twTile s0 <> t -> twTile s1 <> t ->
          tile_lt (twTile s1) t -> tile_lt (twTile s1) (twTile s0) ->
          m' !! tL t = Some (s0, mkTWD t d))
      /\ (twTile s0 <> t -> twTile s1 <> t ->
          ~ (tile_lt (twTile s0) t /\ tile_lt (twTile s0) (twTile s1)) ->
          ~ (tile_lt (twTile s1) t /\ tile_lt (twTile s1) (twTile s0)) ->
          m' = m)).

(** No level holds the zero descriptor in both slots. *)
Definition never_both_zero (m : gmap Z (tileWithData * tileWithData)) : Prop :=
  forall l s0 s1, m !! l = Some (s0, s1) ->
    ~ (twTile s0 = zeroTile /\ twTile s1 = zeroTile).

(** The slots [m'] come from the slots [m] by the descriptors of [saved],
    each with its bytes, placed one after the other by the policy, and after
    each of them no level holds the zero descriptor in both slots. *)
Fixpoint follows (m : gmap Z (tileWithData * tileWithData))
    (saved : list (Tile * bytes)) (m' : gmap Z (tileWithData * tileWithData))
  : Prop :=
  match saved with
  | [] => m' = m
  | (t, d) :: rest =>
      exists m1, policy m t d m1 /\ never_both_zero m1 /\ follows m1 rest m'
  end.

(** One iteration of the second loop places its descriptor by the
    policy. *)
Lemma update_slot_policy m t d :
  slots_inv m -> 1 <= tW t ->
  exists m', update_slot m t (Some d) = Some m'
             /\ policy m t d m' /\ never_both_zero m'.
Proof.
  intros Hinv Hw.
  pose proof (well_formed_nonzero t Hw) as Ht.
  pose proof (update_slot_cases m t d Hinv Ht) as Hc.
  assert (exists m', update_slot m t (Some d) = Some m') as [m' Hup].
  { destruct (m !! tL t) as [[s0 s1]|]; repeat case_decide; eauto. }
  assert (slots_inv m') as Hinv' by (eapply update_slot_inv; eauto).
  exists m'. split; [exact Hup|]. split.
  2:{ intros l s0 s1 Hl [H0 _]. now destruct (Hinv' _ _ _ Hl) as (? & _). }
  split; [|split].
  - intros l Hl.
    destruct (m !! tL t) as [[s0 s1]|];
      repeat case_decide; rewrite Hc in Hup; inversion Hup; subst;
      try reflexivity; now rewrite lookup_insert_ne.
  - intros Hnone. rewrite Hnone in Hc. rewrite Hc in Hup. inversion Hup; subst.
    apply lookup_insert_eq.
  - intros s0 s1 Hsome. rewrite Hsome in Hc.
    split; [|split; [|split]].
    + intros Hdup. rewrite decide_True in Hc by easy. congruence.
    + intros H0 H1 Ha Hb.
      rewrite decide_False, decide_True in Hc by tauto.
      rewrite Hc in Hup. inversion Hup; subst. apply lookup_insert_eq.
    + intros H0 H1 Ha Hb.
      rewrite decide_False in Hc by tauto.
      rewrite decide_False in Hc by (pose proof (tile_lt_asym _ _ Hb); tauto).
      rewrite decide_True in Hc by tauto.
      rewrite Hc in Hup. inversion Hup; subst. apply lookup_insert_eq.
    + intros H0 H1 Ha Hb.
      rewrite decide_False in Hc by tauto.
      rewrite decide_False in Hc by tauto.
      rewrite decide_False in Hc by tauto.
      congruence.
Qed.

(** The second loop places the descriptors of the batch one after the
    other. *)
Lemma update_slots_follows tiles : forall m data,
  observed m -> Forall (fun t => 1 <= tW t) tiles ->
  (length tiles <= length data)%nat ->
  exists m', update_slots m tiles data 0 = Some m'
             /\ follows m (zip tiles data) m'.
Proof.
  induction tiles as [|t tiles IH]; intros m data Hm Hwf Hlen.
  - exists m. split; reflexivity.
  - destruct data as [|d data]; [simpl in Hlen; lia|].
    inversion Hwf as [|? ? Ht Htiles]; subst.
    destruct (update_slot_policy m t d (observed_inv _ Hm) Ht)
      as (m1 & Hup & Hpol & Hnz).
    assert (observed m1) as Hm1 by (eapply observed_save; eauto).
    destruct (IH m1 data Hm1 Htiles ltac:(simpl in Hlen; lia))
      as (m' & Hups & Hfol).
    exists m'. split.
    + rewrite update_slots_cons, Hup. exact Hups.
    + cbn [zip zip_with follows]. exists m1. auto.
Qed.

(** The first loop does not panic when every tile has its slice. *)
Lemma to_forward_total m tiles : forall data i,
  (i + length tiles <= length data)%nat ->
  is_Some (to_forward m tiles data i).
Proof.
  induction tiles as [|t tiles IH]; intros data i Hlen; [now eexists|].
  cbn [to_forward]. simpl in Hlen.
  destruct (IH data (S i) ltac:(lia)) as [[ts ds] Hrec].
  destruct (present m t); [now rewrite Hrec|].
  destruct (data !! i) as [d|] eqn:Hd; [|apply lookup_ge_None in Hd; lia].
  simpl. rewrite Hrec. now eexists.
Qed.

Section Reachable.
Context {R E : Type} `{!TileReaderWithContext R E}.

(** [SaveTiles] updates the slots by the second loop alone. *)
Lemma SaveTiles_slots tiles data (c c' : EdgeMemoryCache.t R) :
  SaveTiles tiles data c = Some c' ->
  update_slots (slots c) tiles data 0 = Some (slots c').
Proof.
  unfold SaveTiles. intros H.
  destruct (to_forward _ _ _ _) as [[ts ds]|]; [|discriminate]. simpl in H.
  destruct (update_slots _ _ _ _) as [m'|]; [|discriminate].
  now inversion H.
Qed.

Lemma reachable_observed (c : EdgeMemoryCache.t R) :
  reachable c -> observed (slots c).
Proof.
  induction 1 as [inner|c tiles data c' _ IH Hwf Hsave]; [constructor|].
  apply SaveTiles_slots in Hsave.
  eapply update_slots_observed; eauto.
Qed.

(** C7. In a cache that has only seen well-formed descriptors, saving a
    batch of well-formed descriptors, each with its bytes, does not panic,
    and every descriptor of the batch is placed in turn, in the order of the
    batch, by the policy of the claim: other levels keep their slots; a
    level without slots gets the descriptor in slot 0; a descriptor that
    already occupies a slot changes nothing; otherwise the slot whose
    descriptor is strictly less than both the new descriptor and the other
    slot (zero least, then [(N, W)] lexicographically) is replaced by the
    new descriptor with its bytes and the other slot stays; when neither
    slot is, nothing changes.  After each descriptor of the batch no level
    holds the zero descriptor in both slots. *)
Theorem SaveTiles_slot_policy (c : EdgeMemoryCache.t R) (tiles : list Tile)
    (data : list bytes) :
  reachable c -> Forall well_formed tiles ->
  (length tiles <= length data)%nat ->
  exists c',
    SaveTiles tiles data c = Some c'
    /\ reachable c'
    /\ follows (slots c) (zip tiles data) (slots c').
Proof.
  intros Hreach Hwf Hlen.
  destruct (update_slots_follows tiles (slots c) data
              (reachable_observed _ Hreach) Hwf Hlen) as (m' & Hup & Hfol).
  destruct (to_forward_total (slots c) tiles data 0 ltac:(simpl; lia))
    as [[ts ds] Hfw].
  assert (SaveTiles tiles data c
          = Some (EdgeMemoryCache.mk (tr_SaveTiles ts ds (tr c)) m')) as Hsave.
  { unfold SaveTiles. rewrite Hfw. simpl. now rewrite Hup. }
  eexists. split; [exact Hsave|]. split; [|exact Hfol].
  eapply reachable_save; eauto.
Qed.

End Reachable.

(** Three full tiles of level 0 saved in turn: the second slot takes the
    second tile, then the older slot is displaced. *)
Definition tileA : Tile := mkTile 8 0 0 256.
Definition tileB : Tile := mkTile 8 0 1 256.
Definition tileC : Tile := mkTile 8 0 2 256.
Definition cacheA : EdgeMemoryCache.t Recorder.t :=
  EdgeMemoryCache.mk [([tileA], [[Byte.x61]])]
    (<[0 := (mkTWD tileA [Byte.x61], zeroTWD)]> ∅).

Lemma cacheA_reachable : reachable cacheA.
Proof.
  apply (reachable_save (new []) [tileA] [[Byte.x61]]).
  - constructor.
  - repeat constructor. unfold well_formed. simpl. lia.
  - reflexivity.
Qed.

Example save_ABC :
  (c ← SaveTiles [tileA; tileB; tileC; tileB] [[Byte.x61]; [Byte.x62]; [Byte.x63]; []]
         (new ([] : Recorder.t));
   Some (slots c !! 0, tr c))
  = Some (Some (mkTWD tileC [Byte.x63], mkTWD tileB [Byte.x62]),
          [([tileA; tileB; tileC; tileB], [[Byte.x61]; [Byte.x62]; [Byte.x63]; []])]).
Proof. vm_compute. reflexivity. Qed.

(** A descriptor older than both slots is dropped: the slots stay. *)
Example save_older_than_both :
  (c ← SaveTiles [tileB; tileC; tileA] [[Byte.x62]; [Byte.x63]; [Byte.x61]]
         (new ([] : Recorder.t));
   Some (slots c !! 0))
  = Some (Some (mkTWD tileB [Byte.x62], mkTWD tileC [Byte.x63])).
Proof. vm_compute. reflexivity. Qed.

Lemma SaveTiles_slot_policy_witness :
  reachable cacheA /\ Forall well_formed [tileB; tileC; tileB]
  /\ (length [tileB; tileC; tileB]
      <= length [[Byte.x62]; [Byte.x63]; [Byte.x64]])%nat
  /\ exists c',
       SaveTiles [tileB; tileC; tileB] [[Byte.x62]; [Byte.x63]; [Byte.x64]] cacheA
       = Some c'
       /\ slots c' !! 0 = Some (mkTWD tileC [Byte.x63], mkTWD tileB [Byte.x62])
       /\ follows (slots cacheA)
            [(tileB, [Byte.x62]); (tileC, [Byte.x63]); (tileB, [Byte.x64])]
            (slots c').
Proof.
  assert (Hwf : Forall well_formed [tileB; tileC; tileB])
    by (repeat constructor; unfold well_formed; simpl; lia).
  assert (Hlen : (length [tileB; tileC; tileB]
                  <= length [[Byte.x62]; [Byte.x63]; [Byte.x64]])%nat)
    by (simpl; lia).
  split; [exact cacheA_reachable|]. split; [exact Hwf|]. split; [exact Hlen|].
  destruct (SaveTiles_slot_policy cacheA [tileB; tileC; tileB]
              [[Byte.x62]; [Byte.x63]; [Byte.x64]] cacheA_reachable Hwf Hlen)
    as (c' & Hsave & _ & Hfol).
  exists c'. split; [exact Hsave|]. split; [|exact Hfol].
  assert (Hc : SaveTiles [tileB; tileC; tileB]
                 [[Byte.x62]; [Byte.x63]; [Byte.x64]] cacheA
               = Some (EdgeMemoryCache.mk
                         [([tileB; tileC; tileB],
                           [[Byte.x62]; [Byte.x63]; [Byte.x64]]);
                          ([tileA], [[Byte.x61]])]
                         (<[0 := (mkTWD tileC [Byte.x63], mkTWD tileB [Byte.x62])]>
                            (<[0 := (mkTWD tileA [Byte.x61], mkTWD tileB [Byte.x62])]>
                               (slots cacheA)))))
    by reflexivity.
  rewrite Hc in Hsave. inversion Hsave; subst c'. reflexivity.
Defined.

End EdgeMemoryCacheFacts.

(** ** The permanent cache *)

Module PermanentCache.

(** The directory tree as the cache sees it: regular files with their
    contents, and directories.  [os.Stat] succeeds on both. *)
Record disk : Type := mkDisk {
  files : gmap string bytes;
  dirs : gset string
}.

(** What the operating system answers to the calls of one loop iteration.
    [os.MkdirAll] may fail, and may have created directories either way;
    [os.WriteFile] may fail, and a failed write may leave a file behind
    (it creates and truncates before it writes). *)
Inductive write_result : Type :=
| WriteOk
| WriteErr (left_behind : option bytes).

Record os_outcome : Type := mkOs {
  mkdir_fails : bool;
  mkdir_created : gset string;
  write_res : write_result
}.

(** The calls made to the operating system, and the lines handed to the
    logger, in order. *)
Inductive os_call : Type :=
| OsStat (path : string)
| OsMkdirAll (path : string)
| OsWriteFile (path : string) (data : bytes).

Inductive log_record : Type :=
| LogError (msg : string)
| LogInfo (msg : string).

(** [PermanentCache]: the inner reader, the directory and the path
    function. *)
Record t (R : Type) : Type := mk {
  tr : R;
  dir : string;
  tilePath : Tile -> string
}.
Arguments mk {R}.
Arguments tr {R}.
Arguments dir {R}.
Arguments tilePath {R}.

(** The state a call runs in: the cache (with its inner reader), the disk,
    and what was logged and asked of the operating system so far. *)
Record world (R : Type) : Type := mkWorld {
  cache : t R;
  on_disk : disk;
  logged : list log_record;
  os_calls : list os_call
}.
Arguments mkWorld {R}.
Arguments cache {R}.
Arguments on_disk {R}.
Arguments logged {R}.
Arguments os_calls {R}.

(** How one iteration, or the method, ends. *)
Inductive flow : Type :=
| Continue   (* on to the next tile *)
| Return     (* [return] *)
| Panic.     (* index out of range *)

(** [_, err := os.Stat(path); err == nil] *)
Definition stat (d : disk) (path : string) : bool :=
  bool_decide (is_Some (files d !! path)) || bool_decide (path ∈ dirs d).

Definition write_file (d : disk) (path : string) (b : bytes) : disk :=
  mkDisk (<[path := b]> (files d)) (dirs d).

Definition make_dirs (d : disk) (created : gset string) : disk :=
  mkDisk (files d) (dirs d ∪ created).

Section Methods.
Context {R E : Type} `{!TileReaderWithContext R E}.
(** [filepath.Join] and [filepath.Dir] *)
Variable filepath_Join : string -> string -> string.
Variable filepath_Dir : string -> string.

Definition path_of (c : t R) (tl : Tile) : string :=
  filepath_Join (dir c) (tilePath c tl).

Definition say (w : world R) (l : log_record) : world R :=
  mkWorld (cache w) (on_disk w) (logged w ++ [l]) (os_calls w).

Definition call (w : world R) (o : os_call) (d : disk) : world R :=
  mkWorld (cache w) d (logged w) (os_calls w ++ [o]).

(** The body of the loop of [SaveTiles] for the tile [tl]; [od] is
    [data[i]]. *)
Definition save_tile (o : os_outcome) (tl : Tile) (od : option bytes)
    (w : world R) : world R * flow :=
  if decide (tH tl <> TileHeight)
  then (say w (LogError "unexpected tile height"), Continue)
  else if decide (tW tl <> TileWidth)
  then (w, Continue)
  else
    let path := path_of (cache w) tl in
    let w := call w (OsStat path) (on_disk w) in
    if stat (on_disk w) path then (w, Continue)
    else
      let w := call w (OsMkdirAll (filepath_Dir path))
                 (make_dirs (on_disk w) (mkdir_created o)) in
      if mkdir_fails o
      then (say w (LogError "failed to create directory"), Return)
      else
        match od with
        | None => (w, Panic)
        | Some d =>
            match write_res o with
            | WriteOk =>
                (say (call w (OsWriteFile path d) (write_file (on_disk w) path d))
                   (LogInfo "saved tile to cache"), Continue)
            | WriteErr left_behind =>
                let disk' := match left_behind with
                             | Some b => write_file (on_disk w) path b
                             | None => on_disk w
                             end in
                (say (call w (OsWriteFile path d) disk')
                   (LogError "failed to write file"), Continue)
            end
        end.

(** The loop [for i, t := range tiles]. *)
Fixpoint save_loop (os : nat -> os_outcome) (tiles : list Tile)
    (data : list bytes) (i : nat) (w : world R) : world R * flow :=
  match tiles with
  | [] => (w, Continue)
  | tl :: tiles' =>
      match save_tile (os i) tl (data !! i) w with
      | (w', Continue) => save_loop os tiles' data (S i) w'
      | stopped => stopped
      end
  end.

(** [c.tr.SaveTiles(tiles, data)] *)
Definition forward (tiles : list Tile) (data : list bytes) (w : world R)
  : world R :=
  mkWorld (mk (tr_SaveTiles tiles data (tr (cache w)))
              (dir (cache w)) (tilePath (cache w)))
    (on_disk w) (logged w) (os_calls w).

(** [PermanentCache.SaveTiles].  The method has no result; the flow says
    whether it returned ([Return]) or panicked. *)
Definition SaveTiles (os : nat -> os_outcome) (tiles : list Tile)
    (data : list bytes) (w : world R) : world R * flow :=
  match save_loop os tiles data 0 w with
  | (w', Continue) => (forward tiles data w', Return)
  | stopped => stopped
  end.

(** A sequence of [SaveTiles] calls, each with the answers the operating
    system gives during it. *)
Fixpoint SaveTiles_seq
    (calls : list ((nat -> os_outcome) * list Tile * list bytes))
    (w : world R) : world R :=
  match calls with
  | [] => w
  | (os, tiles, data) :: calls' =>
      SaveTiles_seq calls' (SaveTiles os tiles data w).1
  end.

End Methods.

End PermanentCache.

(** *** Facts about the permanent cache *)

Module PermanentCacheFacts.
Import PermanentCache.

Section Facts.
Context {R E : Type} `{!TileReaderWithContext R E}.
Variable filepath_Join : string -> string -> string.
Variable filepath_Dir : string -> string.

Abbreviation path_of := (path_of filepath_Join).
Abbreviation save_tile := (save_tile filepath_Join filepath_Dir).
Abbreviation save_loop := (save_loop filepath_Join filepath_Dir).
Abbreviation SaveTiles := (SaveTiles filepath_Join filepath_Dir).
Abbreviation SaveTiles_seq := (SaveTiles_seq filepath_Join filepath_Dir).














Lemma save_tile_cache o tl od (w : world R) :
  cache (save_tile o tl od w).1 = cache w.
Proof.
  unfold save_tile. repeat case_decide; try reflexivity. simpl.
  destruct (stat _ _); [reflexivity|].
  destruct (mkdir_fails o); [reflexivity|].
  destruct od; [|reflexivity]. now destruct (write_res o) as [|[?|]].
Qed.

Lemma save_loop_cache os tiles : forall data i (w : world R),
  cache (save_loop os tiles data i w).1 = cache w.
Proof.
  induction tiles as [|tl tiles IH]; intros data i w; simpl; [reflexivity|].
  pose proof (save_tile_cache (os i) tl (data !! i) w) as Hstep.
  destruct (save_tile (os i) tl (data !! i) w) as [w1 [| |]]; simpl in *;
    try easy.
  now rewrite IH.
Qed.

(** While no directory creation fails and every tile has its bytes, the
    loop runs to its end, whatever the writes do. *)
Lemma save_loop_completes os tiles : forall data i (w : world R),
  (forall j, mkdir_fails (os j) = false) ->
  (i + length tiles <= length data)%nat ->
  (save_loop os tiles data i w).2 = Continue.
Proof.
  induction tiles as [|tl tiles IH]; intros data i w Hmk Hlen; simpl in *;
    [reflexivity|].
  destruct (data !! i) as [d|] eqn:Hd;
    [|apply lookup_ge_None in Hd; lia].
  assert ((save_tile (os i) tl (Some d) w).2 = Continue) as Hflow.
  { unfold save_tile. repeat case_decide; try reflexivity. simpl.
    destruct (stat _ _); [reflexivity|]. rewrite Hmk.
    now destruct (write_res (os i)) as [|[?|]]. }
  destruct (save_tile (os i) tl (Some d) w) as [w1 fl]; simpl in Hflow; subst fl.
  apply IH; [easy | lia].
Qed.

(** The part of C5 that the code keeps: the method returns nothing, and
    when no directory creation fails the inner reader receives the whole
    batch, whatever the writes do. *)
Lemma SaveTiles_forwards os tiles data (w : world R) :
  (forall j, mkdir_fails (os j) = false) ->
  (length tiles <= length data)%nat ->
  (SaveTiles os tiles data w).2 = Return
  /\ tr (cache (SaveTiles os tiles data w).1)
     = tr_SaveTiles tiles data (tr (cache w)).
Proof.
  intros Hmk Hlen. unfold SaveTiles.
  pose proof (save_loop_completes os tiles data 0%nat w Hmk ltac:(simpl; lia)) as Hfl.
  pose proof (save_loop_cache os tiles data 0%nat w) as Hc.
  destruct (save_loop os tiles data 0 w) as [w1 fl]; simpl in *; subst fl.
  simpl. now rewrite Hc.
Qed.





(** The claim's words: every file in the cache directory holds a full
    tile.  Every file that the calls created holds the bytes that one of
    them was passed with a descriptor of full width at the file's path. *)
Definition holds_full_tiles
    (calls : list ((nat -> os_outcome) * list Tile * list bytes))
    (w w' : world R) : Prop :=
  forall p b,
    files (on_disk w) !! p = None -> files (on_disk w') !! p = Some b ->
    exists c k tl, c ∈ calls /\ c.1.2 !! k = Some tl /\ c.2 !! k = Some b
                   /\ tW tl = TileWidth /\ p = path_of (cache w) tl.



End Facts.

(** A cache directory for examples, with [filepath.Join] as concatenation
    with a slash. *)
Definition join (d p : string) : string := (d +:+ "/" +:+ p)%string.
Definition fullTile : Tile := mkTile 8 0 0 256.
Definition emptyWorld : world Recorder.t :=
  mkWorld (PermanentCache.mk [] "cache" (fun _ => "tile/0/000"%string))
    (mkDisk ∅ ∅) [] [].

(** An operating system on which every call succeeds, and one on which
    [os.WriteFile] fails after it wrote the first byte. *)
Definition os_ok : nat -> os_outcome := fun _ => mkOs false ∅ WriteOk.
Definition os_torn : nat -> os_outcome :=
  fun _ => mkOs false ∅ (WriteErr (Some [Byte.x61])).

(** The full tile saved twice with its two bytes; the write of the first
    call fails. *)
Definition torn_calls : list ((nat -> os_outcome) * list Tile * list bytes) :=
  [(os_torn, [fullTile], [[Byte.x61; Byte.x62]]);
   (os_ok, [fullTile], [[Byte.x61; Byte.x62]])].

(** C4, where the claim's conclusion fails.  The write of the first call
    fails and leaves a file with the first byte of the tile; the second
    call, with the same tile and bytes, finds the path taken and leaves the
    file as it is.  The file at the tile's path does not hold the tile. *)
Lemma failed_write_leaves_torn_file :
  files (on_disk (SaveTiles_seq join id torn_calls emptyWorld))
    !! "cache/tile/0/000"%string = Some [Byte.x61]
  /\ os_calls (SaveTiles_seq join id torn_calls emptyWorld)
     = [OsStat "cache/tile/0/000"; OsMkdirAll "cache/tile/0/000";
        OsWriteFile "cache/tile/0/000" [Byte.x61; Byte.x62];
        OsStat "cache/tile/0/000"]
  /\ ~ holds_full_tiles join torn_calls emptyWorld
         (SaveTiles_seq join id torn_calls emptyWorld).
Proof.
  assert (Hfile : files (on_disk (SaveTiles_seq join id torn_calls emptyWorld))
                    !! "cache/tile/0/000"%string = Some [Byte.x61])
    by (vm_compute; reflexivity).
  split; [exact Hfile|]. split; [vm_compute; reflexivity|].
  intros Hall.
  destruct (Hall "cache/tile/0/000"%string [Byte.x61] ltac:(reflexivity) Hfile)
    as (c & k & tl & Hc & _ & Hd & _).
  unfold torn_calls in Hc.
  apply elem_of_cons in Hc as [->|Hc].
  { destruct k as [|k]; simpl in Hd; [|destruct k]; discriminate. }
  apply list_elem_of_singleton in Hc as ->.
  destruct k as [|k]; simpl in Hd; [|destruct k]; discriminate.
Qed.

(** C5, at the failing input: one full tile, [os.MkdirAll] fails.  The
    method logs the failure and returns at once; the inner reader's
    [SaveTiles] is never called with the batch. *)
Theorem SaveTiles_mkdir_failure_skips_inner :
  let r := SaveTiles join id (fun _ => mkOs true ∅ WriteOk)
             [fullTile] [[Byte.x61]] emptyWorld in
  r.2 = Return
  /\ tr (cache r.1) = []
  /\ tr (cache r.1) <> tr_SaveTiles [fullTile] [[Byte.x61]] (tr (cache emptyWorld))
  /\ logged r.1 = [LogError "failed to create directory"]
  /\ os_calls r.1 = [OsStat "cache/tile/0/000"; OsMkdirAll "cache/tile/0/000"].
Proof. vm_compute. repeat split; discriminate. Qed.

(** The sibling path: when the write fails instead, the batch is forwarded
    all the same. *)
Example SaveTiles_write_failure_forwards :
  let r := SaveTiles join id (fun _ => mkOs false ∅ (WriteErr None))
             [fullTile] [[Byte.x61]] emptyWorld in
  r.2 = Return
  /\ tr (cache r.1) = [([fullTile], [[Byte.x61]])]
  /\ logged r.1 = [LogError "failed to write file"].
Proof. vm_compute. repeat split. Qed.

(** A successful save, then the same tile again: the second call finds the
    file and leaves it alone. *)
Example SaveTiles_twice :
  let ok := fun _ : nat => mkOs false ∅ WriteOk in
  let w := SaveTiles_seq join id
             [(ok, [fullTile], [[Byte.x61]]); (ok, [fullTile], [[Byte.x62]])]
             emptyWorld in
  files (on_disk w) !! "cache/tile/0/000"%string = Some [Byte.x61]
  /\ os_calls w = [OsStat "cache/tile/0/000"; OsMkdirAll "cache/tile/0/000";
                   OsWriteFile "cache/tile/0/000" [Byte.x61];
                   OsStat "cache/tile/0/000"].
Proof. vm_compute. repeat split. Qed.

End PermanentCacheFacts.

(** ** The remote tile fetcher *)

Module TileFetcher.

(** [time.Time] as nanoseconds since the zero time, so that [time.Time{}]
    is [0]; [time.Duration] is an [int64] count of nanoseconds. *)
Definition Time : Type := Z.
Definition zeroTime : Time := 0.
Definition IsZero (t : Time) : bool := bool_decide (t = zeroTime).
Definition Second : Z := 1000000000.

(** What a pause waits for: a duration, or ([time.Until]) an instant. *)
Inductive pause : Type :=
| For (d : Z)
| Until (t : Time).

(** What one attempt meets: [f.hc.Do] fails, or there is a response with
    its status, its [Retry-After] header ([""] when absent) and the outcome
    of [io.ReadAll] on its body. *)
Inductive attempt (E : Type) : Type :=
| DoError (e : E)
| Response (status : Z) (retry_after : string) (body : E + bytes).
Arguments DoError {E}.
Arguments Response {E}.

(** The errors joined into [errs]. *)
Inductive attempt_error (E : Type) : Type :=
| Failed (e : E)
| UnexpectedStatus (status : Z).
Arguments Failed {E}.
Arguments UnexpectedStatus {E}.

(** The error a request ends with. *)
Inductive fetch_error (E : Type) : Type :=
| CreateRequest (e : E)
| ContextDone
| FatalStatus (status : Z)
| Exhausted (errs : list (attempt_error E)).
Arguments CreateRequest {E}.
Arguments ContextDone {E}.
Arguments FatalStatus {E}.
Arguments Exhausted {E}.

(** What the request does that can be seen from outside: the retry log
    line with the pause that follows it, and the HTTP requests. *)
Inductive event : Type :=
| Retrying (j : nat) (p : pause)
| Requested (j : nat).

(** The environment of one request: the answer to each attempt, the clock
    read when the answer's header is parsed, and whether the context is
    done before the pause ahead of an attempt is over. *)
Record env (E : Type) : Type := mkEnv {
  new_request : option E;
  net : nat -> attempt E;
  clock : nat -> Time;
  cancelled : nat -> bool
}.
Arguments mkEnv {E}.
Arguments new_request {E}.
Arguments net {E}.
Arguments clock {E}.
Arguments cancelled {E}.

Section Methods.
Context {E : Type}.
(** [strconv.Atoi] and [http.ParseTime] *)
Variable Atoi : string -> option Z.
Variable ParseTime : string -> option Time.

(** [parseRetryAfter]; [now] is the value of [time.Now()]. *)
Definition parseRetryAfter (now : Time) (header : string) : Time :=
  if decide (header = ""%string) then zeroTime
  else
    match Atoi header with
    | Some n => now + Int64.mul n Second
    | None =>
        match ParseTime header with
        | Some t => t
        | None => zeroTime
        end
    end.

(** [time.Duration(math.Pow(5, float64(j-1))) * time.Second], the powers
    being exact in floating point for the four values of [j]. *)
Definition backoff (j : nat) : Z := Int64.mul (5 ^ (Z.of_nat j - 1)) Second.

(** The loop [for j := range 5] of the closure in [ReadTiles], with [n]
    iterations left. The result is the trace, and the error or the bytes
    stored in [data[i]]. *)
Fixpoint attempts (w : env E) (n j : nat) (retryAfter : Time)
    (errs : list (attempt_error E)) (tr : list event)
  : list event * (fetch_error E + bytes) :=
  match n with
  | O => (tr, inl (Exhausted errs))
  | S n' =>
      let '(tr, retryAfter, done) :=
        if decide (0 < j)%nat then
          let p := if IsZero retryAfter then For (backoff j)
                   else Until retryAfter in
          (tr ++ [Retrying j p], zeroTime, cancelled w j)
        else (tr, retryAfter, false) in
      if done : bool then (tr, inl ContextDone)
      else
        let tr := tr ++ [Requested j] in
        match net w j with
        | DoError e => attempts w n' (S j) retryAfter (errs ++ [Failed e]) tr
        | Response status header body =>
            if decide (status = 429 \/ status >= 500) then
              attempts w n' (S j) (parseRetryAfter (clock w j) header)
                (errs ++ [UnexpectedStatus status]) tr
            else if decide (status <> 200) then (tr, inl (FatalStatus status))
            else
              match body with
              | inl e => attempts w n' (S j) retryAfter (errs ++ [Failed e]) tr
              | inr d => (tr, inr d)
              end
        end
  end.

(** The closure [ReadTiles] runs for each descriptor. *)
Definition fetch (w : env E) : list event * (fetch_error E + bytes) :=
  match new_request w with
  | Some e => ([], inl (CreateRequest e))
  | None => attempts w 5 0 zeroTime [] []
  end.

(** The spec's words: the statuses after which the request is retried. *)
Definition retryable_status (status : Z) : Prop := status = 429 \/ 500 <= status.

(** The spec's words: an attempt after which the request is retried. *)
Definition retryable (a : attempt E) : Prop :=
  match a with
  | DoError _ => True
  | Response status _ (inl _) => retryable_status status \/ status = 200
  | Response status _ (inr _) => retryable_status status
  end.

(** The spec's words, as the code has them: the pause ahead of attempt [j]
    (counted from 0), given the attempt before it and the clock then. *)
Definition pause_after (prev : attempt E) (now : Time) (j : nat) : pause :=
  match prev with
  | Response status header _ =>
      if decide (retryable_status status
                 /\ parseRetryAfter now header <> zeroTime)
      then Until (parseRetryAfter now header)
      else For (backoff j)
  | DoError _ => For (backoff j)
  end.

(** The spec's words, as the claim has them: the header of the most recent
    response among the attempts before [j]. *)
Fixpoint most_recent_header (w : env E) (j : nat) : option (nat * string) :=
  match j with
  | O => None
  | S k =>
      match net w k with
      | Response _ header _ => Some (k, header)
      | DoError _ => most_recent_header w k
      end
  end.

(** The spec's words, as the claim has them: back off by [5^(j-1)] seconds
    unless the most recent response carried a [Retry-After] header that can
    be parsed, and then wait until that instant. *)
Definition claimed_pause (w : env E) (j : nat) : pause :=
  match most_recent_header w j with
  | Some (k, header) =>
      match Atoi header, ParseTime header with
      | Some n, _ => Until (clock w k + n * Second)
      | None, Some t => Until t
      | None, None => For (5 ^ (Z.of_nat j - 1) * Second)
      end
  | None => For (5 ^ (Z.of_nat j - 1) * Second)
  end.

End Methods.

End TileFetcher.

(** *** Facts about the retry policy *)

Module TileFetcherFacts.
Import TileFetcher.

Section Facts.
Context {E : Type}.
Variable Atoi : string -> option Z.
Variable ParseTime : string -> option Time.

Abbreviation parseRetryAfter := (parseRetryAfter Atoi ParseTime).
Abbreviation attempts := (attempts Atoi ParseTime).
Abbreviation fetch := (fetch Atoi ParseTime).
Abbreviation pause_after := (pause_after Atoi ParseTime).

(** The value of the variable [retryAfter] on entry to iteration [j]. *)
Definition carried (w : env E) (j : nat) : Time :=
  match j with
  | O => zeroTime
  | S k =>
      match net w k with
      | Response status header _ =>
          if decide (status = 429 \/ status >= 500)
          then parseRetryAfter (clock w k) header
          else zeroTime
      | DoError _ => zeroTime
      end
  end.

(** The HTTP requests of a trace. *)
Definition requests (tr : list event) : list nat :=
  omap (fun e => match e with Requested j => Some j | Retrying _ _ => None end) tr.

Lemma requests_app tr1 tr2 : requests (tr1 ++ tr2) = requests tr1 ++ requests tr2.
Proof. apply omap_app. Qed.

Lemma elem_of_requests j tr : j ∈ requests tr <-> Requested j ∈ tr.
Proof.
  unfold requests. rewrite list_elem_of_omap. split.
  - intros ([k p|k] & Hin & Heq); [discriminate|]. now inversion Heq; subst.
  - intros Hin. exists (Requested j). auto.
Qed.

(** The pause the code takes ahead of iteration [S k] is the one the
    policy names. *)
Lemma pause_carried (w : env E) (k : nat) :
  (if IsZero (carried w (S k)) then For (backoff (S k))
   else Until (carried w (S k)))
  = pause_after (net w k) (clock w k) (S k).
Proof.
  unfold carried, pause_after, retryable_status, IsZero.
  destruct (net w k) as [e|status header body].
  - now rewrite bool_decide_eq_true_2.
  - destruct (decide (status = 429 \/ status >= 500)) as [Hs|Hs].
    + destruct (decide (parseRetryAfter (clock w k) header = zeroTime)) as [Hz|Hz].
      * rewrite Hz. rewrite bool_decide_eq_true_2 by easy.
        now rewrite decide_False by tauto.
      * rewrite bool_decide_eq_false_2 by easy.
        rewrite decide_True; [easy | split; [lia | easy]].
    + rewrite bool_decide_eq_true_2 by easy.
      rewrite decide_False; [easy | lia].
Qed.

(** The events of the loop from iteration [j] on, with [n] iterations
    left. *)
Definition events_ok (w : env E) (j n : nat) (evs : list event)
    (res : fetch_error E + bytes) : Prop :=
  (exists m, (m <= n)%nat /\ requests evs = seq j m)
  /\ (forall k, Requested (S k) ∈ evs -> (j <= k)%nat -> retryable (net w k))
  /\ (forall k p, Retrying k p ∈ evs ->
        (j <= k)%nat /\ exists k', k = S k'
          /\ p = (if IsZero (carried w k) then For (backoff k)
                  else Until (carried w k)))
  /\ (forall k, Requested (S k) ∈ evs -> exists p, Retrying (S k) p ∈ evs)
  /\ (forall k status header body,
        Requested k ∈ evs -> net w k = Response status header body ->
        ~ retryable_status status -> status <> 200 ->
        res = inl (FatalStatus status)
        /\ forall k', Requested k' ∈ evs -> (k' <= k)%nat).

Lemma attempts_events (w : env E) (n : nat) : forall j errs tr tr' res,
  attempts w n j (carried w j) errs tr = (tr', res) ->
  exists evs, tr' = tr ++ evs /\ events_ok w j n evs res.
Proof.
  unfold events_ok.
  induction n as [|n IH]; intros j errs tr tr' res Hrun.
  - simpl in Hrun. inversion Hrun; subst. exists []. rewrite app_nil_r.
    split; [easy|]. split; [exists 0%nat; easy|].
    repeat split; intros; match goal with H : _ ∈ [] |- _ => inversion H end.
  - simpl in Hrun.
    set (pre := if decide (0 < j)%nat
                then [Retrying j (if IsZero (carried w j) then For (backoff j)
                                  else Until (carried w j))]
                else []).
    assert (Hpre_req : requests pre = []) by (subst pre; now case_decide).
    assert (Hpre_ret : forall k p, Retrying k p ∈ pre ->
              k = j /\ (0 < j)%nat
              /\ p = (if IsZero (carried w j) then For (backoff j)
                      else Until (carried w j))).
    { subst pre. intros k p Hin. case_decide; [|inversion Hin].
      apply list_elem_of_singleton in Hin. now inversion Hin; subst. }
    assert (Hpre_in : (0 < j)%nat -> exists p, Retrying j p ∈ pre).
    { subst pre. intros Hj. rewrite decide_True by easy. eexists. now left. }
    assert (exists ra done, (if decide (0 < j)%nat
             then (tr ++ [Retrying j (if IsZero (carried w j) then For (backoff j)
                                      else Until (carried w j))],
                   zeroTime, cancelled w j)
             else (tr, carried w j, false)) = (tr ++ pre, ra, done)
            /\ ra = zeroTime) as (ra & done & Heq & Hra).
    { subst pre. case_decide.
      - eexists _, _. split; reflexivity.
      - eexists _, _. rewrite app_nil_r. split; [reflexivity|].
        destruct j; [reflexivity | lia]. }
    rewrite Heq in Hrun. clear Heq. subst ra.
    destruct done.
    { inversion Hrun; subst. exists pre. split; [easy|].
      split; [exists 0%nat; split; [lia | exact Hpre_req]|].
      assert (forall k, Requested k ∈ pre -> False) as Hno.
      { intros k Hk. apply elem_of_requests in Hk. rewrite Hpre_req in Hk.
        inversion Hk. }
      repeat split; try (intros; exfalso; eapply Hno; eassumption).
      - now destruct (Hpre_ret k p H) as (-> & _ & _).
      - destruct (Hpre_ret k p H) as (-> & Hj & ->).
        destruct j as [|j']; [lia|]. eauto. }
    (* the events of this iteration, then those of the rest *)
    assert (Hstep : forall errs' tr'' res',
      attempts w n (S j) (carried w (S j)) errs' ((tr ++ pre) ++ [Requested j])
        = (tr'', res') ->
      retryable (net w j) ->
      exists evs, tr'' = tr ++ evs /\ events_ok w j (S n) evs res').
    { intros errs' tr'' res' Hrest Hretry. unfold events_ok.
      destruct (IH _ _ _ _ _ Hrest)
        as (evs & -> & (m & Hm & Hreq) & Hre & Hpa & Hpre & Hfatal).
      exists (pre ++ [Requested j] ++ evs).
      split; [now rewrite <- !app_assoc|].
      split.
      { exists (S m). split; [lia|]. rewrite !requests_app, Hpre_req, Hreq.
        reflexivity. }
      assert (Hin : forall e, e ∈ pre ++ [Requested j] ++ evs ->
                e ∈ pre \/ e = Requested j \/ e ∈ evs).
      { intros e. rewrite !elem_of_app, list_elem_of_singleton. tauto. }
      assert (Hlater : forall k, Requested k ∈ evs -> (S j <= k)%nat).
      { intros k Hk. apply elem_of_requests in Hk. rewrite Hreq in Hk.
        apply elem_of_seq in Hk. lia. }
      assert (Hno : forall k, Requested k ∈ pre -> False).
      { intros k Hk. apply elem_of_requests in Hk. rewrite Hpre_req in Hk.
        inversion Hk. }
      split; [|split; [|split; [|]]].
      - intros k Hk Hjk. destruct (Hin _ Hk) as [Hk'|[Hk'|Hk']].
        + now apply Hno in Hk'.
        + inversion Hk'; lia.
        + destruct (decide (k = j)) as [->|Hne]; [exact Hretry|].
          apply Hre; [exact Hk' | apply Hlater in Hk'; lia].
      - intros k p Hk. destruct (Hin _ Hk) as [Hk'|[Hk'|Hk']].
        + destruct (Hpre_ret _ _ Hk') as (-> & Hj & ->).
          split; [lia|]. destruct j as [|j']; [lia|]. eauto.
        + discriminate.
        + destruct (Hpa _ _ Hk') as (Hjk & Hk''). split; [lia | exact Hk''].
      - intros k Hk. destruct (Hin _ Hk) as [Hk'|[Hk'|Hk']].
        + now apply Hno in Hk'.
        + inversion Hk'; subst. destruct (Hpre_in ltac:(lia)) as [p Hp].
          exists p. rewrite elem_of_app. now left.
        + destruct (Hpre _ Hk') as [p Hp].
          exists p. rewrite !elem_of_app. auto.
      - intros k status header body Hk Hnet Hnr H200.
        destruct (Hin _ Hk) as [Hk'|[Hk'|Hk']].
        + now apply Hno in Hk'.
        + inversion Hk'; subst. rewrite Hnet in Hretry. simpl in Hretry.
          destruct body; tauto.
        + destruct (Hfatal _ _ _ _ Hk' Hnet Hnr H200) as [-> Hmax].
          split; [reflexivity|]. intros k' Hk''.
          destruct (Hin _ Hk'') as [Hq|[Hq|Hq]].
          * now apply Hno in Hq.
          * inversion Hq; subst. apply Hlater in Hk'. lia.
          * now apply Hmax. }
    (* an iteration that ends the loop *)
    assert (Hstop : forall res' : fetch_error E + bytes,
      (forall status header body, net w j = Response status header body ->
         ~ retryable_status status -> status <> 200 ->
         res' = inl (FatalStatus status)) ->
      exists evs, (tr ++ pre) ++ [Requested j] = tr ++ evs
        /\ events_ok w j (S n) evs res').
    { intros res' Hres. unfold events_ok. exists (pre ++ [Requested j]).
      split; [now rewrite <- app_assoc|].
      split.
      { exists 1%nat. split; [lia|]. now rewrite requests_app, Hpre_req. }
      assert (Hin : forall e, e ∈ pre ++ [Requested j] ->
                e ∈ pre \/ e = Requested j).
      { intros e. rewrite elem_of_app, list_elem_of_singleton. tauto. }
      assert (Hno : forall k, Requested k ∈ pre -> False).
      { intros k Hk. apply elem_of_requests in Hk. rewrite Hpre_req in Hk.
        inversion Hk. }
      split; [|split; [|split; [|]]].
      - intros k Hk Hjk. destruct (Hin _ Hk) as [Hk'|Hk'].
        + now apply Hno in Hk'.
        + inversion Hk'; lia.
      - intros k p Hk. destruct (Hin _ Hk) as [Hk'|Hk']; [|discriminate].
        destruct (Hpre_ret _ _ Hk') as (-> & Hj & ->).
        split; [lia|]. destruct j as [|j']; [lia|]. eauto.
      - intros k Hk. destruct (Hin _ Hk) as [Hk'|Hk'].
        + now apply Hno in Hk'.
        + inversion Hk'; subst. destruct (Hpre_in ltac:(lia)) as [p Hp].
          exists p. rewrite elem_of_app. now left.
      - intros k status header body Hk Hnet Hnr H200.
        destruct (Hin _ Hk) as [Hk'|Hk'].
        + now apply Hno in Hk'.
        + inversion Hk'; subst. split; [eauto|].
          intros k' Hk''. destruct (Hin _ Hk'') as [Hq|Hq].
          * now apply Hno in Hq.
          * inversion Hq; lia. }
    destruct (net w j) as [e|status header body] eqn:Hnet.
    + apply (Hstep (errs ++ [Failed e]) tr' res); [|exact I].
      rewrite <- Hrun. f_equal. unfold carried. now rewrite Hnet.
    + destruct (decide (status = 429 \/ status >= 500)) as [Hs|Hs].
      * apply (Hstep (errs ++ [UnexpectedStatus status]) tr' res).
        -- rewrite <- Hrun. f_equal. unfold carried. rewrite Hnet.
           now rewrite decide_True.
        -- destruct body; simpl; unfold retryable_status; lia.
      * destruct (decide (status <> 200)) as [H200|H200].
        -- inversion Hrun; subst. apply Hstop.
           intros status' header' body' Heq _ _. now inversion Heq; subst.
        -- destruct body as [e|d].
           ++ apply (Hstep (errs ++ [Failed e]) tr' res).
              ** rewrite <- Hrun. f_equal. unfold carried. rewrite Hnet.
                 now rewrite decide_False.
              ** simpl. right. lia.
           ++ inversion Hrun; subst. apply Hstop.
              intros status' header' body' Heq _ Hne. inversion Heq; subst. lia.
Qed.

Lemma backoff_seconds (j : nat) :
  (1 <= j <= 4)%nat -> backoff j = 5 ^ (Z.of_nat j - 1) * Second.
Proof.
  intros Hj. unfold backoff.
  assert (j = 1 \/ j = 2 \/ j = 3 \/ j = 4)%nat as [-> | [-> | [-> | ->]]] by lia;
    reflexivity.
Qed.

(** C6, as the code has it.  A request makes at most five attempts.  An
    attempt is followed by another only if it met a network error (the
    request failed, or the body of a 200 response could not be read), a
    429 or a status of 500 or more, and each such retry comes after a
    pause; any other status but 200 ends the request at once with that
    status.  The pause ahead of attempt [j] (counted from 0, so the claim's
    [j+1]) is [5^(j-1)] seconds, unless the attempt before it met a 429 or a
    status of 500 or more whose [Retry-After] header [parseRetryAfter] turns
    into a non-zero instant, and then it lasts until that instant.
    [parseRetryAfter] reads integer seconds from now, else an HTTP date, and
    gives the zero time for an empty or unparseable header. *)
Theorem fetch_retry_policy (w : env E) :
  (length (requests (fetch w).1) <= 5)%nat
  /\ (forall k, Requested (S k) ∈ (fetch w).1 ->
        retryable (net w k) /\ exists p, Retrying (S k) p ∈ (fetch w).1)
  /\ (forall k status header body,
        Requested k ∈ (fetch w).1 -> net w k = Response status header body ->
        ~ retryable_status status -> status <> 200 ->
        (fetch w).2 = inl (FatalStatus status)
        /\ forall k', Requested k' ∈ (fetch w).1 -> (k' <= k)%nat)
  /\ (forall j p, Retrying j p ∈ (fetch w).1 ->
        exists k, j = S k /\ p = pause_after (net w k) (clock w k) j)
  /\ (forall j, (1 <= j <= 4)%nat -> backoff j = 5 ^ (Z.of_nat j - 1) * Second)
  /\ (forall now header,
        (header = ""%string -> parseRetryAfter now header = zeroTime)
        /\ (forall n, header <> ""%string -> Atoi header = Some n ->
              parseRetryAfter now header = now + Int64.mul n Second)
        /\ (forall t, header <> ""%string -> Atoi header = None ->
              ParseTime header = Some t -> parseRetryAfter now header = t)
        /\ (Atoi header = None -> ParseTime header = None ->
              parseRetryAfter now header = zeroTime)).
Proof.
  assert (exists evs, (fetch w).1 = evs /\ events_ok w 0 5 evs (fetch w).2)
    as (evs & -> & (m & Hm & Hreq) & Hre & Hpa & Hpre & Hfatal).
  { unfold fetch. destruct (new_request w) as [e|].
    - exists []. split; [reflexivity|]. unfold events_ok.
      split; [exists 0%nat; split; [lia | reflexivity]|].
      repeat split; intros; match goal with H : _ ∈ [] |- _ => inversion H end.
    - destruct (attempts w 5 0 zeroTime [] []) as [tr res] eqn:Hrun.
      destruct (attempts_events w 5 0 [] [] tr res Hrun) as (evs & -> & Hok).
      exists evs. split; [reflexivity | exact Hok]. }
  split; [rewrite Hreq, length_seq; lia|].
  split; [intros k Hk; split; [apply Hre; [easy | lia] | now apply Hpre]|].
  split; [exact Hfatal|].
  split.
  { intros j p Hj. destruct (Hpa j p Hj) as (_ & k & -> & ->).
    exists k. split; [reflexivity | apply pause_carried]. }
  split; [exact backoff_seconds|].
  intros now header. unfold TileFetcher.parseRetryAfter. repeat split.
  - intros ->. reflexivity.
  - intros n Hne Hn. now rewrite decide_False, Hn.
  - intros t Hne Hn Ht. now rewrite decide_False, Hn, Ht.
  - intros Hn Ht. case_decide; [reflexivity|]. now rewrite Hn, Ht.
Qed.

End Facts.

(** An [Atoi] and a [ParseTime] for the example below: the header ["3"] is
    the integer three, and nothing is a date. *)
Definition atoi3 (s : string) : option Z :=
  if decide (s = "3"%string) then Some 3 else None.
Definition no_date (s : string) : option Time := None.

(** The first attempt gets a 200 response that carries [Retry-After: 3]
    and whose body cannot be read; the second succeeds. *)
Definition body_lost : env unit :=
  mkEnv None
    (fun j => match j with
              | O => Response 200 "3" (inl tt)
              | _ => Response 200 "" (inr [Byte.x61])
              end)
    (fun _ => 1000 * Second)
    (fun _ => false).

Example body_lost_run :
  fetch atoi3 no_date body_lost
  = ([Requested 0; Retrying 1 (For Second); Requested 1], inr [Byte.x61]).
Proof. reflexivity. Qed.

(** C6, as the claim has it, fails: the most recent response carried a
    parseable [Retry-After], and yet the pause is the default second. *)
Lemma retry_after_of_200_ignored :
  ~ (forall j p, Retrying j p ∈ (fetch atoi3 no_date body_lost).1 ->
                 p = claimed_pause atoi3 no_date body_lost j).
Proof.
  intros H. specialize (H 1%nat (For Second)).
  assert (Retrying 1 (For Second) ∈ (fetch atoi3 no_date body_lost).1) as Hin.
  { rewrite body_lost_run. simpl. right. left. }
  apply H in Hin. vm_compute in Hin. discriminate.
Qed.

(** Four 503 answers and then a 200: the request succeeds at the fifth
    attempt after pauses of 1, 5, 25 and 125 seconds; a [Retry-After: 3] on
    the way replaces the pause that follows it. *)
Example four_503_then_200 :
  fetch atoi3 no_date
    (mkEnv (E := unit) None
       (fun j => if decide (j < 4)%nat then Response 503 "" (inr [])
                 else Response 200 "" (inr [Byte.x61]))
       (fun _ => 0) (fun _ => false))
  = ([Requested 0; Retrying 1 (For (1 * Second)); Requested 1;
      Retrying 2 (For (5 * Second)); Requested 2;
      Retrying 3 (For (25 * Second)); Requested 3;
      Retrying 4 (For (125 * Second)); Requested 4], inr [Byte.x61]).
Proof. reflexivity. Qed.

Example retry_after_3_on_429 :
  fetch atoi3 no_date
    (mkEnv (E := unit) None
       (fun j => if decide (j < 1)%nat then Response 429 "3" (inr [])
                 else Response 404 "" (inr []))
       (fun _ => 1000 * Second) (fun _ => false))
  = ([Requested 0; Retrying 1 (Until (1003 * Second)); Requested 1],
     inl (FatalStatus 404)).
Proof. reflexivity. Qed.

End TileFetcherFacts.

(** ** The streaming engine *)

Module Client.

(** The errors [Client.Entries] stores in [c.err]: those it passes on from
    the context, the tile reader and the hash reader, and those it makes
    itself, with the number their message carries. *)
Inductive error (E : Type) : Type :=
| ContextErr (e : E)
| ReadTilesErr (e : E)
| ReadHashesErr (e : E)
| EndOfTileData (tile : Z)
| CutFailed (i : Z) (e : E)
| HashMismatch (i : Z)
| LeftoverData (tile : Z).
Arguments ContextErr {E}.
Arguments ReadTilesErr {E}.
Arguments ReadHashesErr {E}.
Arguments EndOfTileData {E}.
Arguments CutFailed {E}.
Arguments HashMismatch {E}.
Arguments LeftoverData {E}.

(** [Client] *)
Record t (R Hash E : Type) : Type := mk {
  tr : R;
  cut : bytes -> bytes * Hash * bytes * option E;
  timeout : Z;
  err : option (error E)
}.
Arguments mk {R Hash E}.
Arguments tr {R Hash E}.
Arguments cut {R Hash E}.
Arguments timeout {R Hash E}.
Arguments err {R Hash E}.

(** [Client.Err] *)
Definition Err {R Hash E} (c : t R Hash E) : option (error E) := err c.

(** What [Entries] itself does that can be seen from outside, in order:
    its calls to [c.tr.ReadTiles], to the hash reader, to [cut], to [yield]
    and to [c.tr.SaveTiles].  The hash reader is given [c.tr] and reads and
    saves hash tiles through it; those calls happen inside [ReadHashes],
    change the reader's state there, and are not events of this trace. *)
Inductive event (Hash E : Type) : Type :=
| EvReadTiles (tiles : list Tile) (res : E + list bytes)
| EvReadHashes (tree : Tree Hash) (indexes : list Z) (res : E + list Hash)
| EvCut (data : bytes)
| EvYield (i : Z) (entry : bytes)
| EvSaveTiles (tiles : list Tile) (data : list bytes).
Arguments EvReadTiles {Hash E}.
Arguments EvReadHashes {Hash E}.
Arguments EvCut {Hash E}.
Arguments EvYield {Hash E}.
Arguments EvSaveTiles {Hash E}.

(** The pairs handed to [yield], in order. *)
Definition yields {Hash E} (trace : list (event Hash E)) : list (Z * bytes) :=
  omap (fun ev => match ev with EvYield i entry => Some (i, entry) | _ => None end)
    trace.

(** The arguments [cut] was called with, in order. *)
Definition cuts {Hash E} (trace : list (event Hash E)) : list bytes :=
  omap (fun ev => match ev with EvCut data => Some data | _ => None end) trace.

(** The environment of one iteration: what [ctx.Err()] returns at the
    n-th time it is asked, and what [yield] returns given the pairs handed
    over so far, the current one included ([false] when the consumer
    leaves its loop). *)
Record env (E : Type) : Type := mkEnv {
  ctx_err : nat -> option E;
  accept : list (Z * bytes) -> bool
}.
Arguments mkEnv {E}.
Arguments ctx_err {E}.
Arguments accept {E}.

(** The state an iteration threads: the client (its reader and [c.err]),
    how often the context was asked, and the trace. *)
Record state (R Hash E : Type) : Type := mkState {
  client : t R Hash E;
  asked : nat;
  trace : list (event Hash E)
}.
Arguments mkState {R Hash E}.
Arguments client {R Hash E}.
Arguments asked {R Hash E}.
Arguments trace {R Hash E}.

(** Why the iterator function returned. *)
Inductive reason : Type :=
| Completed   (* [return] at the end of the range *)
| Failed      (* [return] after [c.err = ...] *)
| Broke       (* [yield] returned false *)
| Panicked    (* index out of range *)
| OutOfFuel.  (* the model's bound on the outer loop was reached *)

#[global] Instance reason_eq_dec : EqDecision reason.
Proof. solve_decision. Defined.

(** Why, and at which entry index, the iterator function returned. *)
Record stop : Type := mkStop { why : reason; at_index : Z }.

Section Methods.
Context {R Hash E : Type} `{!EqDecision Hash} `{!TileReaderWithContext R E}.
(** [tlog.StoredHashIndex] *)
Variable StoredHashIndex : Z -> Z -> Z.
(** [TileHashReaderWithContext(ctx, tree, c.tr).ReadHashes(indexes)]: the
    hash reader authenticates against [tree] and reads, and saves, its
    tiles through the client's reader, whose state it returns. *)
Variable ReadHashes : Tree Hash -> list Z -> R -> (E + list Hash) * R.

Definition set_reader (r : R) (s : state R Hash E) : state R Hash E :=
  mkState (mk r (cut (client s)) (timeout (client s)) (err (client s)))
    (asked s) (trace s).

(** [c.err = e] *)
Definition set_err (e : option (error E)) (s : state R Hash E) : state R Hash E :=
  mkState (mk (tr (client s)) (cut (client s)) (timeout (client s)) e)
    (asked s) (trace s).

Definition record (ev : event Hash E) (s : state R Hash E) : state R Hash E :=
  mkState (client s) (asked s) (trace s ++ [ev]).

(** [ctx.Err()] *)
Definition ask (w : env E) (s : state R Hash E) : option E * state R Hash E :=
  (ctx_err w (asked s), mkState (client s) (S (asked s)) (trace s)).

(** [c.err = e; return] *)
Definition fail {A} (e : error E) (i : Z) (s : state R Hash E)
  : state R Hash E * (stop + A) :=
  (set_err (Some e) s, inl (mkStop Failed i)).

(** The loop that lists the data tiles of a batch, with [n] iterations
    left and loop variable [i]. *)
Fixpoint build_tiles (n : nat) (i : Z) (base top : Z) : list Tile :=
  match n with
  | O => []
  | S n' =>
      let tileStart := Int64.add base (Int64.mul i TileWidth) in
      if decide (tileStart >= top) then []
      else
        let tileEnd := Int64.add tileStart TileWidth in
        let tileEnd := if decide (tileEnd > top) then top else tileEnd in
        mkTile TileHeight (-1) (Int64.div tileStart TileWidth)
          (Int64.sub tileEnd tileStart)
        :: build_tiles n' (i + 1) base top
  end.

(** The stored-hash indexes of the leaves of the batch. *)
Definition leaf_indexes (tiles : list Tile) : list Z :=
  tl ← tiles;
  (fun i => StoredHashIndex 0 (Int64.add (Int64.mul (tN tl) TileWidth) i))
    <$> seqZ 0 (tW tl).

(** The loop over the entries of one tile, [for i := tileStart; i <
    tileEnd; i++], with [n = tileEnd - i] iterations left.  It ends with a
    stop or with the data left after the tile's entries. *)
Fixpoint entries_loop (w : env E) (n : nat) (i : Z) (tile base start : Z)
    (hashes : list Hash) (data : bytes) (s : state R Hash E)
  : state R Hash E * (stop + bytes) :=
  match n with
  | O => (s, inr data)
  | S n' =>
      match ask w s with
      | (Some e, s) => fail (ContextErr e) i s
      | (None, s) =>
          if decide (len data = 0) then fail (EndOfTileData tile) i s
          else
            let '(entry, rh, rest, cut_err) := cut (client s) data in
            let s := record (EvCut data) s in
            match cut_err with
            | Some e => fail (CutFailed i e) i s
            | None =>
                match index hashes (Int64.sub i base) with
                | None => (s, inl (mkStop Panicked i))
                | Some h =>
                    if decide (rh <> h) then fail (HashMismatch i) i s
                    else if decide (i < start)
                    then entries_loop w n' (Int64.add i 1) tile base start
                           hashes rest s
                    else
                      let s := record (EvYield i entry) s in
                      if accept w (yields (trace s))
                      then entries_loop w n' (Int64.add i 1) tile base start
                             hashes rest s
                      else (s, inl (mkStop Broke i))
                end
            end
      end
  end.

(** The loop over the tiles of a batch, [for ti, t := range tiles].  It
    ends with a stop or with the new value of [start]. *)
Fixpoint tiles_loop (w : env E) (tiles : list Tile) (ti : nat)
    (tdata : list bytes) (hashes : list Hash) (base start : Z)
    (s : state R Hash E) : state R Hash E * (stop + Z) :=
  match tiles with
  | [] => (s, inr start)
  | tl :: tiles' =>
      let tileStart := Int64.mul (tN tl) TileWidth in
      let tileEnd := Int64.add tileStart (tW tl) in
      match tdata !! ti with
      | None => (s, inl (mkStop Panicked tileStart))
      | Some data =>
          match entries_loop w (Z.to_nat (tileEnd - tileStart)) tileStart
                  (tN tl) base start hashes data s with
          | (s, inl st) => (s, inl st)
          | (s, inr rest) =>
              if decide (len rest <> 0)
              then fail (LeftoverData (tN tl)) tileEnd s
              else tiles_loop w tiles' (S ti) tdata hashes base tileEnd s
          end
      end
  end.

(** The second half of one turn of the outer loop, from the call to
    [ReadTiles] on: the tiles are read and authenticated, their entries cut,
    checked and yielded, and the batch is saved.  It ends with a stop or with
    the value of [start] for the next turn. *)
Definition read_batch (w : env E) (tree : Tree Hash) (tiles : list Tile)
    (base top start : Z) (s : state R Hash E)
  : state R Hash E * (stop + Z) :=
  let '(res, r) := tr_ReadTiles tiles (tr (client s)) in
  let s := record (EvReadTiles tiles res) (set_reader r s) in
  match res with
  | inl e => fail (ReadTilesErr e) start s
  | inr tdata =>
      let indexes := leaf_indexes tiles in
      let '(hres, r) := ReadHashes tree indexes (tr (client s)) in
      let s := record (EvReadHashes tree indexes hres) (set_reader r s) in
      match hres with
      | inl e => fail (ReadHashesErr e) start s
      | inr hashes =>
          match tiles_loop w tiles 0 tdata hashes base start s with
          | (s, inl st) => (s, inl st)
          | (s, inr start) =>
              let s := record (EvSaveTiles tiles tdata)
                         (set_reader (tr_SaveTiles tiles tdata
                                        (tr (client s))) s) in
              if decide (start = top)
              then (s, inl (mkStop Completed start))
              else (s, inr start)
          end
      end
  end.

(** [base] and [top] of a turn that begins at [start]. *)
Definition base_of (start : Z) : Z :=
  Int64.mul (Int64.div start TileWidth) TileWidth.

Definition top_of (tree : Tree Hash) (start : Z) : Z :=
  let top := Int64.mul (Int64.div (treeN tree) TileWidth) TileWidth in
  if decide (Int64.sub top (base_of start) = 0) then treeN tree else top.

(** One turn of the outer loop: a batch of at most 50 data tiles. *)
Definition batch (w : env E) (tree : Tree Hash) (start : Z)
    (s : state R Hash E) : state R Hash E * (stop + Z) :=
  match ask w s with
  | (Some e, s) => fail (ContextErr e) start s
  | (None, s) =>
      let base := base_of start in
      let top := top_of tree start in
      let tiles := build_tiles 50 0 base top in
      if decide (len tiles = 0) then (s, inl (mkStop Completed start))
      else read_batch w tree tiles base top start s
  end.

(** The outer loop [for { ... }], bounded by [fuel] turns. *)
Fixpoint loop (w : env E) (fuel : nat) (tree : Tree Hash) (start : Z)
    (s : state R Hash E) : state R Hash E * stop :=
  match fuel with
  | O => (s, mkStop OutOfFuel start)
  | S fuel' =>
      match batch w tree start s with
      | (s, inl st) => (s, st)
      | (s, inr start) => loop w fuel' tree start s
      end
  end.

(** The iterator function [Entries] returns, run on the client as it is
    when the consumer ranges over it. *)
Definition iterate (tree : Tree Hash) (start : Z) (w : env E) (fuel : nat)
    (c : t R Hash E) : state R Hash E * stop :=
  loop w fuel tree start (mkState c 0 []).

(** [Client.Entries]: the error is reset at the call; the loop runs when
    the result is ranged over. *)
Definition Entries (c : t R Hash E) (tree : Tree Hash) (start : Z)
  : t R Hash E
    * (env E -> nat -> t R Hash E -> state R Hash E * stop) :=
  (mk (tr c) (cut c) (timeout c) None, iterate tree start).

(** Turns of the outer loop that suffice for the range from [start] to
    the size of the tree. *)
Definition enough_fuel (tree : Tree Hash) (start : Z) : nat :=
  S (Z.to_nat (treeN tree - start)).

(** The spec's words: where the sequence ends. *)
Definition emitEnd (tree : Tree Hash) (start : Z) : Z :=
  let full := treeN tree / TileWidth * TileWidth in
  if decide (start >= full) then treeN tree else full.

End Methods.

Arguments build_tiles : simpl never.
Arguments leaf_indexes : simpl never.
Arguments read_batch : simpl never.
Arguments base_of : simpl never.
Arguments top_of : simpl never.

End Client.

(** A log for examples.  Entry [i] is the single byte [i mod 256] and its
    record hash is the entry itself; a data tile holds its entries one
    after the other; the stored-hash index of leaf [n] is taken to be [n].
    The reader counts its reads and keeps the batches saved to it. *)
Module Demo.

Definition byte_of (i : Z) : byte :=
  default Byte.x00 (Byte.of_N (Z.to_N (i mod 256))).

Record reader : Type := mkReader {
  reads : nat;
  saved : list (list Tile * list bytes)
}.

Definition tile_data (tl : Tile) : bytes :=
  byte_of <$> seqZ (tN tl * TileWidth) (tW tl).

#[global] Instance demo_reader : TileReaderWithContext reader unit := {|
  tr_ReadTiles := fun tiles r =>
    (inr (tile_data <$> tiles), mkReader (S (reads r)) (saved r));
  tr_SaveTiles := fun tiles data r =>
    mkReader (reads r) (saved r ++ [(tiles, data)])
|}.

Definition StoredHashIndex (level n : Z) : Z := n.

Definition ReadHashes (tree : Tree bytes) (indexes : list Z) (r : reader)
  : (unit + list bytes) * reader :=
  (inr ((fun n => [byte_of n]) <$> indexes), r).

Definition cut (data : bytes) : bytes * bytes * bytes * option unit :=
  (take 1 data, take 1 data, drop 1 data, None).

Definition client : Client.t reader bytes unit :=
  Client.mk (mkReader 0 []) cut 300 None.

(** A context that is never done and a consumer that never leaves. *)
Definition calm : Client.env unit := Client.mkEnv (fun _ => None) (fun _ => true).

(** The indexes yielded, the reason of the end, and [c.err], for a tree of
    [n] entries and a start. *)
Definition run (n start : Z) : list Z * Client.reason * option (Client.error unit) :=
  let tree := mkTree n ([] : bytes) in
  let r := Client.iterate StoredHashIndex ReadHashes tree start calm
             (Client.enough_fuel tree start) client in
  ((Client.yields (Client.trace r.1)).*1, Client.why r.2,
   Client.Err (Client.client r.1)).

End Demo.

(** The scenarios of the spec's table. *)
Example scenario_1 : Demo.run 256 0 = (seqZ 0 256, Client.Completed, None).
Proof. vm_compute. reflexivity. Qed.

Example scenario_2 : Demo.run 300 0 = (seqZ 0 256, Client.Completed, None).
Proof. vm_compute. reflexivity. Qed.

Example scenario_3 : Demo.run 300 256 = (seqZ 256 44, Client.Completed, None).
Proof. vm_compute. reflexivity. Qed.

Example scenario_4 : Demo.run 512 200 = (seqZ 200 312, Client.Completed, None).
Proof. vm_compute. reflexivity. Qed.

Example scenario_5 : Demo.run 0 0 = ([], Client.Completed, None).
Proof. vm_compute. reflexivity. Qed.

Example scenario_6 : Demo.run 256 100 = (seqZ 100 156, Client.Completed, None).
Proof. vm_compute. reflexivity. Qed.

(** *** Facts about the streaming engine *)

Module ClientFacts.
Import Client.

Section Basic.
Context {R Hash E : Type} `{!EqDecision Hash} `{!TileReaderWithContext R E}.
Variable StoredHashIndex : Z -> Z -> Z.
Variable ReadHashes : Tree Hash -> list Z -> R -> (E + list Hash) * R.

Abbreviation read_batch := (read_batch StoredHashIndex ReadHashes).
Abbreviation batch := (batch StoredHashIndex ReadHashes).
Abbreviation loop := (loop StoredHashIndex ReadHashes).
Abbreviation iterate := (iterate StoredHashIndex ReadHashes).
Abbreviation Entries := (Entries StoredHashIndex ReadHashes).

Lemma cuts_app (tr1 tr2 : list (event Hash E)) :
  cuts (tr1 ++ tr2) = cuts tr1 ++ cuts tr2.
Proof. apply omap_app. Qed.

Lemma yields_app (tr1 tr2 : list (event Hash E)) :
  yields (tr1 ++ tr2) = yields tr1 ++ yields tr2.
Proof. apply omap_app. Qed.

(** What every step keeps: the trace only grows, [cut] is only called on
    data that is not empty, the cut function stays, and [c.err] is
    written exactly by the steps that fail. *)
Definition basic (s s' : state R Hash E) (stopped : option stop) : Prop :=
  (exists evs, trace s' = trace s ++ evs
               /\ forall data, data ∈ cuts evs -> 1 <= len data)
  /\ cut (client s') = cut (client s)
  /\ match stopped with
     | Some st =>
         if decide (why st = Failed)
         then exists e, err (client s') = Some e
         else err (client s') = err (client s)
     | None => err (client s') = err (client s)
     end.

Definition stopped_of {A} (r : stop + A) : option stop :=
  match r with inl st => Some st | inr _ => None end.

Lemma basic_refl s : basic s s None.
Proof.
  split; [exists []; rewrite app_nil_r; split; [easy|]|easy].
  intros data Hin. inversion Hin.
Qed.

Lemma basic_trans s1 s2 s3 stopped :
  basic s1 s2 None -> basic s2 s3 stopped -> basic s1 s3 stopped.
Proof.
  intros ((evs1 & Ht1 & Hc1) & Hcut1 & He1) ((evs2 & Ht2 & Hc2) & Hcut2 & He2).
  split; [|split].
  - exists (evs1 ++ evs2). rewrite Ht2, Ht1, app_assoc. split; [easy|].
    intros data. rewrite cuts_app, elem_of_app. intros [?|?]; auto.
  - congruence.
  - destruct stopped as [st|]; [|congruence].
    destruct (decide (why st = Failed)); [easy | congruence].
Qed.

(** A step that touches neither the trace's cuts nor [c.err]. *)
Lemma basic_quiet s s' (stopped : option stop) evs :
  trace s' = trace s ++ evs -> cuts evs = [] ->
  cut (client s') = cut (client s) ->
  err (client s') = err (client s) ->
  match stopped with Some st => why st <> Failed | None => True end ->
  basic s s' stopped.
Proof.
  intros Ht Hc Hcut He Hst. split; [|split; [easy|]].
  - exists evs. split; [easy|]. rewrite Hc. intros data Hin. inversion Hin.
  - destruct stopped as [st|]; [|easy]. now rewrite decide_False.
Qed.

(** A step that fails. *)
Lemma basic_fail s s' (e : error E) i evs :
  trace s' = trace s ++ evs ->
  (forall data, data ∈ cuts evs -> 1 <= len data) ->
  cut (client s') = cut (client s) ->
  basic s (set_err (Some e) s') (Some (mkStop Failed i)).
Proof.
  intros Ht Hc Hcut. split; [|split; [easy|]].
  - exists evs. easy.
  - simpl. eauto.
Qed.

Lemma entries_loop_basic (w : env E) (n : nat) :
  forall i tile base start hashes data (s : state R Hash E),
    let r := entries_loop w n i tile base start hashes data s in
    basic s r.1 (stopped_of r.2).
Proof.
  induction n as [|n IH]; intros i tile base start hashes data s; simpl.
  - apply basic_refl.
  - destruct (ctx_err w (asked s)) as [e|].
    { apply (basic_fail s _ _ _ []); [now rewrite app_nil_r | | easy].
      intros d Hd. inversion Hd. }
    destruct (decide (len data = 0)) as [Hlen|Hlen].
    { apply (basic_fail s _ _ _ []); [now rewrite app_nil_r | | easy].
      intros d Hd. inversion Hd. }
    simpl.
    destruct (cut (client s) data) as [[[entry rh] rest] cut_err] eqn:Hcut.
    assert (Hcuts : forall d, d ∈ cuts [EvCut (Hash := Hash) (E := E) data]
                              -> 1 <= len d).
    { intros d Hd. apply list_elem_of_singleton in Hd as ->.
      unfold len in *. lia. }
    destruct cut_err as [e|].
    { now apply (basic_fail s _ _ _ [EvCut data]). }
    destruct (index hashes (Int64.sub i base)) as [h|].
    2:{ split; [|easy]. exists [EvCut data]. easy. }
    destruct (decide (rh <> h)).
    { now apply (basic_fail s _ _ _ [EvCut data]). }
    assert (basic s
              (record (EvCut data) (mkState (client s) (S (asked s)) (trace s)))
              None) as Hcutstep.
    { split; [|easy]. exists [EvCut data]. easy. }
    destruct (decide (i < start)).
    { eapply basic_trans; [exact Hcutstep | apply IH]. }
    simpl.
    destruct (accept w _).
    + eapply basic_trans; [|apply IH].
      eapply basic_trans; [exact Hcutstep|].
      now apply (basic_quiet _ _ None [EvYield i entry]).
    + eapply basic_trans; [exact Hcutstep|].
      now apply (basic_quiet _ _ _ [EvYield i entry]).
Qed.

Lemma tiles_loop_basic (w : env E) (tiles : list Tile) :
  forall ti tdata hashes base start (s : state R Hash E),
    let r := tiles_loop w tiles ti tdata hashes base start s in
    basic s r.1 (stopped_of r.2).
Proof.
  induction tiles as [|tl tiles IH]; intros ti tdata hashes base start s; simpl.
  - apply basic_refl.
  - destruct (tdata !! ti) as [data|]; [|now apply (basic_quiet _ _ _ []);
                                          rewrite ?app_nil_r].
    pose proof (entries_loop_basic w
                  (Z.to_nat (Int64.add (Int64.mul (tN tl) TileWidth) (tW tl)
                             - Int64.mul (tN tl) TileWidth))
                  (Int64.mul (tN tl) TileWidth) (tN tl) base start hashes data s)
      as Hent.
    simpl in Hent.
    destruct (entries_loop w _ _ _ _ _ _ _ _) as [s1 [st|rest]]; simpl in *;
      [exact Hent|].
    destruct (decide (len rest <> 0)).
    + eapply basic_trans; [exact Hent|].
      apply (basic_fail s1 s1 _ _ []); [now rewrite app_nil_r | | easy].
      intros d Hd. inversion Hd.
    + eapply basic_trans; [exact Hent | apply IH].
Qed.

Lemma read_batch_basic (w : env E) tree tiles base top start
    (s : state R Hash E) :
  let r := read_batch w tree tiles base top start s in
  basic s r.1 (stopped_of r.2).
Proof.
  unfold Client.read_batch. simpl.
  destruct (tr_ReadTiles _ _) as [res r1]. simpl.
  destruct res as [e|tdata].
  { eapply basic_fail; [simpl; reflexivity | | easy].
    intros d Hd. inversion Hd. }
  destruct (ReadHashes _ _ _) as [hres r2]. simpl.
  destruct hres as [e|hashes]; simpl.
  { eapply basic_fail; [simpl; rewrite <- app_assoc; reflexivity | | easy].
    intros d Hd. inversion Hd. }
  match goal with
  | |- context [tiles_loop w tiles 0 tdata hashes base start ?s0] =>
      pose proof (tiles_loop_basic w tiles 0%nat tdata hashes base start s0) as Hloop;
      assert (basic s s0 None) as Hpre
  end.
  { eapply (basic_quiet _ _ None);
      [simpl; rewrite <- app_assoc; reflexivity | easy..]. }
  simpl in Hloop.
  destruct (tiles_loop w _ _ _ _ _ _ _) as [s1 [st|start']]; simpl in *.
  { eapply basic_trans; eauto. }
  eapply basic_trans; [exact Hpre|]. eapply basic_trans; [exact Hloop|].
  destruct (decide (start' = top)); simpl.
  - eapply basic_quiet; [simpl; reflexivity | easy..].
  - eapply basic_quiet; [simpl; reflexivity | easy..].
Qed.

Lemma batch_basic (w : env E) tree start (s : state R Hash E) :
  let r := batch w tree start s in
  basic s r.1 (stopped_of r.2).
Proof.
  unfold Client.batch, ask. cbv beta iota zeta.
  destruct (ctx_err w (asked s)) as [e|].
  { apply (basic_fail s _ _ _ []); [now rewrite app_nil_r | | easy].
    intros d Hd. inversion Hd. }
  destruct (decide (len _ = 0)).
  { now apply (basic_quiet _ _ _ []); rewrite ?app_nil_r. }
  eapply basic_trans; [|apply read_batch_basic].
  now apply (basic_quiet _ _ None []); rewrite ?app_nil_r.
Qed.

Lemma loop_basic (w : env E) (fuel : nat) : forall tree start (s : state R Hash E),
  let r := loop w fuel tree start s in
  basic s r.1 (Some r.2).
Proof.
  induction fuel as [|fuel IH]; intros tree start s; simpl.
  - now apply (basic_quiet _ _ _ []); rewrite ?app_nil_r.
  - pose proof (batch_basic w tree start s) as Hb. simpl in Hb.
    destruct (batch w tree start s) as [s1 [st|start']]; simpl in *;
      [exact Hb|].
    eapply basic_trans; [exact Hb | apply IH].
Qed.

(** C8. In every call [Client.Entries] makes to the cut function the data
    passed has at least one byte: the loop stops with the end-of-tile-data
    error before it would cut an empty slice. *)
Theorem cut_never_called_on_empty (c c' : Client.t R Hash E) (tree : Tree Hash)
    (start : Z) (w : env E) (fuel : nat) (data : bytes) :
  data ∈ cuts (trace ((Entries c tree start).2 w fuel c').1) ->
  1 <= len data.
Proof.
  unfold Client.Entries, Client.iterate. simpl.
  destruct (loop_basic w fuel tree start (mkState c' 0 []))
    as ((evs & Htrace & Hcuts) & _).
  simpl in Htrace. rewrite Htrace. apply Hcuts.
Qed.

(** The iteration that [Entries] returns writes [c.err] exactly when it
    fails. *)
Lemma Entries_err_after (c : Client.t R Hash E) (tree : Tree Hash)
    (start : Z) (w : env E) (fuel : nat) :
  let r := (Entries c tree start).2 w fuel (Entries c tree start).1 in
  (why r.2 <> Failed -> Err (client r.1) = None)
  /\ (why r.2 = Failed -> exists e, Err (client r.1) = Some e).
Proof.
  unfold Client.Entries, Client.iterate, Err. simpl.
  destruct (loop_basic w fuel tree start
              (mkState (Client.mk (tr c) (cut c) (timeout c) None) 0 []))
    as (_ & _ & Herr).
  simpl in Herr. split.
  - intros Hok. now rewrite decide_False in Herr.
  - intros Hfailed. rewrite decide_True in Herr by assumption. exact Herr.
Qed.


End Basic.
End ClientFacts.

(** A run for C8: a tree of three entries; [cut] sees the three, two and
    one bytes that are left of the tile. *)
Example demo_cuts :
  Client.cuts (Client.trace ((Client.Entries Demo.StoredHashIndex Demo.ReadHashes Demo.client
                  (mkTree 3 []) 0).2 Demo.calm 4%nat Demo.client).1)
  = [[Byte.x00; Byte.x01; Byte.x02]; [Byte.x01; Byte.x02]; [Byte.x02]].
Proof. vm_compute. reflexivity. Qed.

Lemma cut_never_called_on_empty_witness :
  [Byte.x02] ∈ Client.cuts (Client.trace ((Client.Entries Demo.StoredHashIndex Demo.ReadHashes
                               Demo.client (mkTree 3 []) 0).2
                              Demo.calm 4%nat Demo.client).1)
  /\ 1 <= len [Byte.x02].
Proof.
  assert ([Byte.x02] ∈ Client.cuts (Client.trace ((Client.Entries Demo.StoredHashIndex
                                       Demo.ReadHashes Demo.client
                                       (mkTree 3 []) 0).2
                                      Demo.calm 4%nat Demo.client).1)) as Hin.
  { rewrite demo_cuts. right. right. left. }
  split; [exact Hin|].
  exact (ClientFacts.cut_never_called_on_empty Demo.StoredHashIndex
           Demo.ReadHashes Demo.client Demo.client (mkTree 3 []) 0 Demo.calm
           4%nat [Byte.x02] Hin).
Defined.

(** A context that is done whenever it is asked. *)
Definition done_ctx : Client.env unit :=
  Client.mkEnv (fun _ => Some tt) (fun _ => true).

(** C10, where the claim fails.  [Entries] is called twice on the client
    and the iterator of the second call, the most recent one, is ranged
    over first: it completes and [Err] is nil.  Then the iterator of the
    first call is ranged over, with a context that is done: it stores its
    error, and [Err] is not nil although the iteration of the most recent
    call did not fail. *)
Lemma earlier_iterator_overwrites_err :
  let tree := mkTree 3 ([] : bytes) in
  let call1 := Client.Entries Demo.StoredHashIndex Demo.ReadHashes Demo.client
                 tree 0 in
  let call2 := Client.Entries Demo.StoredHashIndex Demo.ReadHashes call1.1
                 tree 0 in
  let r2 := call2.2 Demo.calm 4%nat call2.1 in
  let r1 := call1.2 done_ctx 4%nat (Client.client r2.1) in
  Client.why r2.2 = Client.Completed
  /\ Client.Err (Client.client r2.1) = None
  /\ Client.Err (Client.client r1.1) = Some (Client.ContextErr tt)
  /\ ~ (Client.why r2.2 <> Client.Failed ->
        Client.Err (Client.client r1.1) = None).
Proof.
  vm_compute. repeat split; try reflexivity. intros H.
  specialize (H ltac:(discriminate)). discriminate.
Qed.

(** *** Arithmetic in range *)

Lemma TileWidth_eq : TileWidth = 256.
Proof. reflexivity. Qed.

Lemma wrap_in_range (z : Z) : Int64.in_range z -> Int64.wrap z = z.
Proof.
  unfold Int64.in_range, Int64.min_int, Int64.max_int, Int64.wrap. intros Hz.
  rewrite Z.mod_small; lia.
Qed.

Lemma wrap_range (z : Z) : Int64.in_range (Int64.wrap z).
Proof.
  unfold Int64.in_range, Int64.min_int, Int64.max_int, Int64.wrap.
  pose proof (Z.mod_pos_bound (z + 2 ^ 63) (2 ^ 64) ltac:(lia)). lia.
Qed.

Lemma add_in_range (a b : Z) : Int64.in_range (a + b) -> Int64.add a b = a + b.
Proof. apply wrap_in_range. Qed.

Lemma sub_in_range (a b : Z) : Int64.in_range (a - b) -> Int64.sub a b = a - b.
Proof. apply wrap_in_range. Qed.

Lemma mul_in_range (a b : Z) : Int64.in_range (a * b) -> Int64.mul a b = a * b.
Proof. apply wrap_in_range. Qed.

Lemma div_nonneg (a b : Z) :
  0 <= a <= Int64.max_int -> 0 < b -> Int64.div a b = a / b.
Proof.
  intros Ha Hb. unfold Int64.div. rewrite Z.quot_div_nonneg by lia.
  apply wrap_in_range. unfold Int64.in_range, Int64.min_int, Int64.max_int in *.
  pose proof (Z.div_pos a b ltac:(lia) Hb).
  pose proof (Z.div_le_upper_bound a b a Hb ltac:(nia)). lia.
Qed.

(** The bound under which the engine's arithmetic does not wrap: the tree,
    and one tile more, fit in an [int64]. *)
Definition fits (n : Z) : Prop := 0 <= n /\ n + TileWidth <= Int64.max_int.

Ltac int64 :=
  unfold fits, Int64.in_range, Int64.min_int, Int64.max_int in *;
  rewrite ?TileWidth_eq in *; lia.

(** *** The tiles of a batch *)

(** The tiles cover the entries from [b] up to [e], one tile after the
    other: each starts where the one before it ends. *)
Fixpoint covers (b : Z) (tiles : list Tile) (e : Z) : Prop :=
  match tiles with
  | [] => b = e
  | tl :: tiles' =>
      tN tl * TileWidth = b /\ 0 < tW tl <= TileWidth
      /\ covers (b + tW tl) tiles' e
  end.

Lemma covers_le b tiles e : covers b tiles e -> b <= e.
Proof.
  revert b. induction tiles as [|tl tiles IH]; simpl; intros b H; [lia|].
  destruct H as (_ & ? & H). apply IH in H. lia.
Qed.

Lemma covers_lt b tl tiles e : covers b (tl :: tiles) e -> b < e.
Proof. simpl. intros (_ & ? & H). apply covers_le in H. lia. Qed.

Lemma covers_app b tiles1 m tiles2 e :
  covers b tiles1 m -> covers m tiles2 e -> covers b (tiles1 ++ tiles2) e.
Proof.
  revert b. induction tiles1 as [|tl tiles1 IH]; simpl; intros b H1 H2.
  - now subst.
  - destruct H1 as (? & ? & H1). auto.
Qed.

(** The end of the range [build_tiles] covers from the entry [b]: the top,
    or [n] tiles further when that comes first. *)
Definition batch_end (n : nat) (b top : Z) : Z :=
  Z.max b (Z.min top (b + Z.of_nat n * TileWidth)).

Lemma build_tiles_S (n : nat) (i base top : Z) :
  Client.build_tiles (S n) i base top
  = let tileStart := Int64.add base (Int64.mul i TileWidth) in
    if decide (tileStart >= top) then []
    else
      let tileEnd := Int64.add tileStart TileWidth in
      let tileEnd := if decide (tileEnd > top) then top else tileEnd in
      mkTile TileHeight (-1) (Int64.div tileStart TileWidth)
        (Int64.sub tileEnd tileStart)
      :: Client.build_tiles n (i + 1) base top.
Proof. reflexivity. Qed.

Lemma build_tiles_covers (n : nat) : forall i base top,
  0 <= i -> 0 <= base -> base mod TileWidth = 0 ->
  base + i * TileWidth <= top + TileWidth -> fits top ->
  covers (base + i * TileWidth) (Client.build_tiles n i base top)
    (batch_end n (base + i * TileWidth) top).
Proof.
  induction n as [|n IH]; intros i base top Hi Hbase Hmod Hle Hfits;
    unfold batch_end.
  - change (Client.build_tiles 0 i base top) with (@nil Tile). simpl. int64.
  - rewrite build_tiles_S. cbv zeta.
    rewrite (mul_in_range i TileWidth) by int64.
    rewrite (add_in_range base (i * TileWidth)) by int64.
    specialize (IH (i + 1) base top ltac:(lia) Hbase Hmod).
    replace (base + (i + 1) * TileWidth) with (base + i * TileWidth + TileWidth)
      in IH by lia.
    assert (Hnext : forall m, base + i * TileWidth < top ->
                    Client.build_tiles m (i + 1) base top
                    = match m with
                      | O => []
                      | S _ =>
                          if decide (base + i * TileWidth + TileWidth >= top)
                          then []
                          else Client.build_tiles m (i + 1) base top
                      end).
    { intros [|m] Hlt; [reflexivity|]. case_decide as Hge; [|reflexivity].
      rewrite build_tiles_S. cbv zeta.
      rewrite (mul_in_range (i + 1) TileWidth) by int64.
      rewrite (add_in_range base ((i + 1) * TileWidth)) by int64.
      rewrite decide_True; [reflexivity | lia]. }
    assert (Hb : (base + i * TileWidth) mod TileWidth = 0).
    { rewrite Z.add_mod, Hmod, Z.mod_mul by int64.
      rewrite TileWidth_eq. reflexivity. }
    assert (Hb0 : 0 <= base + i * TileWidth) by int64.
    generalize dependent (base + i * TileWidth). intros b IH Hle Hnext Hb Hb0.
    destruct (decide (b >= top)) as [Hge|Hlt]; cbn [covers]; [int64|].
    rewrite (add_in_range b TileWidth) by int64.
    assert (Hdiv : Int64.div b TileWidth * TileWidth = b).
    { rewrite div_nonneg by int64.
      pose proof (Z.div_mod b TileWidth ltac:(int64)). lia. }
    destruct (decide (b + TileWidth > top)) as [Hpart|Hfull]; cbn [tN tW].
    + rewrite (sub_in_range top b) by int64.
      split; [exact Hdiv|]. split; [int64|].
      replace (b + (top - b)) with top by lia.
      rewrite Hnext by lia. destruct n; [simpl; int64|].
      rewrite decide_True by lia. simpl. int64.
    + rewrite (sub_in_range (b + TileWidth) b) by int64.
      replace (b + TileWidth - b) with TileWidth by lia.
      split; [exact Hdiv|]. split; [int64|].
      replace (Z.max b (Z.min top (b + Z.of_nat (S n) * TileWidth)))
        with (batch_end n (b + TileWidth) top).
      * apply IH; int64.
      * unfold batch_end. int64.
Qed.

Section Indexes.
Variable StoredHashIndex : Z -> Z -> Z.

Lemma leaf_indexes_cons tl tiles :
  Client.leaf_indexes StoredHashIndex (tl :: tiles)
  = ((fun i => StoredHashIndex 0 (Int64.add (Int64.mul (tN tl) TileWidth) i))
       <$> seqZ 0 (tW tl))
    ++ Client.leaf_indexes StoredHashIndex tiles.
Proof. reflexivity. Qed.

(** The stored-hash indexes of a batch are those of its entries in
    order. *)
Lemma leaf_indexes_covers tiles : forall b e,
  covers b tiles e -> 0 <= b -> e <= Int64.max_int ->
  Client.leaf_indexes StoredHashIndex tiles
  = StoredHashIndex 0 <$> seqZ b (e - b).
Proof.
  induction tiles as [|tl tiles IH]; intros b e Hcov Hb He.
  - simpl in Hcov. subst. now rewrite Z.sub_diag.
  - destruct Hcov as (HN & HW & Hcov).
    pose proof (covers_le _ _ _ Hcov) as Hle.
    rewrite leaf_indexes_cons, (IH (b + tW tl) e Hcov) by lia.
    rewrite mul_in_range by int64. rewrite HN.
    replace (e - b) with (tW tl + (e - (b + tW tl))) by lia.
    rewrite seqZ_app, fmap_app by lia. f_equal.
    replace (seqZ b (tW tl)) with (seqZ (b + 0) (tW tl)) by (f_equal; lia).
    rewrite <- (fmap_add_seqZ b 0), <- list_fmap_compose.
    apply list_fmap_ext. intros k x Hx. simpl.
    apply lookup_seqZ in Hx as [-> Hk].
    rewrite add_in_range; [reflexivity | int64].
Qed.

Lemma index_fmap_seqZ {A} (f : Z -> A) (b n i : Z) :
  b <= i < b + n -> index (f <$> seqZ b n) (i - b) = Some (f i).
Proof.
  intros Hi. unfold index. rewrite decide_True by lia.
  rewrite list_lookup_fmap, lookup_seqZ_lt by lia. simpl. f_equal. f_equal. lia.
Qed.

End Indexes.

(** *** The bounds of a batch, in range *)

Lemma base_of_eq (start : Z) :
  0 <= start <= Int64.max_int ->
  Client.base_of start = start / TileWidth * TileWidth.
Proof.
  intros Hs. unfold Client.base_of.
  rewrite div_nonneg by int64. apply mul_in_range.
  pose proof (Z.div_mod start TileWidth ltac:(int64)).
  pose proof (Z.mod_pos_bound start TileWidth ltac:(int64)). int64.
Qed.

Lemma top_of_eq {Hash} (tree : Tree Hash) (start : Z) :
  fits (treeN tree) -> 0 <= start <= treeN tree ->
  Client.top_of tree start = Client.emitEnd tree start.
Proof.
  intros Hfits Hs. unfold Client.top_of, Client.emitEnd.
  rewrite base_of_eq by int64.
  rewrite div_nonneg by int64.
  assert (Hfull : Int64.mul (treeN tree / TileWidth) TileWidth
                  = treeN tree / TileWidth * TileWidth).
  { apply mul_in_range.
    pose proof (Z.div_mod (treeN tree) TileWidth ltac:(int64)).
    pose proof (Z.mod_pos_bound (treeN tree) TileWidth ltac:(int64)). int64. }
  rewrite Hfull.
  pose proof (Z.div_mod (treeN tree) TileWidth ltac:(int64)).
  pose proof (Z.mod_pos_bound (treeN tree) TileWidth ltac:(int64)).
  pose proof (Z.div_mod start TileWidth ltac:(int64)).
  pose proof (Z.mod_pos_bound start TileWidth ltac:(int64)).
  pose proof (Z.div_le_mono start (treeN tree) TileWidth ltac:(int64) ltac:(lia)).
  rewrite sub_in_range by int64.
  repeat case_decide; int64.
Qed.

Lemma emitEnd_bounds {Hash} (tree : Tree Hash) (start : Z) :
  0 <= start <= treeN tree ->
  start <= Client.emitEnd tree start <= treeN tree.
Proof.
  intros Hs. unfold Client.emitEnd.
  pose proof (Z.div_mod (treeN tree) TileWidth ltac:(int64)).
  pose proof (Z.mod_pos_bound (treeN tree) TileWidth ltac:(int64)).
  case_decide; int64.
Qed.

(** A turn that goes on leaves the end of the sequence where it was. *)
Lemma emitEnd_stable {Hash} (tree : Tree Hash) (start start' : Z) :
  0 <= start -> start < start' < Client.emitEnd tree start ->
  start' mod TileWidth = 0 ->
  Client.emitEnd tree start' = Client.emitEnd tree start.
Proof.
  unfold Client.emitEnd. intros Hs Hlt Hmod.
  pose proof (Z.div_mod (treeN tree) TileWidth ltac:(int64)).
  pose proof (Z.mod_pos_bound (treeN tree) TileWidth ltac:(int64)).
  pose proof (Z.div_mod start' TileWidth ltac:(int64)).
  repeat case_decide; int64.
Qed.

(** The first tile of a batch ends at the next tile boundary, or at the
    top when that comes first. *)
Lemma build_tiles_head (n : nat) (base top : Z) :
  0 <= base < top -> fits top ->
  exists rest,
    Client.build_tiles (S n) 0 base top
    = mkTile TileHeight (-1) (Int64.div base TileWidth)
        (Z.min TileWidth (top - base)) :: rest.
Proof.
  intros Hb Hfits. rewrite build_tiles_S. cbv zeta.
  rewrite (mul_in_range 0 TileWidth) by int64.
  rewrite (add_in_range base (0 * TileWidth)) by int64.
  replace (base + 0 * TileWidth) with base by lia.
  rewrite decide_False by lia.
  rewrite (add_in_range base TileWidth) by int64.
  eexists. f_equal. f_equal.
  case_decide; rewrite sub_in_range by int64; lia.
Qed.

(** *** Authentication and contiguity *)

Module ClientProgress.
Import Client.

Section Progress.
Context {R Hash E : Type} `{!EqDecision Hash} `{!TileReaderWithContext R E}.
Variable StoredHashIndex : Z -> Z -> Z.
Variable ReadHashes : Tree Hash -> list Z -> R -> (E + list Hash) * R.
Variable w : env E.
Variable tree : Tree Hash.

Abbreviation read_batch := (read_batch StoredHashIndex ReadHashes).
Abbreviation batch := (batch StoredHashIndex ReadHashes).
Abbreviation loop := (loop StoredHashIndex ReadHashes).
Abbreviation Entries := (Entries StoredHashIndex ReadHashes).

(** Every pair handed to [yield] was cut from tile data by the client's
    cut function, and the record hash of that cut is the hash the hash
    reader returned for the tree, earlier in the iteration, for the
    stored-hash index of the pair's entry index. *)
Definition authenticated (cutf : bytes -> bytes * Hash * bytes * option E)
    (tr : list (event Hash E)) : Prop :=
  forall n i entry, tr !! n = Some (EvYield i entry) ->
    exists data rh rest indexes hashes k m1 m2,
      (m1 < n)%nat /\ (m2 < n)%nat
      /\ tr !! m1 = Some (EvCut data)
      /\ cutf data = (entry, rh, rest, None)
      /\ tr !! m2 = Some (EvReadHashes tree indexes (inr hashes))
      /\ indexes !! k = Some (StoredHashIndex 0 i)
      /\ hashes !! k = Some rh.

(** The entry an error is about: the index in its message, or an index in
    the tile in its message. *)
Definition located (e : error E) (i : Z) : Prop :=
  match e with
  | CutFailed j _ | HashMismatch j => j = i
  | EndOfTileData tile => tile * TileWidth <= i < tile * TileWidth + TileWidth
  | LeftoverData tile => tile * TileWidth < i <= tile * TileWidth + TileWidth
  | ContextErr _ | ReadTilesErr _ | ReadHashesErr _ => True
  end.

(** The indexes yielded are those from [start0] up to, not including,
    [i]. *)
Definition yielded_upto (start0 i : Z) (s : state R Hash E) : Prop :=
  (yields (trace s)).*1 = seqZ start0 (i - start0).

(** What holds when the iteration stops at [st]: the pairs yielded are
    those of the indexes from the start up to where it stopped, the one at
    which the consumer left included, and that one lies below [limit]; a
    failure is stored in [c.err] and is about the entry where the iteration
    stopped. *)
Definition outcome (start0 limit : Z) (s : state R Hash E) (st : stop) : Prop :=
  match why st with
  | Completed => yielded_upto start0 (at_index st) s
  | Failed =>
      yielded_upto start0 (at_index st) s
      /\ exists e, err (client s) = Some e /\ located e (at_index st)
  | Broke =>
      start0 <= at_index st < limit /\ yielded_upto start0 (at_index st + 1) s
  | Panicked => yielded_upto start0 (at_index st) s
  | OutOfFuel => False
  end.

Lemma outcome_mono start0 limit limit' (s : state R Hash E) st :
  outcome start0 limit s st -> limit <= limit' -> outcome start0 limit' s st.
Proof.
  unfold outcome. destruct (why st); try easy. intros [? ?] ?. split; [lia|easy].
Qed.

Lemma authenticated_quiet cutf tr evs :
  authenticated cutf tr -> yields evs = [] -> authenticated cutf (tr ++ evs).
Proof.
  intros Hauth Hq n i entry Hn.
  destruct (decide (n < length tr)%nat) as [Hlt|Hge].
  - rewrite lookup_app_l in Hn by easy.
    destruct (Hauth n i entry Hn)
      as (data & rh & rest & indexes & hashes & k & m1 & m2
          & H1 & H2 & Hc & Hcut & Hh & Hi & Hk).
    exists data, rh, rest, indexes, hashes, k, m1, m2.
    rewrite !lookup_app_l by lia. auto 10.
  - rewrite lookup_app_r in Hn by lia.
    assert ((i, entry) ∈ yields evs) as Hin.
    { unfold yields. apply list_elem_of_omap. exists (EvYield i entry).
      split; [|reflexivity]. eapply list_elem_of_lookup_2. exact Hn. }
    rewrite Hq in Hin. inversion Hin.
Qed.

Lemma authenticated_yield cutf tr i entry data rh rest indexes hashes k m1 m2 :
  authenticated cutf tr ->
  tr !! m1 = Some (EvCut data) -> cutf data = (entry, rh, rest, None) ->
  tr !! m2 = Some (EvReadHashes tree indexes (inr hashes)) ->
  indexes !! k = Some (StoredHashIndex 0 i) -> hashes !! k = Some rh ->
  authenticated cutf (tr ++ [EvYield i entry]).
Proof.
  intros Hauth Hc Hcut Hh Hi Hk n j entry' Hn.
  destruct (decide (n < length tr)%nat) as [Hlt|Hge].
  - rewrite lookup_app_l in Hn by easy.
    destruct (Hauth n j entry' Hn)
      as (data' & rh' & rest' & indexes' & hashes' & k' & m1' & m2'
          & H1 & H2 & Hc' & Hcut' & Hh' & Hi' & Hk').
    exists data', rh', rest', indexes', hashes', k', m1', m2'.
    rewrite !lookup_app_l by lia. auto 10.
  - rewrite lookup_app_r in Hn by lia.
    destruct (n - length tr)%nat as [|d] eqn:Hd; [|now destruct d].
    simpl in Hn. inversion Hn; subst j entry'.
    apply lookup_lt_Some in Hc as Hm1. apply lookup_lt_Some in Hh as Hm2.
    exists data, rh, rest, indexes, hashes, k, m1, m2.
    rewrite !lookup_app_l by lia.
    repeat split; try easy; lia.
Qed.

Lemma yielded_upto_skip start0 i (s : state R Hash E) :
  yielded_upto start0 i s -> i < start0 -> yielded_upto start0 (i + 1) s.
Proof.
  unfold yielded_upto. intros H Hi. rewrite H, !seqZ_nil by lia. reflexivity.
Qed.

Lemma yielded_upto_yield start0 i entry (s : state R Hash E) :
  yielded_upto start0 i s -> start0 <= i ->
  yielded_upto start0 (i + 1) (record (EvYield i entry) s).
Proof.
  unfold yielded_upto, record. simpl. intros H Hi.
  rewrite ClientFacts.yields_app, fmap_app, H. simpl.
  replace (i + 1 - start0) with ((i - start0) + 1) by lia.
  rewrite seqZ_app by lia. f_equal.
  replace (start0 + (i - start0)) with i by lia.
  rewrite seqZ_cons, seqZ_nil by lia. reflexivity.
Qed.

Lemma yielded_upto_trace start0 i (s s' : state R Hash E) evs :
  yielded_upto start0 i s -> trace s' = trace s ++ evs -> yields evs = [] ->
  yielded_upto start0 i s'.
Proof.
  unfold yielded_upto. intros H -> Hq.
  now rewrite ClientFacts.yields_app, Hq, app_nil_r.
Qed.

(** The loop over the entries of a tile, from entry [i] on. *)
Lemma entries_loop_progress (n : nat) :
  forall i tile base start start0 indexes hashes data (s : state R Hash E),
    0 <= base <= i -> i + Z.of_nat n <= Int64.max_int ->
    tile * TileWidth <= i -> i + Z.of_nat n <= tile * TileWidth + TileWidth ->
    (forall i', i <= i' -> i' < start <-> i' < start0) ->
    yielded_upto start0 i s ->
    authenticated (cut (client s)) (trace s) ->
    (exists m, trace s !! m = Some (EvReadHashes tree indexes (inr hashes))) ->
    (forall i', i <= i' < i + Z.of_nat n ->
                index indexes (i' - base) = Some (StoredHashIndex 0 i')) ->
    let r := entries_loop w n i tile base start hashes data s in
    authenticated (cut (client s)) (trace r.1)
    /\ match r.2 with
       | inr rest => yielded_upto start0 (i + Z.of_nat n) r.1
       | inl st => i <= at_index st < i + Z.of_nat n
                   /\ outcome start0 (i + Z.of_nat n) r.1 st
       end.
Proof.
  induction n as [|n IH];
    intros i tile base start start0 indexes hashes data s
      Hbase Hmax Htile Htile' Hskip Hupto Hauth [m Hm] Hidx.
  - simpl. split; [exact Hauth|]. now rewrite Z.add_0_r.
  - cbn [entries_loop]. unfold ask.
    destruct (ctx_err w (asked s)) as [e|].
    { simpl. split; [exact Hauth|]. split; [lia|]. split; [exact Hupto|].
      eexists. split; [reflexivity | exact I]. }
    destruct (decide (len data = 0)) as [Hlen|Hlen].
    { simpl. split; [exact Hauth|]. split; [lia|]. split; [exact Hupto|].
      eexists. split; [reflexivity|]. simpl. lia. }
    cbn [client].
    destruct (cut (client s) data) as [[[entry rh] rest] cut_err] eqn:Hcut.
    set (s1 := record (EvCut data) (mkState (client s) (S (asked s)) (trace s))).
    assert (Hauth1 : authenticated (cut (client s)) (trace s1))
      by (now apply authenticated_quiet).
    assert (Hupto1 : yielded_upto start0 i s1)
      by (now apply (yielded_upto_trace _ _ s _ [EvCut data])).
    assert (Hm1 : trace s1 !! m = Some (EvReadHashes tree indexes (inr hashes)))
      by (simpl; rewrite lookup_app_l; [easy | now apply lookup_lt_Some in Hm]).
    assert (Hc1 : trace s1 !! length (trace s) = Some (EvCut data))
      by (simpl; now rewrite list_lookup_middle).
    destruct cut_err as [e|].
    { simpl. split; [exact Hauth1|]. split; [lia|]. split; [exact Hupto1|].
      eexists. split; [reflexivity|]. reflexivity. }
    rewrite (sub_in_range i base) by int64.
    pose proof (Hidx i ltac:(lia)) as Hi.
    destruct (index hashes (i - base)) as [h|] eqn:Hh.
    2:{ simpl. split; [exact Hauth1|]. split; [lia | exact Hupto1]. }
    destruct (decide (rh <> h)) as [Hne|Heq].
    { simpl. split; [exact Hauth1|]. split; [lia|]. split; [exact Hupto1|].
      eexists. split; [reflexivity|]. reflexivity. }
    assert (rh = h) as <- by (destruct (decide (rh = h)); tauto).
    rewrite (add_in_range i 1) by int64.
    assert (Hnext : forall s2 : state R Hash E,
      cut (client s2) = cut (client s) ->
      yielded_upto start0 (i + 1) s2 ->
      authenticated (cut (client s)) (trace s2) ->
      trace s2 !! m = Some (EvReadHashes tree indexes (inr hashes)) ->
      let r := entries_loop w n (i + 1) tile base start hashes rest s2 in
      authenticated (cut (client s)) (trace r.1)
      /\ match r.2 with
         | inr rest => yielded_upto start0 (i + Z.of_nat (S n)) r.1
         | inl st => i <= at_index st < i + Z.of_nat (S n)
                     /\ outcome start0 (i + Z.of_nat (S n)) r.1 st
         end).
    { intros s2 Hcut2 Hupto2 Hauth2 Hm2.
      destruct (IH (i + 1) tile base start start0 indexes hashes rest s2)
        as [Ha Hr]; try lia; try easy.
      - intros i' Hi'. apply Hskip. lia.
      - now rewrite Hcut2.
      - eauto.
      - intros i' Hi'. apply Hidx. lia.
      - rewrite Hcut2 in Ha. split; [exact Ha|].
        destruct (entries_loop w n (i + 1) tile base start hashes rest s2)
          as [s3 [st|rest']]; cbn [fst snd] in *.
        + split; [lia|]. eapply outcome_mono; [apply Hr | lia].
        + now replace (i + Z.of_nat (S n)) with (i + 1 + Z.of_nat n) by lia. }
    destruct (decide (i < start)) as [Hlt|Hge].
    { apply Hnext; try easy.
      apply yielded_upto_skip; [easy|]. apply Hskip; lia. }
    assert (Hstart0 : start0 <= i).
    { destruct (decide (i < start0)) as [Hlt0|]; [|lia].
      apply Hskip in Hlt0; lia. }
    set (s2 := record (EvYield i entry) s1).
    assert (Hauth2 : authenticated (cut (client s)) (trace s2)).
    { unfold index in Hi, Hh.
      rewrite decide_True in Hi by lia. rewrite decide_True in Hh by lia.
      eapply authenticated_yield; eauto. }
    assert (Hupto2 : yielded_upto start0 (i + 1) s2)
      by (now apply yielded_upto_yield).
    destruct (accept w (yields (trace s2))).
    + apply Hnext; try easy.
      simpl. rewrite lookup_app_l; [easy | now apply lookup_lt_Some in Hm1].
    + cbn [fst snd]. split; [exact Hauth2|]. split; [cbn [at_index]; lia|].
      split; [cbn [at_index]; lia | exact Hupto2].
Qed.

Lemma basic_lookup (s s' : state R Hash E) stopped m ev :
  ClientFacts.basic s s' stopped -> trace s !! m = Some ev ->
  trace s' !! m = Some ev.
Proof.
  intros ((evs & -> & _) & _) Hm.
  rewrite lookup_app_l; [easy | now apply lookup_lt_Some in Hm].
Qed.

(** The loop over the tiles of a batch that cover the entries from [b] up
    to [e]. *)
Lemma tiles_loop_progress (tiles : list Tile) :
  forall ti tdata b e base start start0 indexes hashes (s : state R Hash E),
    covers b tiles e -> 0 <= base <= b -> e <= Int64.max_int ->
    (forall i', b <= i' -> i' < start <-> i' < start0) ->
    (forall tl tiles', tiles = tl :: tiles' -> start0 <= b + tW tl) ->
    yielded_upto start0 b s ->
    authenticated (cut (client s)) (trace s) ->
    (exists m, trace s !! m = Some (EvReadHashes tree indexes (inr hashes))) ->
    (forall i', b <= i' < e ->
                index indexes (i' - base) = Some (StoredHashIndex 0 i')) ->
    let r := tiles_loop w tiles ti tdata hashes base start s in
    authenticated (cut (client s)) (trace r.1)
    /\ match r.2 with
       | inr start' =>
           start' = match tiles with [] => start | _ :: _ => e end
           /\ yielded_upto start0 e r.1
       | inl st => b <= at_index st <= e /\ outcome start0 e r.1 st
       end.
Proof.
  induction tiles as [|tl tiles IH];
    intros ti tdata b e base start start0 indexes hashes s
      Hcov Hbase Hmax Hskip Hfirst Hupto Hauth [m Hm] Hidx.
  - simpl in *. subst e. auto.
  - destruct Hcov as (HN & HW & Hcov).
    pose proof (covers_le _ _ _ Hcov) as Hle.
    cbn [tiles_loop].
    rewrite (mul_in_range (tN tl) TileWidth) by int64. rewrite HN.
    rewrite (add_in_range b (tW tl)) by int64.
    destruct (tdata !! ti) as [data|].
    2:{ cbn [fst snd]. split; [exact Hauth|]. split; [cbn [at_index]; lia|].
        exact Hupto. }
    replace (b + tW tl - b) with (tW tl) by lia.
    pose proof (entries_loop_progress (Z.to_nat (tW tl)) b (tN tl) base start
                  start0 indexes hashes data s) as Hent.
    rewrite Z2Nat.id in Hent by lia.
    destruct Hent as [Hauth1 Hent]; try lia; try easy; eauto.
    { intros i' Hi'. apply Hidx. lia. }
    pose proof (ClientFacts.entries_loop_basic w (Z.to_nat (tW tl)) b (tN tl)
                  base start hashes data s) as Hbasic.
    cbv zeta in Hbasic.
    destruct (entries_loop w (Z.to_nat (tW tl)) b (tN tl) base start hashes
                data s) as [s1 [st|rest]]; cbn [fst snd] in *.
    { split; [exact Hauth1|]. split; [lia|].
      eapply outcome_mono; [apply Hent | lia]. }
    pose proof (proj1 (proj2 Hbasic)) as Hcut.
    destruct (decide (len rest <> 0)).
    { cbn [fst snd fail]. split; [exact Hauth1|]. split; [cbn [at_index]; lia|].
      split; [exact Hent|]. eexists. split; [reflexivity|]. simpl. lia. }
    destruct (IH (S ti) tdata (b + tW tl) e base (b + tW tl) start0 indexes
                hashes s1) as [Hauth2 Hres]; try lia; try easy.
    + intros i' Hi'. specialize (Hfirst tl tiles eq_refl). lia.
    + intros tl' tiles' ->. destruct Hcov as (_ & ? & _).
      specialize (Hfirst tl (tl' :: tiles') eq_refl). lia.
    + now rewrite Hcut.
    + exists m. eapply basic_lookup; [exact Hbasic | exact Hm].
    + intros i' Hi'. apply Hidx. lia.
    + rewrite Hcut in Hauth2. split; [exact Hauth2|].
      destruct (tiles_loop w tiles (S ti) tdata hashes base (b + tW tl) s1)
        as [s2 [st|start']]; cbn [fst snd] in *.
      * split; [lia | easy].
      * destruct Hres as [-> Hupto2]. split; [|exact Hupto2].
        destruct tiles; [simpl in Hcov; lia | reflexivity].
Qed.

(** The two inner loops never stop with [Completed]. *)
Lemma entries_loop_stop (n : nat) :
  forall i tile base start hashes data (s : state R Hash E) st,
    (entries_loop w n i tile base start hashes data s).2 = inl st ->
    why st <> Completed.
Proof.
  induction n as [|n IH]; intros i tile base start hashes data s st;
    cbn [entries_loop]; unfold ask, fail.
  - discriminate.
  - destruct (ctx_err w (asked s)); [intros [= <-]; discriminate|].
    destruct (decide (len data = 0)); [intros [= <-]; discriminate|].
    cbn [client].
    destruct (cut (client s) data) as [[[entry rh] rest] [e|]];
      [intros [= <-]; discriminate|].
    destruct (index hashes (Int64.sub i base)); [|intros [= <-]; discriminate].
    destruct (decide (rh <> h)); [intros [= <-]; discriminate|].
    destruct (decide (i < start)); [apply IH|].
    destruct (accept w _); [apply IH | intros [= <-]; discriminate].
Qed.

Lemma tiles_loop_stop (tiles : list Tile) :
  forall ti tdata hashes base start (s : state R Hash E) st,
    (tiles_loop w tiles ti tdata hashes base start s).2 = inl st ->
    why st <> Completed.
Proof.
  induction tiles as [|tl tiles IH]; intros ti tdata hashes base start s st;
    cbn [tiles_loop]; unfold fail.
  - discriminate.
  - destruct (tdata !! ti) as [data|]; [|intros [= <-]; discriminate].
    pose proof (entries_loop_stop
                  (Z.to_nat (Int64.add (Int64.mul (tN tl) TileWidth) (tW tl)
                             - Int64.mul (tN tl) TileWidth))
                  (Int64.mul (tN tl) TileWidth) (tN tl) base start hashes data s)
      as Hent.
    destruct (entries_loop w _ _ _ _ _ _ _ _) as [s1 [st1|rest]];
      cbn [fst snd] in *.
    + intros [= <-]. now apply Hent.
    + destruct (decide (len rest <> 0)); [intros [= <-]; discriminate|].
      apply IH.
Qed.

(** The second half of a turn, on tiles that cover the entries from
    [base] up to [e]. *)
Lemma read_batch_progress tiles base top e start start0 (s : state R Hash E) :
  covers base tiles e -> tiles <> [] ->
  0 <= base <= start -> e <= Int64.max_int ->
  start0 <= start -> start = start0 \/ start = base ->
  (forall tl tiles', tiles = tl :: tiles' -> start <= base + tW tl) ->
  yielded_upto start0 start s ->
  authenticated (cut (client s)) (trace s) ->
  let r := read_batch w tree tiles base top start s in
  authenticated (cut (client s)) (trace r.1)
  /\ match r.2 with
     | inr start' => start' = e /\ e <> top /\ yielded_upto start0 e r.1
     | inl st =>
         base <= at_index st <= e /\ outcome start0 e r.1 st
         /\ (why st = Completed -> at_index st = e /\ e = top)
     end.
Proof.
  intros Hcov Hne Hbase Hmax Hstart0 Hfirst Hhead Hupto Hauth.
  assert (Hse : start <= e).
  { destruct tiles as [|tl tiles']; [easy|].
    specialize (Hhead tl tiles' eq_refl). destruct Hcov as (_ & _ & Hcov).
    apply covers_le in Hcov. lia. }
  unfold Client.read_batch.
  destruct (tr_ReadTiles tiles (tr (client s))) as [res r1].
  set (s1 := record (EvReadTiles tiles res) (set_reader r1 s)).
  assert (Hauth1 : authenticated (cut (client s)) (trace s1))
    by (now apply authenticated_quiet).
  assert (Hupto1 : yielded_upto start0 start s1)
    by (now apply (yielded_upto_trace _ _ s _ [EvReadTiles tiles res])).
  destruct res as [e1|tdata].
  { cbn [fst snd fail]. split; [exact Hauth1|]. split; [cbn [at_index]; lia|].
    split; [|discriminate]. split; [exact Hupto1|].
    eexists. split; [reflexivity | exact I]. }
  destruct (ReadHashes tree (leaf_indexes StoredHashIndex tiles) (tr (client s1)))
    as [hres r2].
  set (indexes := leaf_indexes StoredHashIndex tiles) in *.
  set (s2 := record (EvReadHashes tree indexes hres) (set_reader r2 s1)).
  assert (Hauth2 : authenticated (cut (client s)) (trace s2))
    by (now apply authenticated_quiet).
  assert (Hupto2 : yielded_upto start0 start s2)
    by (now apply (yielded_upto_trace _ _ s1 _ [EvReadHashes tree indexes hres])).
  destruct hres as [e1|hashes].
  { cbn [fst snd fail]. split; [exact Hauth2|]. split; [cbn [at_index]; lia|].
    split; [|discriminate]. split; [exact Hupto2|].
    eexists. split; [reflexivity | exact I]. }
  assert (Hupto_base : yielded_upto start0 base s2).
  { destruct Hfirst as [-> | ->]; [|exact Hupto2].
    unfold yielded_upto in *. rewrite Hupto2, !seqZ_nil by lia. reflexivity. }
  pose proof (tiles_loop_progress tiles 0%nat tdata base e base start start0
                indexes hashes s2 Hcov ltac:(lia) Hmax) as Hloop.
  destruct Hloop as [Hauth3 Hloop]; try easy.
  { intros i' Hi'. destruct Hfirst as [-> | ->]; [tauto | lia]. }
  { intros tl tiles' Heq. specialize (Hhead tl tiles' Heq). lia. }
  { exists (length (trace s1)). unfold s2, record. cbn [trace].
    now rewrite list_lookup_middle. }
  { intros i' Hi'. unfold indexes.
    rewrite (leaf_indexes_covers StoredHashIndex tiles base e) by (easy || lia).
    apply index_fmap_seqZ. lia. }
  pose proof (tiles_loop_stop tiles 0%nat tdata hashes base start s2) as Hstop.
  destruct (tiles_loop w tiles 0 tdata hashes base start s2) as [s3 [st|start']];
    cbn [fst snd] in *.
  2: clear Hstop.
  1: specialize (Hstop st eq_refl).
  { split; [exact Hauth3|]. destruct Hloop as [Hat Hout].
    split; [exact Hat|]. split; [exact Hout|].
    intros Hwhy. now apply Hstop in Hwhy. }
  destruct Hloop as [-> Hupto3].
  replace (match tiles with [] => start | _ :: _ => e end) with e
    by (destruct tiles; easy).
  set (s4 := record (EvSaveTiles tiles tdata)
               (set_reader (tr_SaveTiles tiles tdata (tr (client s3))) s3)).
  assert (Hauth4 : authenticated (cut (client s)) (trace s4))
    by (now apply authenticated_quiet).
  assert (Hupto4 : yielded_upto start0 e s4)
    by (now apply (yielded_upto_trace _ _ s3 _ [EvSaveTiles tiles tdata])).
  destruct (decide (e = top)) as [Heq|Hneq]; cbn [fst snd].
  - split; [exact Hauth4|]. cbn [at_index]. split; [lia|]. split; [exact Hupto4|].
    auto.
  - auto.
Qed.

(** One turn of the outer loop. *)
Lemma batch_progress start start0 (s : state R Hash E) :
  fits (treeN tree) -> 0 <= start0 <= start -> start <= treeN tree ->
  start = start0 \/ start mod TileWidth = 0 ->
  yielded_upto start0 start s ->
  authenticated (cut (client s)) (trace s) ->
  let r := batch w tree start s in
  authenticated (cut (client s)) (trace r.1)
  /\ match r.2 with
     | inr start' =>
         start < start' < emitEnd tree start /\ start' mod TileWidth = 0
         /\ yielded_upto start0 start' r.1
     | inl st =>
         at_index st <= emitEnd tree start
         /\ outcome start0 (emitEnd tree start) r.1 st
         /\ (why st = Completed -> at_index st = emitEnd tree start)
     end.
Proof.
  intros Hfits Hstart0 HN Hfirst Hupto Hauth.
  pose proof (emitEnd_bounds tree start ltac:(lia)) as Hend.
  unfold Client.batch, ask.
  destruct (ctx_err w (asked s)) as [e|].
  { cbn [fst snd fail]. split; [exact Hauth|]. cbn [at_index].
    split; [lia|]. split; [|discriminate]. split; [exact Hupto|].
    eexists. split; [reflexivity | exact I]. }
  cbv zeta.
  rewrite top_of_eq by (easy || lia). rewrite base_of_eq by int64.
  set (base := start / TileWidth * TileWidth).
  set (top := emitEnd tree start) in *.
  assert (Hbase : 0 <= base <= start /\ start < base + TileWidth
                  /\ base mod TileWidth = 0).
  { subst base.
    pose proof (Z.div_mod start TileWidth ltac:(int64)).
    pose proof (Z.mod_pos_bound start TileWidth ltac:(int64)).
    rewrite Z.mod_mul by int64. int64. }
  destruct Hbase as (Hbase & Hnext & Hmod).
  pose proof (build_tiles_covers 50 0 base top ltac:(lia) ltac:(lia) Hmod
                ltac:(int64) ltac:(int64)) as Hcov.
  replace (base + 0 * TileWidth) with base in Hcov by lia.
  set (s0 := mkState (client s) (S (asked s)) (trace s)).
  destruct (decide (len (build_tiles 50 0 base top) = 0)) as [Hempty|Hsome].
  { cbn [fst snd at_index]. split; [exact Hauth|].
    assert (build_tiles 50 0 base top = []) as Hnil
      by (destruct (build_tiles 50 0 base top); [easy | discriminate]).
    rewrite Hnil in Hcov. simpl in Hcov. unfold batch_end in Hcov.
    assert (start = top) by int64.
    split; [lia|]. split; [exact Hupto | easy]. }
  assert (Hlt : base < top).
  { destruct (decide (base < top)) as [|Hge]; [easy|]. exfalso. apply Hsome.
    change 50%nat with (S 49). rewrite build_tiles_S. cbv zeta.
    rewrite (mul_in_range 0 TileWidth) by int64.
    rewrite (add_in_range base (0 * TileWidth)) by int64.
    now rewrite decide_True by lia. }
  destruct (build_tiles_head 49 base top ltac:(lia) ltac:(int64)) as [rest Hhead].
  change (S 49) with 50%nat in Hhead.
  assert (Hne : build_tiles 50 0 base top <> []) by (rewrite Hhead; discriminate).
  assert (Hmax : batch_end 50 base top <= Int64.max_int)
    by (unfold batch_end; int64).
  assert (Hfirst' : start = start0 \/ start = base).
  { destruct Hfirst as [-> | Hm]; [now left | right].
    subst base. pose proof (Z.div_mod start TileWidth ltac:(int64)). lia. }
  assert (Hhd : forall tl tiles', build_tiles 50 0 base top = tl :: tiles' ->
                                  start <= base + tW tl).
  { intros tl tiles' Heq. rewrite Hhead in Heq. inversion Heq; subst tl.
    cbn [tW]. lia. }
  pose proof (read_batch_progress (build_tiles 50 0 base top) base top
                (batch_end 50 base top) start start0 s0 Hcov Hne Hbase Hmax
                ltac:(lia) Hfirst' Hhd Hupto Hauth) as [Hauth1 Hread].
  split; [exact Hauth1|].
  destruct (read_batch w tree (build_tiles 50 0 base top) base top start s0)
    as [s1 [st|start']]; cbn [fst snd] in *.
  - destruct Hread as (Hat & Hout & Hcompleted).
    split; [unfold batch_end in Hat; int64|].
    split; [eapply outcome_mono; [exact Hout | unfold batch_end; int64]|].
    intros Hwhy. destruct (Hcompleted Hwhy) as [-> ->]. reflexivity.
  - destruct Hread as (-> & Hnt & Hupto1).
    unfold batch_end in *.
    assert (Z.max base (Z.min top (base + Z.of_nat 50 * TileWidth))
            = base + 50 * TileWidth) as Heq by int64.
    rewrite Heq in *. split; [int64|]. split; [|exact Hupto1].
    rewrite Z.add_mod, Hmod, Z.mod_mul by int64. rewrite TileWidth_eq. reflexivity.
Qed.

(** The outer loop, with fuel for the turns that are left. *)
Lemma loop_progress (fuel : nat) : forall start start0 (s : state R Hash E),
  fits (treeN tree) -> 0 <= start0 <= start -> start <= treeN tree ->
  start = start0 \/ start mod TileWidth = 0 ->
  emitEnd tree start = emitEnd tree start0 ->
  yielded_upto start0 start s ->
  authenticated (cut (client s)) (trace s) ->
  (Z.to_nat (treeN tree - start) < fuel)%nat ->
  let r := loop w fuel tree start s in
  authenticated (cut (client s)) (trace r.1)
  /\ at_index r.2 <= emitEnd tree start0
  /\ outcome start0 (emitEnd tree start0) r.1 r.2
  /\ (why r.2 = Completed -> at_index r.2 = emitEnd tree start0).
Proof.
  induction fuel as [|fuel IH];
    intros start start0 s Hfits Hstart0 HN Hfirst Hend Hupto Hauth Hfuel;
    [lia|].
  cbn [Client.loop].
  pose proof (batch_progress start start0 s Hfits Hstart0 HN Hfirst Hupto Hauth)
    as [Hauth1 Hbatch].
  pose proof (ClientFacts.batch_basic StoredHashIndex ReadHashes w tree start s)
    as Hbasic.
  cbv zeta in Hbasic.
  destruct (batch w tree start s) as [s1 [st|start']]; cbn [fst snd] in *.
  - rewrite Hend in Hbatch. destruct Hbatch as (? & ? & ?). auto.
  - destruct Hbatch as (Hlt & Hmod & Hupto1).
    pose proof (proj1 (proj2 Hbasic)) as Hcut.
    pose proof (emitEnd_bounds tree start ltac:(lia)) as Hb.
    assert (Hend' : emitEnd tree start' = emitEnd tree start0)
      by (rewrite <- Hend; apply emitEnd_stable; lia).
    assert (Hauth1' : authenticated (cut (client s1)) (trace s1))
      by (now rewrite Hcut).
    destruct (IH start' start0 s1 Hfits ltac:(lia) ltac:(lia)
                (or_intror Hmod) Hend' Hupto1 Hauth1' ltac:(lia))
      as (Hauth2 & Hrest).
    rewrite Hcut in Hauth2. auto.
Qed.

(** The iteration [Entries] returns, on the client [Entries] left. *)
Lemma Entries_progress (c : Client.t R Hash E) (start : Z) (fuel : nat) :
  fits (treeN tree) -> 0 <= start <= treeN tree ->
  (enough_fuel tree start <= fuel)%nat ->
  let r := (Entries c tree start).2 w fuel (Entries c tree start).1 in
  authenticated (cut c) (trace r.1)
  /\ at_index r.2 <= emitEnd tree start
  /\ outcome start (emitEnd tree start) r.1 r.2
  /\ (why r.2 = Completed -> at_index r.2 = emitEnd tree start).
Proof.
  intros Hfits Hstart Hfuel. unfold Client.Entries, Client.iterate.
  cbn [fst snd].
  assert (Hupto : yielded_upto start start
            (mkState (Client.mk (tr c) (cut c) (timeout c) None) 0 []))
    by (unfold yielded_upto; simpl; now rewrite Z.sub_diag).
  assert (Hauth : authenticated (cut c) (@nil (event Hash E)))
    by (intros n i entry Hn; now rewrite lookup_nil in Hn).
  unfold enough_fuel in Hfuel.
  exact (loop_progress fuel start start
           (mkState (Client.mk (tr c) (cut c) (timeout c) None) 0 [])
           Hfits ltac:(lia) ltac:(lia) (or_introl eq_refl) eq_refl Hupto Hauth
           ltac:(lia)).
Qed.


(** C2. With fuel for the range, the outer loop ends by itself.  The
    indexes yielded are always consecutive from [start] and stay below
    [emitEnd], the largest multiple of the tile width that is at most [N],
    or [N] itself when [start] is at or beyond that multiple.  A run without
    failure, in which the consumer does not leave the loop, yields exactly
    the indexes [start], ..., [emitEnd - 1] and leaves [Err] nil; nothing is
    yielded when [start = emitEnd], as for the empty tree. *)
Theorem Entries_contiguous (c : Client.t R Hash E) (start : Z) (fuel : nat) :
  fits (treeN tree) -> 0 <= start <= treeN tree ->
  (enough_fuel tree start <= fuel)%nat ->
  let r := (Entries c tree start).2 w fuel (Entries c tree start).1 in
  why r.2 <> OutOfFuel
  /\ (exists k, 0 <= k /\ start + k <= emitEnd tree start <= treeN tree
                /\ (yields (trace r.1)).*1 = seqZ start k)
  /\ (why r.2 = Completed ->
      (yields (trace r.1)).*1 = seqZ start (emitEnd tree start - start)
      /\ Err (client r.1) = None)
  /\ (start = emitEnd tree start -> yields (trace r.1) = []).
Proof.
  intros Hfits Hstart Hfuel.
  destruct (Entries_progress c start fuel Hfits Hstart Hfuel)
    as (_ & Hat & Hout & Hcompleted).
  pose proof (emitEnd_bounds tree start Hstart) as Hend.
  pose proof (ClientFacts.Entries_err_after StoredHashIndex ReadHashes c tree
                start w fuel) as (Hnil & _).
  cbv zeta in *.
  set (r := (Entries c tree start).2 w fuel (Entries c tree start).1) in *.
  assert (Hk : exists k, 0 <= k /\ start + k <= emitEnd tree start <= treeN tree
                         /\ (yields (trace r.1)).*1 = seqZ start k).
  { unfold outcome, yielded_upto in Hout.
    destruct (why r.2) eqn:Hwhy.
    - exists (emitEnd tree start - start). rewrite Hcompleted in Hout by easy.
      split; [lia|]. split; [lia | exact Hout].
    - destruct Hout as [Hout _].
      exists (Z.max 0 (at_index r.2 - start)). split; [lia|]. split; [lia|].
      rewrite Hout. destruct (decide (at_index r.2 - start <= 0)).
      + rewrite !seqZ_nil by lia. reflexivity.
      + f_equal. lia.
    - destruct Hout as [Hb Hout].
      exists (at_index r.2 + 1 - start). split; [lia|]. split; [lia | exact Hout].
    - exists (Z.max 0 (at_index r.2 - start)). split; [lia|]. split; [lia|].
      rewrite Hout. destruct (decide (at_index r.2 - start <= 0)).
      + rewrite !seqZ_nil by lia. reflexivity.
      + f_equal. lia.
    - easy. }
  split; [|split; [exact Hk|split]].
  - intros Hwhy. unfold outcome in Hout. now rewrite Hwhy in Hout.
  - intros Hwhy. split.
    + unfold outcome, yielded_upto in Hout. rewrite Hwhy in Hout.
      now rewrite Hcompleted in Hout.
    + apply Hnil. rewrite Hwhy. discriminate.
  - intros Heq. destruct Hk as (k & Hk0 & Hkle & Hyields).
    assert (k = 0) as -> by lia. rewrite seqZ_nil in Hyields by lia.
    now apply fmap_nil_inv in Hyields.
Qed.

End Progress.
End ClientProgress.

(** *** Runs of the streaming engine *)

Lemma fits_small (n : Z) : 0 <= n <= 1000000 -> fits n.
Proof. intros Hn. int64. Qed.

(** A cut function whose record hash is wrong for the entry [2]. *)
Definition wrong_at_2 (data : bytes) : bytes * bytes * bytes * option unit :=
  (take 1 data,
   if decide (take 1 data = [Byte.x02]) then [Byte.xff] else take 1 data,
   drop 1 data, None).

Definition wrong_client : Client.t Demo.reader bytes unit :=
  Client.mk (Demo.mkReader 0 []) wrong_at_2 300 None.

(** The fault-injection scenario: the first two entries are yielded, the
    third does not match, and nothing more is yielded. *)
Example hash_mismatch_run :
  let r := (Client.Entries Demo.StoredHashIndex Demo.ReadHashes wrong_client
              (mkTree 5 []) 0).2 Demo.calm 6%nat wrong_client in
  Client.yields (Client.trace r.1) = [(0, [Byte.x00]); (1, [Byte.x01])]
  /\ r.2 = Client.mkStop Client.Failed 2
  /\ Client.Err (Client.client r.1) = Some (Client.HashMismatch 2).
Proof. vm_compute. repeat split. Qed.


Lemma Entries_contiguous_witness :
  fits 300 /\ 0 <= 0 <= 300
  /\ (Client.enough_fuel (mkTree 300 ([] : bytes)) 0 <= 301)%nat
  /\ let r := (Client.Entries Demo.StoredHashIndex Demo.ReadHashes Demo.client
                 (mkTree 300 []) 0).2 Demo.calm 301%nat
                (Client.Entries Demo.StoredHashIndex Demo.ReadHashes
                   Demo.client (mkTree 300 []) 0).1 in
     Client.why r.2 = Client.Completed
     /\ (Client.yields (Client.trace r.1)).*1
        = seqZ 0 (Client.emitEnd (mkTree 300 ([] : bytes)) 0 - 0)
     /\ Client.emitEnd (mkTree 300 ([] : bytes)) 0 = 256.
Proof.
  assert (H1 : fits 300) by (apply fits_small; lia).
  assert (H2 : 0 <= 0 <= 300) by lia.
  assert (H3 : (Client.enough_fuel (mkTree 300 ([] : bytes)) 0 <= 301)%nat)
    by (vm_compute; lia).
  split; [exact H1|]. split; [exact H2|]. split; [exact H3|].
  pose proof (ClientProgress.Entries_contiguous Demo.StoredHashIndex
                Demo.ReadHashes Demo.calm (mkTree 300 []) Demo.client 0 301%nat
                H1 H2 H3) as (_ & _ & Hcompleted & _).
  assert (Hwhy : Client.why
            ((Client.Entries Demo.StoredHashIndex Demo.ReadHashes Demo.client
                (mkTree 300 []) 0).2 Demo.calm 301%nat
               (Client.Entries Demo.StoredHashIndex Demo.ReadHashes
                  Demo.client (mkTree 300 []) 0).1).2 = Client.Completed)
    by (vm_compute; reflexivity).
  split; [exact Hwhy|]. split; [exact (proj1 (Hcompleted Hwhy))|].
  reflexivity.
Defined.

(** *** Resuming *)

(** The data tiles from the entry [b] up to [top], at most [n] of them, as
    the outer loop lists them over its turns. *)
Fixpoint tiles_between (n : nat) (b top : Z) : list Tile :=
  match n with
  | O => []
  | S n' =>
      if decide (b >= top) then []
      else mkTile TileHeight (-1) (b / TileWidth) (Z.min TileWidth (top - b))
           :: tiles_between n' (b + TileWidth) top
  end.

Lemma tiles_between_S (n : nat) (b top : Z) :
  tiles_between (S n) b top
  = if decide (b >= top) then []
    else mkTile TileHeight (-1) (b / TileWidth) (Z.min TileWidth (top - b))
         :: tiles_between n (b + TileWidth) top.
Proof. reflexivity. Qed.

Arguments tiles_between : simpl never.

Lemma tiles_between_done (n : nat) (b top : Z) :
  b >= top -> tiles_between n b top = [].
Proof.
  intros Hb. destruct n; [reflexivity|]. rewrite tiles_between_S.
  now rewrite decide_True.
Qed.

Lemma tiles_between_app (n1 : nat) : forall n2 b top,
  tiles_between (n1 + n2) b top
  = tiles_between n1 b top
    ++ tiles_between n2 (b + Z.of_nat n1 * TileWidth) top.
Proof.
  induction n1 as [|n1 IH]; intros n2 b top.
  - change (tiles_between 0 b top) with (@nil Tile). simpl. f_equal. lia.
  - change (S n1 + n2)%nat with (S (n1 + n2)). rewrite !tiles_between_S.
    case_decide as Hb.
    + simpl. symmetry. apply tiles_between_done. int64.
    + rewrite IH, <- app_comm_cons. do 3 f_equal. lia.
Qed.

Lemma tiles_between_enough (n : nat) : forall m b top,
  top - b <= Z.of_nat n * TileWidth ->
  tiles_between (n + m) b top = tiles_between n b top.
Proof.
  intros m b top Hn. rewrite tiles_between_app.
  rewrite (tiles_between_done m) by lia. apply app_nil_r.
Qed.

Lemma tiles_between_covers (n : nat) : forall b top,
  0 <= b -> b mod TileWidth = 0 ->
  covers b (tiles_between n b top) (batch_end n b top).
Proof.
  induction n as [|n IH]; intros b top Hb Hmod; unfold batch_end.
  - change (tiles_between 0 b top) with (@nil Tile). simpl. int64.
  - rewrite tiles_between_S. case_decide as Hge; cbn [covers tN tW]; [int64|].
    split; [|split; [int64|]].
    + pose proof (Z.div_mod b TileWidth ltac:(int64)). lia.
    + destruct (decide (TileWidth <= top - b)) as [Hfull|Hpart].
      * rewrite Z.min_l by lia.
        replace (Z.max b (Z.min top (b + Z.of_nat (S n) * TileWidth)))
          with (batch_end n (b + TileWidth) top) by (unfold batch_end; int64).
        apply IH; [int64|].
        rewrite Z.add_mod, Hmod, Z.mod_same by int64. rewrite TileWidth_eq.
        reflexivity.
      * rewrite Z.min_r by lia. replace (b + (top - b)) with top by lia.
        rewrite tiles_between_done by lia. simpl. int64.
Qed.

(** In range, the loop of the code lists these tiles. *)
Lemma build_tiles_between (n : nat) : forall i base top,
  0 <= i -> 0 <= base -> base mod TileWidth = 0 ->
  base + i * TileWidth <= top + TileWidth -> fits top ->
  Client.build_tiles n i base top = tiles_between n (base + i * TileWidth) top.
Proof.
  induction n as [|n IH]; intros i base top Hi Hbase Hmod Hle Hfits;
    [reflexivity|].
  rewrite build_tiles_S, tiles_between_S. cbv zeta.
  rewrite (mul_in_range i TileWidth) by int64.
  rewrite (add_in_range base (i * TileWidth)) by int64.
  destruct (decide (base + i * TileWidth >= top)) as [Hge|Hlt]; [reflexivity|].
  rewrite (add_in_range (base + i * TileWidth) TileWidth) by int64.
  rewrite div_nonneg by int64.
  rewrite IH by int64.
  replace (base + (i + 1) * TileWidth) with (base + i * TileWidth + TileWidth)
    by lia.
  f_equal. f_equal.
  case_decide; rewrite sub_in_range by int64; lia.
Qed.

Module ClientResume.
Import Client.

Lemma filter_agree {A} (P Q : A -> Prop) `{!forall x, Decision (P x)}
    `{!forall x, Decision (Q x)} (l : list A) :
  (forall x, x ∈ l -> P x <-> Q x) -> filter P l = filter Q l.
Proof.
  induction l as [|x l IH]; intros Hagree; [reflexivity|].
  assert (Hl : filter P l = filter Q l)
    by (apply IH; intros y Hy; apply Hagree; now right).
  destruct (decide (P x)) as [HP|HP].
  - rewrite !filter_cons_True; [now rewrite Hl | | easy].
    apply Hagree; [left | easy].
  - rewrite !filter_cons_False; [easy | | easy]. intros HQ. apply HP.
    apply Hagree; [left | easy].
Qed.

Lemma filter_none {A} (P : A -> Prop) `{!forall x, Decision (P x)} (l : list A) :
  (forall x, x ∈ l -> ~ P x) -> filter P l = [].
Proof.
  induction l as [|x l IH]; intros Hnone; [reflexivity|].
  rewrite filter_cons_False by (apply Hnone; left). apply IH.
  intros y Hy. apply Hnone. now right.
Qed.

Section Pure.
Context {R Hash E : Type} `{!EqDecision Hash} `{!TileReaderWithContext R E}.
Variable StoredHashIndex : Z -> Z -> Z.
Variable ReadHashes : Tree Hash -> list Z -> R -> (E + list Hash) * R.
Variable w : env E.
Variable tree : Tree Hash.
(** The same underlying log: the bytes of each tile, the hash of each
    stored-hash index, and the cut function. *)
Variable tile_data : Tile -> bytes.
Variable leaf_hash : Z -> Hash.
Variable cutf : bytes -> bytes * Hash * bytes * option E.

Abbreviation read_batch := (read_batch StoredHashIndex ReadHashes).
Abbreviation batch := (batch StoredHashIndex ReadHashes).
Abbreviation loop := (loop StoredHashIndex ReadHashes).
Abbreviation Entries := (Entries StoredHashIndex ReadHashes).

(** The pairs of [n] entries cut from [data], the first with index [i], and
    the data left; [None] when the data ends too early, a cut fails or a
    record hash is not the leaf's. *)
Fixpoint cut_entries (n : nat) (i : Z) (data : bytes)
  : option (list (Z * bytes) * bytes) :=
  match n with
  | O => Some ([], data)
  | S n' =>
      if decide (len data = 0) then None
      else
        let '(entry, rh, rest, cut_err) := cutf data in
        match cut_err with
        | Some _ => None
        | None =>
            if decide (rh <> leaf_hash (StoredHashIndex 0 i)) then None
            else
              '(es, rest') ← cut_entries n' (i + 1) rest;
              Some ((i, entry) :: es, rest')
        end
  end.

(** The pairs of a tile, when its data holds exactly its entries. *)
Definition tile_entries (tl : Tile) : option (list (Z * bytes)) :=
  '(es, rest) ← cut_entries (Z.to_nat (tW tl)) (tN tl * TileWidth) (tile_data tl);
  if decide (len rest <> 0) then None else Some es.

(** The pairs of a list of tiles. *)
Fixpoint entries_of (tiles : list Tile) : option (list (Z * bytes)) :=
  match tiles with
  | [] => Some []
  | tl :: tiles' =>
      es ← tile_entries tl;
      rest ← entries_of tiles';
      Some (es ++ rest)
  end.

Lemma entries_of_app tiles1 tiles2 :
  entries_of (tiles1 ++ tiles2)
  = es1 ← entries_of tiles1; es2 ← entries_of tiles2; Some (es1 ++ es2).
Proof.
  induction tiles1 as [|tl tiles1 IH]; simpl.
  - destruct (entries_of tiles2); reflexivity.
  - destruct (tile_entries tl) as [es|]; [|reflexivity]. simpl.
    rewrite IH. destruct (entries_of tiles1) as [es1|]; [|reflexivity]. simpl.
    destruct (entries_of tiles2) as [es2|]; [|reflexivity]. simpl.
    now rewrite app_assoc.
Qed.

Lemma cut_entries_indexes (n : nat) : forall i data es rest,
  cut_entries n i data = Some (es, rest) -> es.*1 = seqZ i (Z.of_nat n).
Proof.
  induction n as [|n IH]; intros i data es rest H.
  - simpl in H. now inversion H.
  - cbn [cut_entries] in H. case_decide; [discriminate|].
    destruct (cutf data) as [[[entry rh] rest0] [e|]]; [discriminate|].
    case_decide; [discriminate|].
    destruct (cut_entries n (i + 1) rest0) as [[es' rest']|] eqn:Hrec;
      [|discriminate].
    simpl in H. inversion H; subst. rewrite fmap_cons. cbn [fst].
    rewrite (IH _ _ _ _ Hrec), (seqZ_cons i) by lia.
    do 2 f_equal; lia.
Qed.

(** The pairs of tiles that cover a range have the indexes of that
    range. *)
Lemma entries_of_indexes tiles : forall b e es,
  covers b tiles e -> entries_of tiles = Some es -> es.*1 = seqZ b (e - b).
Proof.
  induction tiles as [|tl tiles IH]; intros b e es Hcov H.
  - simpl in *. inversion H; subst. now rewrite Z.sub_diag.
  - destruct Hcov as (HN & HW & Hcov). pose proof (covers_le _ _ _ Hcov).
    simpl in H. unfold tile_entries in H. rewrite HN in H.
    destruct (cut_entries _ _ _) as [[es1 rest1]|] eqn:Hcut; [|discriminate].
    simpl in H. case_decide; [discriminate|]. simpl in H.
    destruct (entries_of tiles) as [es2|] eqn:Hrest; [|discriminate].
    simpl in H. injection H as <-.
    rewrite fmap_app, (cut_entries_indexes _ _ _ _ _ Hcut), (IH _ _ _ Hcov eq_refl).
    rewrite Z2Nat.id by lia.
    replace (e - b) with (tW tl + (e - (b + tW tl))) by lia.
    now rewrite seqZ_app by lia.
Qed.

(** The spec's words: the iteration from [s] yields exactly the pairs that
    the iteration from [start] yields from [s] onward. *)
Definition resumes_at (c : Client.t R Hash E) (start s : Z)
    (fuel1 fuel2 : nat) : Prop :=
  yields (trace ((Entries c tree s).2 w fuel2 (Entries c tree s).1).1)
  = filter (fun p => s <= p.1)
      (yields (trace ((Entries c tree start).2 w fuel1
                        (Entries c tree start).1).1)).

(** The reader serves these bytes and the hash reader these hashes,
    whatever the state of the caches; the context is never done and the
    consumer never leaves its loop. *)
Hypothesis read_pure : forall tiles r,
  (tr_ReadTiles tiles r).1 = inr (tile_data <$> tiles).
Hypothesis hashes_pure : forall indexes r,
  (ReadHashes tree indexes r).1 = inr (leaf_hash <$> indexes).
Hypothesis calm_ctx : forall n, ctx_err w n = None.
Hypothesis calm_consumer : forall l, accept w l = true.

(** How a loop ended: with the pairs [es] added to those yielded, and then
    either going on with a value that is [good] or completed with [done]; or
    with a failure, when there are no such pairs. *)
Definition added {A} (s : state R Hash E) (start : Z)
    (es : option (list (Z * bytes)))
    (r : state R Hash E * (stop + A)) (good : A -> Prop) (done : Prop) : Prop :=
  match es with
  | Some es =>
      yields (trace r.1)
      = yields (trace s) ++ filter (fun p => start <= p.1) es
      /\ cut (client r.1) = cutf
      /\ match r.2 with
         | inr a => good a
         | inl st => why st = Completed /\ done
         end
  | None => exists st, r.2 = inl st /\ why st = Failed
  end.

Lemma entries_loop_pure (n : nat) :
  forall i tile base start hashes data (s : state R Hash E),
    cut (client s) = cutf -> 0 <= base <= i ->
    i + Z.of_nat n <= Int64.max_int ->
    (forall i', i <= i' < i + Z.of_nat n ->
                index hashes (i' - base) = Some (leaf_hash (StoredHashIndex 0 i'))) ->
    added s start (fst <$> cut_entries n i data)
      (entries_loop w n i tile base start hashes data s)
      (fun rest => (snd <$> cut_entries n i data) = Some rest) False.
Proof.
  induction n as [|n IH]; intros i tile base start hashes data s Hcut Hbase Hmax Hidx.
  - simpl. rewrite filter_nil, app_nil_r. auto.
  - cbn [entries_loop cut_entries]. unfold ask. rewrite calm_ctx.
    destruct (decide (len data = 0)).
    { simpl. eexists. split; reflexivity. }
    cbn [client]. rewrite Hcut.
    destruct (cutf data) as [[[entry rh] rest] [e|]].
    { simpl. eexists. split; reflexivity. }
    rewrite (sub_in_range i base) by int64.
    rewrite (Hidx i) by lia.
    destruct (decide (rh <> leaf_hash (StoredHashIndex 0 i))).
    { simpl. eexists. split; reflexivity. }
    rewrite (add_in_range i 1) by int64.
    set (s1 := record (EvCut data) (mkState (client s) (S (asked s)) (trace s))).
    assert (Hy1 : yields (trace s1) = yields (trace s)).
    { unfold s1, record. cbn [trace]. rewrite ClientFacts.yields_app.
      apply app_nil_r. }
    assert (Hrec : forall s2 : state R Hash E,
      cut (client s2) = cutf ->
      added s2 start (fst <$> cut_entries n (i + 1) rest)
        (entries_loop w n (i + 1) tile base start hashes rest s2)
        (fun rest' => (snd <$> cut_entries n (i + 1) rest) = Some rest') False).
    { intros s2 Hcut2. apply IH; [easy | lia | lia |].
      intros i' Hi'. apply Hidx. lia. }
    destruct (decide (i < start)) as [Hlt|Hge].
    + specialize (Hrec s1 Hcut). unfold added in *.
      destruct (cut_entries n (i + 1) rest) as [[es rest']|]; [|exact Hrec].
      simpl in *. destruct Hrec as (Hy & Hc & Hr).
      rewrite filter_cons_False by (simpl; lia).
      rewrite Hy, Hy1. auto.
    + set (s2 := record (EvYield i entry) s1).
      rewrite calm_consumer.
      specialize (Hrec s2 Hcut). unfold added in *.
      destruct (cut_entries n (i + 1) rest) as [[es rest']|]; [|exact Hrec].
      simpl in *. destruct Hrec as (Hy & Hc & Hr).
      rewrite filter_cons_True by (simpl; lia).
      rewrite Hy. unfold s2, record. cbn [trace].
      rewrite ClientFacts.yields_app, Hy1. simpl.
      rewrite <- app_assoc. auto.
Qed.

Lemma tiles_loop_pure (tiles : list Tile) :
  forall ti tdata b e base start hashes (s : state R Hash E),
    covers b tiles e -> cut (client s) = cutf ->
    0 <= base <= b -> e <= Int64.max_int ->
    (forall k tl, tiles !! k = Some tl ->
                  tdata !! (ti + k)%nat = Some (tile_data tl)) ->
    (forall i', b <= i' < e ->
                index hashes (i' - base) = Some (leaf_hash (StoredHashIndex 0 i'))) ->
    (forall tl tiles', tiles = tl :: tiles' -> start <= b + tW tl) ->
    added s start (entries_of tiles)
      (tiles_loop w tiles ti tdata hashes base start s)
      (fun start' => start' = match tiles with [] => start | _ :: _ => e end)
      False.
Proof.
  induction tiles as [|tl tiles IH];
    intros ti tdata b e base start hashes s Hcov Hcut Hbase Hmax Hdata Hidx Hhead.
  - simpl. rewrite filter_nil, app_nil_r. auto.
  - destruct Hcov as (HN & HW & Hcov).
    pose proof (covers_le _ _ _ Hcov) as Hle.
    cbn [tiles_loop entries_of]. unfold tile_entries.
    rewrite (mul_in_range (tN tl) TileWidth) by int64. rewrite HN.
    rewrite (add_in_range b (tW tl)) by int64.
    pose proof (Hdata 0%nat tl eq_refl) as Hd. rewrite Nat.add_0_r in Hd.
    rewrite Hd. replace (b + tW tl - b) with (tW tl) by lia.
    pose proof (entries_loop_pure (Z.to_nat (tW tl)) b (tN tl) base start hashes
                  (tile_data tl) s Hcut Hbase) as Hent.
    rewrite Z2Nat.id in Hent by lia.
    specialize (Hent ltac:(lia)).
    specialize (Hent ltac:(intros i' Hi'; apply Hidx; lia)).
    pose proof (cut_entries_indexes (Z.to_nat (tW tl)) b (tile_data tl)) as Hix.
    unfold added in Hent.
    destruct (cut_entries (Z.to_nat (tW tl)) b (tile_data tl))
      as [[es1 rest1]|]; simpl in Hent.
    2:{ destruct Hent as (st & Hst & Hwhy).
        destruct (entries_loop w _ _ _ _ _ _ _ _) as [s1 r1]. simpl in Hst.
        subst r1. simpl. eauto. }
    destruct Hent as (Hy1 & Hc1 & Hr1).
    destruct (entries_loop w (Z.to_nat (tW tl)) b (tN tl) base start hashes
                (tile_data tl) s) as [s1 [st|rest]]; cbn [fst snd] in *;
      [tauto|].
    injection Hr1 as ->. cbn [mbind option_bind].
    destruct (decide (len rest <> 0)).
    { simpl. eexists. split; reflexivity. }
    specialize (IH (S ti) tdata (b + tW tl) e base (b + tW tl) hashes s1 Hcov Hc1
                  ltac:(lia) Hmax).
    assert (Hdata' : forall k tl', tiles !! k = Some tl' ->
                                   tdata !! (S ti + k)%nat = Some (tile_data tl')).
    { intros k tl' Hk. specialize (Hdata (S k) tl' Hk).
      now replace (S ti + k)%nat with (ti + S k)%nat by lia. }
    specialize (IH Hdata' ltac:(intros i' Hi'; apply Hidx; lia)).
    assert (Hhead' : forall tl' tiles', tiles = tl' :: tiles' ->
                                        b + tW tl <= b + tW tl + tW tl').
    { intros tl' tiles' ->. destruct Hcov as (_ & ? & _). lia. }
    specialize (IH Hhead').
    pose proof (entries_of_indexes tiles (b + tW tl) e) as Hix2.
    unfold added in IH |- *.
    destruct (entries_of tiles) as [es2|]; simpl in IH |- *; [|exact IH].
    destruct IH as (Hy2 & Hc2 & Hr2).
    specialize (Hix2 es2 Hcov eq_refl).
    specialize (Hhead tl tiles eq_refl).
    split; [|split; [exact Hc2|]].
    + rewrite Hy2, Hy1, filter_app, <- app_assoc. do 2 f_equal.
      apply filter_agree. intros [i entry] Hin. simpl.
      assert (i ∈ es2.*1) as Hi
        by (apply list_elem_of_fmap; exists (i, entry); easy).
      rewrite Hix2 in Hi. apply elem_of_seqZ in Hi. lia.
    + destruct (tiles_loop w tiles (S ti) tdata hashes base (b + tW tl) s1)
        as [s2 [st|start']]; cbn [fst snd] in *; [exact Hr2|].
      subst start'. destruct tiles; [simpl in Hcov; lia | reflexivity].
Qed.

Lemma read_batch_pure tiles base top e start (s : state R Hash E) :
  covers base tiles e -> tiles <> [] -> cut (client s) = cutf ->
  0 <= base -> e <= Int64.max_int ->
  (forall tl tiles', tiles = tl :: tiles' -> start <= base + tW tl) ->
  added s start (entries_of tiles)
    (read_batch w tree tiles base top start s)
    (fun start' => start' = e /\ e <> top) (e = top).
Proof.
  intros Hcov Hne Hcut Hbase Hmax Hhead.
  unfold Client.read_batch.
  pose proof (read_pure tiles (tr (client s))) as Hread.
  destruct (tr_ReadTiles tiles (tr (client s))) as [res r1].
  simpl in Hread. subst res.
  set (s1 := record (EvReadTiles tiles (inr (tile_data <$> tiles)))
               (set_reader r1 s)).
  pose proof (hashes_pure (leaf_indexes StoredHashIndex tiles) (tr (client s1)))
    as Hhashes.
  destruct (ReadHashes tree (leaf_indexes StoredHashIndex tiles) (tr (client s1)))
    as [hres r2].
  simpl in Hhashes. subst hres.
  set (hashes := leaf_hash <$> leaf_indexes StoredHashIndex tiles).
  set (s2 := record (EvReadHashes tree (leaf_indexes StoredHashIndex tiles)
                       (inr hashes)) (set_reader r2 s1)).
  assert (Hy2 : yields (trace s2) = yields (trace s)).
  { unfold s2, s1, record. cbn [trace set_reader].
    rewrite !ClientFacts.yields_app. simpl. now rewrite !app_nil_r. }
  pose proof (tiles_loop_pure tiles 0%nat (tile_data <$> tiles) base e base start
                hashes s2 Hcov Hcut ltac:(lia) Hmax) as Hloop.
  assert (Hdata : forall k tl, tiles !! k = Some tl ->
            (tile_data <$> tiles) !! (0 + k)%nat = Some (tile_data tl)).
  { intros k tl Hk. simpl. now rewrite list_lookup_fmap, Hk. }
  assert (Hidx : forall i', base <= i' < e ->
            index hashes (i' - base) = Some (leaf_hash (StoredHashIndex 0 i'))).
  { intros i' Hi'. unfold hashes.
    rewrite (leaf_indexes_covers StoredHashIndex tiles base e) by (easy || lia).
    rewrite <- list_fmap_compose.
    apply (index_fmap_seqZ (leaf_hash ∘ StoredHashIndex 0)). lia. }
  specialize (Hloop Hdata Hidx Hhead).
  unfold added in Hloop |- *.
  destruct (entries_of tiles) as [es|].
  - destruct Hloop as (Hy & Hc & Hr).
    destruct (tiles_loop w tiles 0 (tile_data <$> tiles) hashes base start s2)
      as [s3 [st|start']]; cbn [fst snd] in *; [tauto|].
    subst start'.
    replace (match tiles with [] => start | _ :: _ => e end) with e
      by (destruct tiles; easy).
    destruct (decide (e = top)) as [Heq|Hneq]; cbn [fst snd trace record client
                                                    set_reader cut].
    + rewrite ClientFacts.yields_app, Hy, Hy2. simpl. rewrite app_nil_r. auto.
    + rewrite ClientFacts.yields_app, Hy, Hy2. simpl. rewrite app_nil_r. auto.
  - destruct Hloop as (st & Hst & Hwhy).
    destruct (tiles_loop w tiles 0 (tile_data <$> tiles) hashes base start s2)
      as [s3 r3]. simpl in Hst. subst r3. simpl. eauto.
Qed.

Lemma batch_pure start (s : state R Hash E) :
  fits (treeN tree) -> 0 <= start <= treeN tree -> cut (client s) = cutf ->
  let base := start / TileWidth * TileWidth in
  let top := emitEnd tree start in
  added s start (entries_of (tiles_between 50 base top))
    (batch w tree start s)
    (fun start' => start' = base + 50 * TileWidth /\ start' < top)
    (top <= base + 50 * TileWidth).
Proof.
  intros Hfits Hstart Hcut base top.
  pose proof (emitEnd_bounds tree start Hstart) as Hend. fold top in Hend.
  unfold Client.batch, ask. rewrite calm_ctx. cbv zeta.
  rewrite top_of_eq by easy. rewrite base_of_eq by int64.
  fold base top.
  assert (Hbase : 0 <= base <= start /\ start < base + TileWidth
                  /\ base mod TileWidth = 0).
  { subst base.
    pose proof (Z.div_mod start TileWidth ltac:(int64)).
    pose proof (Z.mod_pos_bound start TileWidth ltac:(int64)).
    rewrite Z.mod_mul by int64. int64. }
  destruct Hbase as (Hbase & Hnext & Hmod).
  rewrite (build_tiles_between 50 0 base top) by int64.
  replace (base + 0 * TileWidth) with base by lia.
  pose proof (tiles_between_covers 50 base top ltac:(lia) Hmod) as Hcov.
  set (s0 := mkState (client s) (S (asked s)) (trace s)).
  destruct (decide (len (tiles_between 50 base top) = 0)) as [Hempty|Hsome].
  { assert (tiles_between 50 base top = []) as Hnil
      by (destruct (tiles_between 50 base top); [easy | discriminate]).
    rewrite Hnil in *. simpl in Hcov. unfold batch_end in Hcov.
    simpl. rewrite app_nil_r. repeat split; try easy. int64. }
  assert (Hlt : base < top).
  { destruct (decide (base < top)) as [|Hge]; [easy|]. exfalso. apply Hsome.
    now rewrite tiles_between_done by lia. }
  pose proof (read_batch_pure (tiles_between 50 base top) base top
                (batch_end 50 base top) start s0 Hcov) as Hread.
  assert (Hne : tiles_between 50 base top <> [])
    by (intros Hnil; apply Hsome; now rewrite Hnil).
  assert (Hhd : forall tl tiles', tiles_between 50 base top = tl :: tiles' ->
                                  start <= base + tW tl).
  { intros tl tiles'. change 50%nat with (S 49). rewrite tiles_between_S.
    rewrite decide_False by lia. intros [= <- _]. cbn [tW]. lia. }
  specialize (Hread Hne Hcut ltac:(lia) ltac:(unfold batch_end; int64) Hhd).
  unfold added in Hread |- *.
  destruct (entries_of (tiles_between 50 base top)) as [es|]; [|exact Hread].
  destruct Hread as (Hy & Hc & Hr). split; [exact Hy|]. split; [exact Hc|].
  destruct (read_batch w tree (tiles_between 50 base top) base top start s0)
    as [s1 [st|start']]; cbn [fst snd] in *.
  - destruct Hr as [Hwhy Heq]. split; [exact Hwhy|].
    unfold batch_end in Heq. int64.
  - destruct Hr as [-> Hneq]. unfold batch_end in *. int64.
Qed.

(** The outer loop in a calm run over the same log: it completes with the
    pairs of the tiles from the tile of [start] to the end of the sequence,
    those before [start] left out, or fails when one of these tiles does not
    hold exactly its entries with the hashes of its leaves. *)
Lemma loop_pure (fuel : nat) : forall start (s : state R Hash E) (n : nat),
  fits (treeN tree) -> 0 <= start <= treeN tree -> cut (client s) = cutf ->
  (Z.to_nat (treeN tree - start) < fuel)%nat ->
  emitEnd tree start - start / TileWidth * TileWidth <= Z.of_nat n * TileWidth ->
  let r := loop w fuel tree start s in
  match entries_of (tiles_between n (start / TileWidth * TileWidth)
                      (emitEnd tree start)) with
  | Some es =>
      yields (trace r.1) = yields (trace s) ++ filter (fun p => start <= p.1) es
      /\ why r.2 = Completed
  | None => why r.2 = Failed
  end.
Proof.
  induction fuel as [|fuel IH]; intros start s n Hfits Hstart Hcut Hfuel Hn;
    [lia|].
  cbn [Client.loop]. cbv zeta.
  set (base := start / TileWidth * TileWidth) in *.
  set (top := emitEnd tree start) in *.
  pose proof (emitEnd_bounds tree start Hstart) as Hend. fold top in Hend.
  assert (Hbase : 0 <= base <= start /\ start < base + TileWidth
                  /\ base mod TileWidth = 0).
  { subst base.
    pose proof (Z.div_mod start TileWidth ltac:(int64)).
    pose proof (Z.mod_pos_bound start TileWidth ltac:(int64)).
    rewrite Z.mod_mul by int64. int64. }
  destruct Hbase as (Hbase & Hnext & Hmod).
  rewrite <- (tiles_between_enough n 50 base top Hn).
  replace (n + 50)%nat with (50 + n)%nat by lia.
  rewrite tiles_between_app, entries_of_app.
  pose proof (batch_pure start s Hfits Hstart Hcut) as Hbatch.
  cbv zeta in Hbatch. fold base top in Hbatch. unfold added in Hbatch.
  destruct (entries_of (tiles_between 50 base top)) as [es1|]; cbn [mbind option_bind].
  2:{ destruct Hbatch as (st & Hst & Hwhy).
      destruct (batch w tree start s) as [s1 r1]. simpl in Hst. subst r1.
      exact Hwhy. }
  destruct Hbatch as (Hy1 & Hc1 & Hr1).
  destruct (batch w tree start s) as [s1 [st|start']]; cbn [fst snd] in *.
  - destruct Hr1 as [Hwhy Hdone].
    rewrite (tiles_between_done n) by int64. simpl.
    rewrite app_nil_r. auto.
  - destruct Hr1 as [-> Hlt].
    replace (base + Z.of_nat 50 * TileWidth) with (base + 50 * TileWidth) by lia.
    set (start' := base + 50 * TileWidth) in *.
    assert (Hmod' : start' mod TileWidth = 0).
    { subst start'. rewrite Z.add_mod, Hmod, Z.mod_mul by int64.
      rewrite TileWidth_eq. reflexivity. }
    assert (Hbase' : start' / TileWidth * TileWidth = start').
    { pose proof (Z.div_mod start' TileWidth ltac:(int64)). lia. }
    assert (Hend' : emitEnd tree start' = top)
      by (apply emitEnd_stable; subst start'; lia).
    specialize (IH start' s1 n Hfits ltac:(subst start'; lia) Hc1
                  ltac:(subst start'; lia)).
    rewrite Hbase', Hend' in IH.
    specialize (IH ltac:(subst start'; int64)). cbv zeta in IH.
    pose proof (entries_of_indexes (tiles_between n start' top) start'
                  (batch_end n start' top)) as Hix.
    destruct (entries_of (tiles_between n start' top)) as [es2|];
      cbn [mbind option_bind]; [|exact IH].
    destruct IH as [Hy2 Hwhy]. split; [|exact Hwhy].
    specialize (Hix es2 (tiles_between_covers n start' top
                           ltac:(subst start'; lia) Hmod') eq_refl).
    rewrite Hy2, Hy1, filter_app, <- app_assoc. do 2 f_equal.
    apply filter_agree. intros [i entry] Hin. simpl.
    assert (i ∈ es2.*1) as Hi
      by (apply list_elem_of_fmap; exists (i, entry); easy).
    rewrite Hix in Hi. apply elem_of_seqZ in Hi. subst start'. lia.
Qed.

Lemma emitEnd_resume (start s : Z) :
  0 <= start <= s -> s <= emitEnd tree start ->
  s < emitEnd tree start \/ emitEnd tree start = treeN tree ->
  emitEnd tree s = emitEnd tree start.
Proof.
  unfold Client.emitEnd. intros Hs Hle Hor.
  pose proof (Z.div_mod (treeN tree) TileWidth ltac:(int64)).
  pose proof (Z.mod_pos_bound (treeN tree) TileWidth ltac:(int64)).
  repeat case_decide; int64.
Qed.

(** C3, as the code has it.  Over the same log, in runs that the context
    and the consumer let go to their end: when the iteration from [start]
    completes, the iteration from a split point [s] between [start] and
    [emitEnd] completes too and yields exactly the pairs the first yields
    from [s] onward, provided [s] is before [emitEnd], or [emitEnd] is the
    size of the tree. *)
Theorem Entries_resumable (c : Client.t R Hash E) (start s : Z)
    (fuel1 fuel2 : nat) :
  cut c = cutf -> fits (treeN tree) ->
  0 <= start <= s -> s <= emitEnd tree start ->
  s < emitEnd tree start \/ emitEnd tree start = treeN tree ->
  (enough_fuel tree start <= fuel1)%nat ->
  (enough_fuel tree s <= fuel2)%nat ->
  why ((Entries c tree start).2 w fuel1 (Entries c tree start).1).2 = Completed ->
  why ((Entries c tree s).2 w fuel2 (Entries c tree s).1).2 = Completed
  /\ resumes_at c start s fuel1 fuel2.
Proof.
  intros Hcut Hfits Hstart Hle Hor Hfuel1 Hfuel2.
  unfold resumes_at, Client.Entries, Client.iterate, enough_fuel in *.
  cbn [fst snd].
  pose proof (emitEnd_resume start s Hstart Hle Hor) as Hend.
  assert (Hb : start <= emitEnd tree start <= treeN tree).
  { revert Hle. unfold Client.emitEnd.
    pose proof (Z.div_mod (treeN tree) TileWidth ltac:(int64)).
    pose proof (Z.mod_pos_bound (treeN tree) TileWidth ltac:(int64)).
    case_decide; int64. }
  set (top := emitEnd tree start) in *.
  set (base1 := start / TileWidth * TileWidth).
  set (base2 := s / TileWidth * TileWidth).
  set (n := Z.to_nat (top - base1)).
  set (k := Z.to_nat (s / TileWidth - start / TileWidth)).
  assert (Harith : 0 <= base1 <= start /\ base1 <= base2 <= s
                   /\ base1 mod TileWidth = 0
                   /\ base1 + Z.of_nat k * TileWidth = base2).
  { subst base1 base2 k.
    pose proof (Z.div_mod start TileWidth ltac:(int64)).
    pose proof (Z.mod_pos_bound start TileWidth ltac:(int64)).
    pose proof (Z.div_mod s TileWidth ltac:(int64)).
    pose proof (Z.mod_pos_bound s TileWidth ltac:(int64)).
    pose proof (Z.div_le_mono start s TileWidth ltac:(int64) ltac:(lia)).
    rewrite Z.mod_mul by int64. rewrite Z2Nat.id by lia. int64. }
  destruct Harith as (Hb1 & Hb2 & Hmod1 & Hk).
  set (s1 := mkState (Client.mk (tr c) (cut c) (timeout c) None) 0 []).
  pose proof (loop_pure fuel1 start s1 n Hfits ltac:(lia) Hcut ltac:(lia)) as H1.
  pose proof (loop_pure fuel2 s s1 n Hfits ltac:(lia) Hcut ltac:(lia)) as H2.
  fold base1 top in H1. rewrite Hend in H2. fold base2 in H2.
  specialize (H1 ltac:(subst n; int64)). specialize (H2 ltac:(subst n; int64)).
  cbv zeta in H1, H2.
  rewrite <- (tiles_between_enough n k base1 top) in H1 by (subst n; int64).
  replace (n + k)%nat with (k + n)%nat in H1 by lia.
  rewrite tiles_between_app, Hk, entries_of_app in H1.
  pose proof (entries_of_indexes (tiles_between k base1 top) base1
                (batch_end k base1 top)) as HixA.
  intros Hcompleted.
  destruct (entries_of (tiles_between k base1 top)) as [esA|];
    cbn [mbind option_bind] in H1; [|congruence].
  destruct (entries_of (tiles_between n base2 top)) as [esB|];
    cbn [mbind option_bind] in H1; [|congruence].
  destruct H1 as [Hy1 _]. destruct H2 as [Hy2 Hwhy2].
  split; [exact Hwhy2|].
  rewrite Hy2, Hy1. simpl.
  specialize (HixA esA (tiles_between_covers k base1 top ltac:(lia) Hmod1) eq_refl).
  assert (HendA : batch_end k base1 top = base2) by (unfold batch_end; lia).
  rewrite HendA in HixA.
  rewrite filter_app, filter_app.
  rewrite (filter_none (fun p : Z * bytes => s <= p.1)
             (filter (fun p : Z * bytes => start <= p.1) esA)).
  2:{ intros [i entry] Hin. apply list_elem_of_filter in Hin as [_ Hin]. simpl.
      assert (i ∈ esA.*1) as Hi
        by (apply list_elem_of_fmap; exists (i, entry); easy).
      rewrite HixA in Hi. apply elem_of_seqZ in Hi. lia. }
  simpl. rewrite list_filter_filter. apply filter_agree.
  intros [i entry] _. simpl. lia.
Qed.

End Pure.
End ClientResume.

(** C3, as the claim has it, fails at the split point [s = emitEnd] when a
    partial tile trails: for a tree of 300 entries the iteration from 0 ends
    at 256 and yields nothing from 256 onward, while the iteration from 256
    fetches the partial tile and yields the entries 256 to 299. *)
Lemma resume_at_emitEnd_differs :
  0 <= 0 <= 256 /\ 256 <= Client.emitEnd (mkTree 300 ([] : bytes)) 0
  /\ ~ ClientResume.resumes_at Demo.StoredHashIndex Demo.ReadHashes Demo.calm
        (mkTree 300 []) Demo.client 0 256 301 301.
Proof.
  split; [lia|]. split; [vm_compute; discriminate|].
  unfold ClientResume.resumes_at. vm_compute. discriminate.
Qed.

(** The iteration over a tree of 600 entries from 100, resumed at 300. *)
Lemma Entries_resumable_witness :
  fits 600 /\ 0 <= 100 <= 300
  /\ 300 < Client.emitEnd (mkTree 600 ([] : bytes)) 100
  /\ Client.why
       ((Client.Entries Demo.StoredHashIndex Demo.ReadHashes Demo.client
           (mkTree 600 []) 300).2 Demo.calm 301%nat
          (Client.Entries Demo.StoredHashIndex Demo.ReadHashes Demo.client
             (mkTree 600 []) 300).1).2 = Client.Completed
  /\ ClientResume.resumes_at Demo.StoredHashIndex Demo.ReadHashes Demo.calm
       (mkTree 600 []) Demo.client 100 300 501 301.
Proof.
  assert (H1 : fits 600) by (apply fits_small; lia).
  assert (H2 : 0 <= 100 <= 300) by lia.
  assert (H3 : 300 < Client.emitEnd (mkTree 600 ([] : bytes)) 100)
    by (vm_compute; reflexivity).
  split; [exact H1|]. split; [exact H2|]. split; [exact H3|].
  assert (Hread : forall (tiles : list Tile) (r : Demo.reader),
             (tr_ReadTiles tiles r).1 = inr (Demo.tile_data <$> tiles))
    by reflexivity.
  assert (Hhashes : forall (indexes : list Z) (r : Demo.reader),
             (Demo.ReadHashes (mkTree 600 []) indexes r).1
             = inr ((fun n => [Demo.byte_of n]) <$> indexes))
    by reflexivity.
  apply (ClientResume.Entries_resumable Demo.StoredHashIndex Demo.ReadHashes
           Demo.calm (mkTree 600 []) Demo.tile_data
           (fun n => [Demo.byte_of n]) Demo.cut
           Hread Hhashes (fun n => eq_refl) (fun l => eq_refl)
           Demo.client 100 300 501%nat 301%nat eq_refl H1 H2).
  - lia.
  - left. exact H3.
  - vm_compute. lia.
  - vm_compute. lia.
  - vm_compute. reflexivity.
Defined.

(** * More of the file

    The rest of [tlogclient.go]: reading through the two caches, how a
    tile request and a batch of requests end, the constructors, the sumdb
    format end to end, and the batches of an iteration. *)

(** A filter that keeps everything. *)
Lemma filter_all {A} (P : A -> Prop) `{!forall x, Decision (P x)} (l : list A) :
  (forall x, x ∈ l -> P x) -> filter P l = l.
Proof.
  induction l as [|x l IH]; intros Hall; [reflexivity|].
  rewrite filter_cons_True by (apply Hall; left). f_equal. apply IH.
  intros y Hy. apply Hall. now right.
Qed.

(** ** Merging what was missing *)

(** [edgeMemoryCache.ReadTiles] and [PermanentCache.ReadTiles] end with the
    same loop over [data], which holds nil for every tile that had to be
    asked of the inner reader. *)
Module FillLoop.

(** The last loop of both [ReadTiles]: every nil of [data] takes the head of
    [missingData].  [None] is the panic of [missingData[0]] on an empty
    slice. *)
Fixpoint fill (data : list (option bytes)) (missingData : list bytes)
  : option (list bytes) :=
  match data with
  | [] => Some []
  | Some d :: data' => ds ← fill data' missingData; Some (d :: ds)
  | None :: data' =>
      match missingData with
      | [] => None
      | d :: missingData' => ds ← fill data' missingData'; Some (d :: ds)
      end
  end.

(** The nils of [data]. *)
Definition nils (data : list (option bytes)) : nat :=
  length (filter (fun d => d = None) data).

Lemma nils_cons_None data : nils (None :: data) = S (nils data).
Proof. unfold nils. now rewrite filter_cons_True. Qed.

Lemma nils_cons_Some d data : nils (Some d :: data) = nils data.
Proof. unfold nils. now rewrite filter_cons_False. Qed.

(** The fill loop panics exactly when [missingData] has fewer slices than
    [data] has nils. *)
Lemma fill_None data : forall md,
  fill data md = None <-> (length md < nils data)%nat.
Proof.
  induction data as [|[d|] data IH]; intros md; simpl.
  - unfold nils. simpl. split; [discriminate | lia].
  - rewrite nils_cons_Some, <- IH.
    destruct (fill data md); simpl; split; congruence.
  - rewrite nils_cons_None. destruct md as [|x md]; simpl; [split; [lia | easy]|].
    rewrite <- Nat.succ_lt_mono, <- IH.
    destruct (fill data md); simpl; split; congruence.
Qed.

(** Otherwise it keeps the slices that are there and gives the [k]-th nil
    the [k]-th slice of [missingData]. *)
Lemma fill_Some data : forall md ds,
  fill data md = Some ds ->
  length ds = length data
  /\ forall i, match data !! i with
               | Some (Some d) => ds !! i = Some d
               | Some None => ds !! i = md !! nils (take i data)
               | None => True
               end.
Proof.
  induction data as [|[d|] data IH]; intros md ds H; simpl in H.
  - inversion H; subst. split; [reflexivity|]. intros i. now rewrite lookup_nil.
  - destruct (fill data md) as [ds'|] eqn:Hrec; [|discriminate].
    simpl in H. inversion H; subst.
    destruct (IH md ds' Hrec) as [Hlen Hat]. split; [simpl; lia|].
    intros [|i]; [reflexivity|]. simpl. specialize (Hat i).
    destruct (data !! i) as [[x|]|]; rewrite ?nils_cons_Some; easy.
  - destruct md as [|x md]; [discriminate|].
    destruct (fill data md) as [ds'|] eqn:Hrec; [|discriminate].
    simpl in H. inversion H; subst.
    destruct (IH md ds' Hrec) as [Hlen Hat]. split; [simpl; lia|].
    intros [|i]; [reflexivity|]. simpl. specialize (Hat i).
    destruct (data !! i) as [[y|]|]; rewrite ?nils_cons_None; easy.
Qed.

End FillLoop.

(** ** Reading through the edge memory cache *)

Module EdgeMemoryCacheRead.
Import EdgeMemoryCache FillLoop.

(** The slice a slot holds, as [ReadTiles] copies it into [data[i]];
    [None] is the nil slice, which the fill loop of [ReadTiles] takes for a
    tile that is still to come.  The slot that was never written, the zero
    value, holds nil.  A slot that was written holds the slice that was
    handed to [SaveTiles], and that slice may have been nil: a list of bytes
    does not tell the nil slice from the empty one, so [nilp t] says whether
    the slice saved with the tile [t] was nil.  Only a slice without bytes
    can be. *)
Definition held (nilp : Tile -> bool) (s : tileWithData) : option bytes :=
  if decide (s = zeroTWD) then None
  else if nilp (twTile s) && bool_decide (twData s = []) then None
  else Some (twData s).

(** The first loop of [ReadTiles]: [data], with nil where the tile is in
    neither slot of its level or the slot holds nil, and [missing]. *)
Fixpoint lookup_all (nilp : Tile -> bool)
    (m : gmap Z (tileWithData * tileWithData))
    (tiles : list Tile) : list (option bytes) * list Tile :=
  match tiles with
  | [] => ([], [])
  | t :: tiles' =>
      let td := get m (tL t) in
      let '(data, missing) := lookup_all nilp m tiles' in
      if decide (twTile td.1 = t) then (held nilp td.1 :: data, missing)
      else if decide (twTile td.2 = t) then (held nilp td.2 :: data, missing)
      else (None :: data, t :: missing)
  end.

Section Methods.
Context {R E : Type} `{!TileReaderWithContext R E}.

(** [edgeMemoryCache.ReadTiles]; [None] is a panic.  In the result a nil
    slice reads as the empty one. *)
Definition ReadTiles (nilp : Tile -> bool) (tiles : list Tile) (c : t R)
  : option ((E + list bytes) * t R) :=
  let '(data, missing) := lookup_all nilp (slots c) tiles in
  if decide (len missing = 0) then Some (inr (default [] <$> data), c)
  else
    let '(res, r) := tr_ReadTiles missing (tr c) in
    match res with
    | inl e => Some (inl e, mk r (slots c))
    | inr missingData =>
        ds ← fill data missingData; Some (inr ds, mk r (slots c))
    end.

End Methods.

(** The bytes the cache holds for a tile that is in one of the slots of its
    level. *)
Definition cached (m : gmap Z (tileWithData * tileWithData)) (t : Tile) : bytes :=
  let td := get m (tL t) in
  if decide (twTile td.1 = t) then twData td.1 else twData td.2.

(** The tiles of a request that are in neither slot of their level. *)
Definition absent_tiles (m : gmap Z (tileWithData * tileWithData))
    (tiles : list Tile) : list Tile :=
  filter (fun t => present m t = false) tiles.

(** What the first loop puts in [data] for a tile: the bytes of its slot,
    or nil when it is in no slot or its slot holds the nil slice. *)
Definition served (nilp : Tile -> bool)
    (m : gmap Z (tileWithData * tileWithData)) (t : Tile) : option bytes :=
  if present m t
  then if nilp t && bool_decide (cached m t = []) then None
       else Some (cached m t)
  else None.

End EdgeMemoryCacheRead.

Module EdgeMemoryCacheReadFacts.
Import EdgeMemoryCache FillLoop EdgeMemoryCacheRead EdgeMemoryCacheFacts.

(** For tiles that are not the zero value, the first loop finds the bytes
    of the tiles in the slots and lists the others as missing. *)
Lemma lookup_all_spec nilp m tiles :
  Forall (fun t => t <> zeroTile) tiles ->
  lookup_all nilp m tiles = (served nilp m <$> tiles, absent_tiles m tiles).
Proof.
  unfold absent_tiles.
  induction tiles as [|t tiles IH]; intros Hnz; [reflexivity|].
  inversion Hnz as [|? ? Ht Htiles]; subst.
  cbn [lookup_all]. rewrite (IH Htiles). unfold served, present, cached, held.
  rewrite fmap_cons.
  destruct (decide (twTile (get m (tL t)).1 = t)) as [H0|H0].
  - rewrite (bool_decide_eq_true_2 _ H0). cbn [orb].
    rewrite filter_cons_False by (unfold present; rewrite (bool_decide_eq_true_2 _ H0); easy).
    rewrite decide_False by (intros Hz; rewrite Hz in H0; simpl in H0; congruence).
    rewrite H0. reflexivity.
  - rewrite (bool_decide_eq_false_2 _ H0). cbn [orb].
    destruct (decide (twTile (get m (tL t)).2 = t)) as [H1|H1].
    + rewrite (bool_decide_eq_true_2 _ H1).
      rewrite filter_cons_False
        by (unfold present; rewrite (bool_decide_eq_false_2 _ H0),
              (bool_decide_eq_true_2 _ H1); easy).
      rewrite decide_False by (intros Hz; rewrite Hz in H1; simpl in H1; congruence).
      rewrite H1. reflexivity.
    + rewrite (bool_decide_eq_false_2 _ H1).
      rewrite filter_cons_True
        by (unfold present; rewrite (bool_decide_eq_false_2 _ H0),
              (bool_decide_eq_false_2 _ H1); easy).
      reflexivity.
Qed.

(** Every tile that is in no slot leaves a nil in [data], and so does every
    slot that holds nil. *)
Lemma nils_served_ge nilp m tiles :
  (length (absent_tiles m tiles) <= nils (served nilp m <$> tiles))%nat.
Proof.
  unfold absent_tiles, served.
  induction tiles as [|t tiles IH]; [reflexivity|]. rewrite fmap_cons.
  destruct (present m t) eqn:Hp.
  - rewrite filter_cons_False by congruence.
    destruct (nilp t && _); rewrite ?nils_cons_None, ?nils_cons_Some; lia.
  - rewrite nils_cons_None, filter_cons_True by easy. simpl. lia.
Qed.



Section Facts.
Context {R E : Type} `{!TileReaderWithContext R E}.


(** X2.  When the inner reader answers without error but with fewer slices
    than the tiles it was asked for, [ReadTiles] panics: the fill loop
    indexes an empty [missingData].  It does so whether or not a slot holds
    the nil slice, which leaves more to fill, not less. *)
Theorem ReadTiles_short_answer_panics (nilp : Tile -> bool)
    (tiles : list Tile) (c : EdgeMemoryCache.t R) (md : list bytes) (r : R) :
  Forall well_formed tiles ->
  tr_ReadTiles (absent_tiles (slots c) tiles) (tr c) = (inr md, r) ->
  (length md < length (absent_tiles (slots c) tiles))%nat ->
  ReadTiles nilp tiles c = None.
Proof.
  intros Hwf Hread Hlen.
  assert (Hnz : Forall (fun t => t <> zeroTile) tiles).
  { eapply Forall_impl; [exact Hwf|]. intros t. apply well_formed_nonzero. }
  unfold ReadTiles. rewrite (lookup_all_spec _ _ _ Hnz).
  rewrite decide_False by (unfold len; lia).
  rewrite Hread.
  destruct (fill _ md) as [ds|] eqn:Hfill; [|reflexivity].
  assert (fill (served nilp (slots c) <$> tiles) md = None) as Hnone.
  { apply fill_None. pose proof (nils_served_ge nilp (slots c) tiles). lia. }
  congruence.
Qed.

End Facts.
End EdgeMemoryCacheReadFacts.

Module EdgeMemoryCacheMore.
Import EdgeMemoryCache EdgeMemoryCacheRead EdgeMemoryCacheFacts EdgeMemoryCacheReadFacts.

(** *** [tileLess] *)

Lemma tile_lt_trans (a b c : Tile) : tile_lt a b -> tile_lt b c -> tile_lt a c.
Proof.
  unfold tile_lt. intros [[? ?]|(? & ? & ?)] [[? ?]|(? & ? & ?)]; try congruence.
  - left. easy.
  - right. repeat split; try easy. lia.
Qed.

(** X6.  [tileLess] panics exactly on two non-zero tiles of different
    levels.  The zero tile is less than every tile, itself included, and no
    other tile is less than it or than itself; on the tiles it compares
    without panic the order is asymmetric and transitive, and two non-zero
    tiles of one level that differ in [N] or [W] are ordered one way or the
    other. *)
Theorem tileLess_order :
  (forall a b, tileLess a b = None
               <-> a <> zeroTile /\ b <> zeroTile /\ tL a <> tL b)
  /\ (forall b, tileLess zeroTile b = Some true)
  /\ (forall a, a <> zeroTile ->
        tileLess a zeroTile = Some false /\ tileLess a a = Some false)
  /\ (forall a b, a <> zeroTile -> tileLess a b = Some true ->
        tileLess b a = Some false)
  /\ (forall a b c, tileLess a b = Some true -> tileLess b c = Some true ->
        tileLess a c = Some true)
  /\ (forall a b, a <> zeroTile -> b <> zeroTile -> tL a = tL b ->
        (tN a, tW a) <> (tN b, tW b) ->
        tileLess a b = Some true \/ tileLess b a = Some true).
Proof.
  split; [|split; [|split; [|split; [|split]]]].
  - intros a b. unfold tileLess. repeat case_decide; split; try easy; tauto.
  - intros b. reflexivity.
  - intros a Ha. unfold tileLess. split.
    + rewrite decide_False by easy. reflexivity.
    + destruct (decide (a = zeroTile)); [easy|].
      destruct (decide (tL a <> tL a)); [easy|]. f_equal.
      rewrite (bool_decide_eq_false_2 (tN a < tN a)) by lia.
      rewrite (bool_decide_eq_false_2 (tW a < tW a)) by lia.
      now rewrite andb_false_r.
  - intros a b Ha. unfold tileLess.
    destruct (decide (a = zeroTile)); [easy|].
    destruct (decide (b = zeroTile)); [discriminate|].
    destruct (decide (tL a <> tL b)); [discriminate|].
    destruct (decide (tL b <> tL a)) as [Hx|_];
      [exfalso; apply Hx; destruct (decide (tL a = tL b)); [congruence | tauto]|].
    intros Hab. injection Hab as Hab.
    f_equal. apply orb_true_iff in Hab.
    rewrite andb_true_iff, !bool_decide_eq_true in Hab.
    apply orb_false_iff. rewrite andb_false_iff, !bool_decide_eq_false. lia.
  - intros a b c. unfold tileLess.
    destruct (decide (a = zeroTile)); [reflexivity|].
    destruct (decide (b = zeroTile)); [discriminate|].
    destruct (decide (tL a <> tL b)); [discriminate|].
    destruct (decide (c = zeroTile)); [easy|].
    destruct (decide (tL b <> tL c)); [discriminate|].
    destruct (decide (tL a <> tL c)) as [Hx|_];
      [exfalso; apply Hx; destruct (decide (tL a = tL b)), (decide (tL b = tL c));
       (congruence || tauto)|].
    intros Hab Hbc. injection Hab as Hab. injection Hbc as Hbc. f_equal.
    apply orb_true_iff in Hab, Hbc.
    rewrite andb_true_iff, !bool_decide_eq_true in Hab, Hbc.
    apply orb_true_iff. rewrite andb_true_iff, !bool_decide_eq_true. lia.
  - intros a b Ha Hb Hl Hne. unfold tileLess.
    destruct (decide (a = zeroTile)); [easy|].
    destruct (decide (b = zeroTile)); [easy|].
    destruct (decide (tL a <> tL b)); [easy|].
    destruct (decide (tL b <> tL a)); [congruence|].
    assert (tN a <> tN b \/ tW a <> tW b) as Hd.
    { destruct (decide (tN a = tN b)); [|tauto].
      destruct (decide (tW a = tW b)); [|tauto]. exfalso. apply Hne. congruence. }
    destruct (decide (tN a < tN b \/ (tN a = tN b /\ tW a < tW b))) as [Hlt|Hge].
    + left. f_equal. apply orb_true_iff.
      rewrite andb_true_iff, !bool_decide_eq_true. exact Hlt.
    + right. f_equal. apply orb_true_iff.
      rewrite andb_true_iff, !bool_decide_eq_true. lia.
Qed.

(** *** Batches *)

(** The tiles of a batch that are in no slot, with their data. *)
Definition fresh (m : gmap Z (tileWithData * tileWithData))
    (tiles : list Tile) (data : list bytes) : list (Tile * bytes) :=
  filter (fun p => present m p.1 = false) (zip tiles data).

Lemma to_forward_spec m tiles : forall data i,
  (i + length tiles <= length data)%nat ->
  to_forward m tiles data i
  = Some ((fresh m tiles (drop i data)).*1, (fresh m tiles (drop i data)).*2).
Proof.
  unfold fresh.
  induction tiles as [|t tiles IH]; intros data i Hlen; [reflexivity|].
  simpl in Hlen. cbn [to_forward].
  destruct (data !! i) as [d|] eqn:Hd; [|apply lookup_ge_None in Hd; lia].
  rewrite (drop_S _ _ _ Hd). cbn [zip zip_with].
  rewrite (IH data (S i)) by lia.
  destruct (present m t) eqn:Hp.
  - now rewrite filter_cons_False by (simpl; congruence).
  - now rewrite filter_cons_True by easy.
Qed.

Lemma update_slots_total tiles : forall m data i,
  slots_inv m -> Forall (fun t => 1 <= tW t) tiles ->
  (i + length tiles <= length data)%nat ->
  exists m', update_slots m tiles data i = Some m' /\ slots_inv m'.
Proof.
  induction tiles as [|t tiles IH]; intros m data i Hinv Hwf Hlen.
  - exists m. easy.
  - inversion Hwf as [|? ? Ht Htiles]; subst. simpl in Hlen.
    destruct (data !! i) as [d|] eqn:Hd; [|apply lookup_ge_None in Hd; lia].
    pose proof (update_slot_cases m t d Hinv (well_formed_nonzero t Ht)) as Hc.
    assert (exists m1, update_slot m t (Some d) = Some m1) as [m1 H1].
    { destruct (m !! tL t) as [[s0 s1]|]; repeat case_decide; eauto. }
    cbn [update_slots]. rewrite Hd, H1. simpl.
    apply IH; [|easy|lia]. eapply update_slot_inv; eauto.
Qed.


Lemma update_slots_app tiles1 : forall m tiles2 data i,
  update_slots m (tiles1 ++ tiles2) data i
  = m1 ← update_slots m tiles1 data i;
    update_slots m1 tiles2 data (i + length tiles1).
Proof.
  induction tiles1 as [|t tiles1 IH]; intros m tiles2 data i.
  - simpl. now rewrite Nat.add_0_r.
  - cbn [app update_slots]. destruct (update_slot m t (data !! i)) as [m1|];
      simpl; [|reflexivity].
    rewrite IH.
    destruct (update_slots m1 tiles1 data (S i)); simpl; [|reflexivity].
    f_equal. lia.
Qed.

(** When the bytes a stored case needs are there, more data changes
    nothing. *)
Lemma update_slots_more tiles : forall m data more i m',
  update_slots m tiles data i = Some m' ->
  (i + length tiles <= length data)%nat ->
  update_slots m tiles (data ++ more) i = Some m'.
Proof.
  induction tiles as [|t tiles IH]; intros m data more i m' H Hlen; [exact H|].
  simpl in Hlen. cbn [update_slots] in *.
  rewrite lookup_app_l by lia.
  destruct (update_slot m t (data !! i)) as [m1|]; simpl in *; [|discriminate].
  apply IH; [exact H | lia].
Qed.

Section Facts.
Context {R E : Type} `{!TileReaderWithContext R E}.

(** X3.  A cache that has only seen tiles of at least one leaf takes a
    batch of such tiles, with a slice for each, without panic, and hands
    the inner reader's [SaveTiles] exactly the tiles that were in no slot
    when the call began, with their data, in the order of the batch. *)
Theorem SaveTiles_batch (c : EdgeMemoryCache.t R) (tiles : list Tile)
    (data : list bytes) :
  reachable c -> Forall well_formed tiles ->
  (length tiles <= length data)%nat ->
  exists c',
    SaveTiles tiles data c = Some c'
    /\ reachable c'
    /\ tr c' = tr_SaveTiles (fresh (slots c) tiles data).*1
                 (fresh (slots c) tiles data).*2 (tr c).
Proof.
  intros Hreach Hwf Hlen.
  pose proof (observed_inv _ (reachable_observed _ Hreach)) as Hinv.
  destruct (update_slots_total tiles (slots c) data 0 Hinv Hwf ltac:(simpl; lia))
    as (m' & Hup & _).
  assert (SaveTiles tiles data c
          = Some (EdgeMemoryCache.mk
                    (tr_SaveTiles (fresh (slots c) tiles data).*1
                       (fresh (slots c) tiles data).*2 (tr c)) m')) as Hsave.
  { unfold SaveTiles. rewrite to_forward_spec by (simpl; lia).
    rewrite drop_0. simpl. now rewrite Hup. }
  eexists. split; [exact Hsave|]. split; [|reflexivity].
  eapply reachable_save; eauto.
Qed.


End Facts.
End EdgeMemoryCacheMore.

Module EdgeMemoryCacheEdges.
Import EdgeMemoryCache EdgeMemoryCacheRead EdgeMemoryCacheFacts
  EdgeMemoryCacheReadFacts EdgeMemoryCacheMore.

(** The slots of level [l] after saves of that level, most recent first:
    none, the one tile, or the last two in either order. *)
Definition last_two (l : Z) (recent : list (Tile * bytes))
    (m : gmap Z (tileWithData * tileWithData)) : Prop :=
  match recent with
  | [] => m !! l = None
  | [(t, d)] => m !! l = Some (mkTWD t d, zeroTWD)
  | (tn, dn) :: (tp, dp) :: _ =>
      m !! l = Some (mkTWD tn dn, mkTWD tp dp)
      \/ m !! l = Some (mkTWD tp dp, mkTWD tn dn)
  end.

Lemma tile_lt_nonzero (a b : Tile) : tile_lt a b -> b <> zeroTile.
Proof. unfold tile_lt. tauto. Qed.

Lemma update_slots_increasing (l : Z) (ts : list Tile) : forall ds,
  Forall (fun t => 1 <= tW t) ts -> Forall (fun t => tL t = l) ts ->
  StronglySorted tile_lt ts -> length ds = length ts ->
  exists m, update_slots ∅ ts ds 0 = Some m /\ slots_inv m
            /\ last_two l (reverse (zip ts ds)) m.
Proof.
  induction ts as [|t ts IH] using rev_ind; intros ds Hwf Hl Hsorted Hlen.
  - exists ∅. split; [reflexivity|]. split; [apply slots_inv_empty|].
    simpl. apply lookup_empty.
  - rewrite length_app in Hlen. simpl in Hlen.
    destruct (decide (ds = [])) as [->|Hne]; [simpl in Hlen; lia|].
    destruct (exists_last Hne) as (ds' & d & ->).
    rewrite length_app in Hlen. simpl in Hlen.
    apply Forall_app in Hwf as [Hwf Hwt]. apply Forall_app in Hl as [Hl Hlt].
    inversion Hwt as [|? ? Hw _]; subst. inversion Hlt as [|? ? Hlev _]; subst.
    pose proof (StronglySorted_app_1_l _ _ _ Hsorted) as Hsorted'.
    destruct (IH ds' Hwf Hl Hsorted' ltac:(lia)) as (m & Hup & Hinv & Hlast).
    rewrite update_slots_app.
    rewrite (update_slots_more _ _ _ [d] _ _ Hup) by (simpl; lia). simpl.
    rewrite lookup_app_r by lia.
    replace (length ts - length ds')%nat with 0%nat by lia. simpl.
    rewrite zip_with_app by lia. rewrite reverse_app. simpl.
    pose proof (well_formed_nonzero t Hw) as Hnz.
    pose proof (update_slot_cases m t d Hinv Hnz) as Hc.
    assert (Hbelow : forall x dx, (x, dx) ∈ reverse (zip ts ds') -> tile_lt x t).
    { intros x dx Hin. rewrite elem_of_reverse in Hin.
      apply (StronglySorted_app_1_elem_of _ _ _ _ _ Hsorted); [|left].
      apply (elem_of_zip_l _ _ _ _ Hin). }
    destruct (reverse (zip ts ds')) as [|[tn dn] [|[tp dp] rest]] eqn:Hrev;
      simpl in Hlast.
    + rewrite Hlast in Hc. rewrite Hc. simpl. eexists. split; [reflexivity|].
      split; [apply slots_inv_insert; auto|]. simpl. apply lookup_insert_eq.
    + rewrite Hlast in Hc. simpl in Hc.
      assert (Hn : tile_lt tn t) by (apply (Hbelow tn dn); left).
      assert (tn <> t) by (intros ->; now apply tile_lt_irrefl in Hn).
      destruct (Hinv _ _ _ Hlast) as (Htn & Htnl & _). simpl in Htn, Htnl.
      rewrite decide_False in Hc by (simpl; intuition congruence).
      rewrite decide_False in Hc
        by (intros [_ Hx]; apply tile_lt_nonzero in Hx; simpl in Hx; congruence).
      rewrite decide_True in Hc
        by (split; left; (split; [reflexivity | easy])).
      rewrite Hc. simpl. eexists. split; [reflexivity|].
      split; [apply slots_inv_insert; auto|].
      right. apply lookup_insert_eq.
    + assert (Hn : tile_lt tn t) by (apply (Hbelow tn dn); left).
      assert (Hp : tile_lt tp t) by (apply (Hbelow tp dp); right; left).
      assert (Hpn : tile_lt tp tn).
      { assert (StronglySorted tile_lt (reverse (reverse (zip ts ds')).*1)) as Hs.
        { rewrite <- fmap_reverse, reverse_involutive.
          rewrite fst_zip by lia. exact Hsorted'. }
        rewrite Hrev in Hs. rewrite !fmap_cons in Hs. simpl in Hs.
        rewrite !reverse_cons in Hs. rewrite <- app_assoc in Hs.
        apply StronglySorted_app_1_r in Hs. simpl in Hs.
        inversion Hs as [|? ? _ Hall]; subst.
        now inversion Hall. }
      assert (tn <> t) by (intros ->; now apply tile_lt_irrefl in Hn).
      assert (tp <> t) by (intros ->; now apply tile_lt_irrefl in Hp).
      destruct Hlast as [Hlast|Hlast]; rewrite Hlast in Hc; simpl in Hc;
        destruct (Hinv _ _ _ Hlast) as (Ha & Hal & Hb); simpl in Ha, Hal, Hb.
      * rewrite decide_False in Hc by (simpl; intuition congruence).
        rewrite decide_False in Hc
          by (intros [_ Hx]; now apply tile_lt_asym in Hx).
        rewrite decide_True in Hc by easy.
        rewrite Hc. simpl. eexists. split; [reflexivity|].
        split; [apply slots_inv_insert; auto|].
        right. apply lookup_insert_eq.
      * rewrite decide_False in Hc by (simpl; intuition congruence).
        rewrite decide_True in Hc by easy.
        rewrite Hc. simpl. eexists. split; [reflexivity|].
        split; [apply slots_inv_insert; simpl; auto using well_formed_nonzero|].
        left. apply lookup_insert_eq.
Qed.

Section Facts.
Context {R E : Type} `{!TileReaderWithContext R E}.

(** X4.  The cache keeps the two most recent tiles of a level that is
    saved in increasing order, as the engine saves data tiles: after tiles
    of one level, each of at least one leaf and each greater than the one
    before, were saved into a new cache, a request for the last two is
    answered with the bytes saved, and the inner reader is not asked,
    whether or not a slice saved was nil. *)
Theorem last_two_saved_are_read_back (inner : R) (l : Z)
    (front : list Tile) (tp tn : Tile) (dfront : list bytes) (dp dn : bytes) :
  Forall well_formed (front ++ [tp; tn]) ->
  Forall (fun t => tL t = l) (front ++ [tp; tn]) ->
  StronglySorted tile_lt (front ++ [tp; tn]) ->
  length dfront = length front ->
  exists c',
    SaveTiles (front ++ [tp; tn]) (dfront ++ [dp; dn]) (new inner) = Some c'
    /\ tr c' = tr_SaveTiles (front ++ [tp; tn]) (dfront ++ [dp; dn]) inner
    /\ forall nilp, ReadTiles nilp [tp; tn] c' = Some (inr [dp; dn], c').
Proof.
  intros Hwf Hl Hsorted Hlen.
  destruct (update_slots_increasing l (front ++ [tp; tn]) (dfront ++ [dp; dn])
              Hwf Hl Hsorted ltac:(rewrite !length_app; simpl; lia))
    as (m & Hup & Hinv & Hlast).
  rewrite zip_with_app in Hlast by lia. rewrite reverse_app in Hlast.
  simpl in Hlast.
  assert (Hfresh : fresh ∅ (front ++ [tp; tn]) (dfront ++ [dp; dn])
                   = zip (front ++ [tp; tn]) (dfront ++ [dp; dn])).
  { unfold fresh. apply filter_all. intros [t d] Hin.
    simpl. unfold present, EdgeMemoryCache.get. rewrite lookup_empty. simpl.
    apply elem_of_zip_l in Hin.
    rewrite Forall_forall in Hwf. apply Hwf in Hin.
    apply well_formed_nonzero in Hin.
    rewrite !bool_decide_eq_false_2 by congruence. reflexivity. }
  assert (SaveTiles (front ++ [tp; tn]) (dfront ++ [dp; dn]) (new inner)
          = Some (EdgeMemoryCache.mk
                    (tr_SaveTiles (front ++ [tp; tn]) (dfront ++ [dp; dn]) inner)
                    m)) as Hsave.
  { unfold SaveTiles, new. cbn [slots tr].
    rewrite to_forward_spec by (rewrite !length_app; simpl; lia).
    rewrite drop_0, Hfresh. simpl. rewrite Hup. simpl.
    rewrite fst_zip, snd_zip by (rewrite !length_app; simpl; lia). reflexivity. }
  eexists. split; [exact Hsave|]. split; [reflexivity|]. intros nilp.
  assert (Hheld : forall t d, t <> zeroTile ->
            default [] (held nilp (mkTWD t d)) = d).
  { intros t d Ht. unfold held.
    destruct (decide (mkTWD t d = zeroTWD)) as [Hz|_]; [inversion Hz; congruence|].
    cbn [twTile twData]. destruct (nilp t); [|reflexivity].
    destruct (decide (d = [])) as [->|Hd]; [reflexivity|].
    now rewrite (bool_decide_eq_false_2 _ Hd). }
  apply Forall_app in Hwf as [_ Hwf2]. apply Forall_app in Hl as [_ Hl2].
  inversion Hwf2 as [|? ? Hwp Hwf3]; subst. inversion Hwf3 as [|? ? Hwn _]; subst.
  inversion Hl2 as [|? ? Hlp Hl3]; subst. inversion Hl3 as [|? ? Hln _]; subst.
  apply well_formed_nonzero in Hwp, Hwn.
  assert (Hpn : tile_lt tp tn).
  { apply StronglySorted_app_1_r in Hsorted.
    inversion Hsorted as [|? ? _ Hall]; subst. now inversion Hall. }
  assert (tp <> tn) by (intros ->; now apply tile_lt_irrefl in Hpn).
  unfold ReadTiles. cbn [lookup_all slots tr]. unfold EdgeMemoryCache.get.
  rewrite Hln.
  destruct Hlast as [Hm|Hm]; rewrite Hm; cbn [default from_option id fst snd twTile twData].
  - destruct (decide (tn = tp)); [congruence|].
    destruct (decide (tp = tp)); [|congruence].
    destruct (decide (tn = tn)); [|congruence].
    cbn [fmap list_fmap]. now rewrite !Hheld.
  - destruct (decide (tp = tp)); [|congruence].
    destruct (decide (tp = tn)); [congruence|].
    destruct (decide (tn = tn)); [|congruence].
    cbn [fmap list_fmap]. now rewrite !Hheld.
Qed.

End Facts.
End EdgeMemoryCacheEdges.

(** A reader for examples that answers every request with no slice at
    all. *)
Module Stingy.
Definition t : Type := unit.
#[global] Instance reader : TileReaderWithContext t unit := {|
  tr_ReadTiles := fun _ r => (inr [], r);
  tr_SaveTiles := fun _ _ r => r
|}.
End Stingy.

Module EdgeMemoryCacheExamples.
Import EdgeMemoryCache EdgeMemoryCacheRead EdgeMemoryCacheFacts
  EdgeMemoryCacheReadFacts EdgeMemoryCacheMore EdgeMemoryCacheEdges.


Lemma tiles_AB_well_formed : Forall well_formed [tileA; tileB].
Proof. repeat constructor; unfold well_formed; simpl; lia. Qed.


Lemma ReadTiles_short_answer_panics_witness :
  Forall well_formed [tileA; tileB]
  /\ ReadTiles (fun _ => false) [tileA; tileB]
       (EdgeMemoryCache.new (tt : Stingy.t)) = None.
Proof.
  split; [exact tiles_AB_well_formed|].
  assert (Hread : tr_ReadTiles (E := unit)
                    (absent_tiles (slots (EdgeMemoryCache.new (tt : Stingy.t)))
                       [tileA; tileB])
                    (tr (EdgeMemoryCache.new (tt : Stingy.t)))
                  = (inr [], tt)) by reflexivity.
  apply (ReadTiles_short_answer_panics (fun _ => false) [tileA; tileB]
           (EdgeMemoryCache.new (tt : Stingy.t)) [] tt tiles_AB_well_formed Hread).
  vm_compute. lia.
Defined.

Lemma SaveTiles_batch_witness :
  reachable cacheA /\ Forall well_formed [tileA; tileB]
  /\ exists c',
       SaveTiles [tileA; tileB] [[Byte.x61]; [Byte.x62]] cacheA = Some c'
       /\ tr c' = [([tileB], [[Byte.x62]]); ([tileA], [[Byte.x61]])].
Proof.
  split; [exact cacheA_reachable|]. split; [exact tiles_AB_well_formed|].
  destruct (SaveTiles_batch cacheA [tileA; tileB] [[Byte.x61]; [Byte.x62]]
              cacheA_reachable tiles_AB_well_formed ltac:(simpl; lia))
    as (c' & Hsave & _ & Htr).
  exists c'. split; [exact Hsave | exact Htr].
Defined.

Lemma tile_lt_AB : tile_lt tileA tileB.
Proof. right. repeat split; try discriminate. left. simpl. lia. Qed.

Lemma tiles_AB_sorted : StronglySorted tile_lt [tileA; tileB].
Proof.
  apply SSorted_cons; [apply SSorted_cons; [apply SSorted_nil | constructor]|].
  constructor; [exact tile_lt_AB | constructor].
Qed.

Lemma last_two_saved_are_read_back_witness :
  exists c',
    SaveTiles [tileA; tileB] [[Byte.x61]; [Byte.x62]] (new ([] : Recorder.t))
    = Some c'
    /\ ReadTiles (fun _ => false) [tileA; tileB] c'
       = Some (inr [[Byte.x61]; [Byte.x62]], c').
Proof.
  destruct (last_two_saved_are_read_back ([] : Recorder.t) 0 [] tileA tileB []
              [Byte.x61] [Byte.x62] tiles_AB_well_formed
              ltac:(repeat constructor)
              tiles_AB_sorted eq_refl)
    as (c' & Hsave & _ & Hread).
  exists c'. split; [exact Hsave | exact (Hread (fun _ => false))].
Defined.


End EdgeMemoryCacheExamples.

(** ** Reading through the permanent cache *)

Module PermanentCacheRead.
Import PermanentCache.

(** The errors of [PermanentCache.ReadTiles]: its own, those of
    [os.ReadFile] and those of the inner reader. *)
Inductive read_error (E : Type) : Type :=
| UnexpectedHeight (h : Z)
| ReadFileErr (e : E)
| IsDirectory (path : string)
| InnerErr (e : E).
Arguments UnexpectedHeight {E}.
Arguments ReadFileErr {E}.
Arguments IsDirectory {E}.
Arguments InnerErr {E}.

(** What [os.ReadFile] answers: the contents, an error that is
    [os.ErrNotExist], or another error. *)
Inductive read_result (E : Type) : Type :=
| ReadOk (d : bytes)
| ReadNotExist
| ReadOther (e : read_error E).
Arguments ReadOk {E}.
Arguments ReadNotExist {E}.
Arguments ReadOther {E}.

(** [os.ReadFile(path)] on the disk [d].  [refused] is the error of a read
    the operating system refuses; otherwise a file gives its contents,
    reading a directory is an error, and a path with nothing at it does not
    exist. *)
Definition read_file {E} (d : disk) (path : string) (refused : option E)
  : read_result E :=
  match refused with
  | Some e => ReadOther (ReadFileErr e)
  | None =>
      match files d !! path with
      | Some b => ReadOk b
      | None =>
          if decide (path ∈ dirs d) then ReadOther (IsDirectory path)
          else ReadNotExist
      end
  end.

Section Methods.
Context {R E : Type} `{!TileReaderWithContext R E}.
(** [filepath.Join] *)
Variable filepath_Join : string -> string -> string.

(** The first loop of [ReadTiles], from the tile of index [i] on: [data],
    nil where the file does not exist, and [missing]; or the error the
    method returns from inside the loop.  The slice [os.ReadFile] returns
    without error is never nil. *)
Fixpoint read_loop (os : nat -> option E) (tiles : list Tile) (i : nat)
    (w : world R)
  : world R * (read_error E + list (option bytes) * list Tile) :=
  match tiles with
  | [] => (w, inr ([], []))
  | tl :: tiles' =>
      if decide (tH tl <> TileHeight) then (w, inl (UnexpectedHeight (tH tl)))
      else
        let path := path_of filepath_Join (cache w) tl in
        match read_file (on_disk w) path (os i) with
        | ReadNotExist =>
            match read_loop os tiles' (S i) w with
            | (w, inr (data, missing)) => (w, inr (None :: data, tl :: missing))
            | stopped => stopped
            end
        | ReadOther e => (w, inl e)
        | ReadOk d =>
            let w := say w (LogInfo "loaded tile from cache") in
            match read_loop os tiles' (S i) w with
            | (w, inr (data, missing)) => (w, inr (Some d :: data, missing))
            | stopped => stopped
            end
        end
  end.

(** The state after [c.tr.ReadTiles] left the inner reader as [r]. *)
Definition with_reader (r : R) (w : world R) : world R :=
  mkWorld (mk r (dir (cache w)) (tilePath (cache w)))
    (on_disk w) (logged w) (os_calls w).

(** [PermanentCache.ReadTiles]; [os i] is what the operating system does
    to the read of the tile of index [i], and a result of [None] is the
    panic of the fill loop.  In the result a nil slice reads as the empty
    one.  The reads are not among the recorded calls. *)
Definition ReadTiles (os : nat -> option E) (tiles : list Tile) (w : world R)
  : world R * option (read_error E + list bytes) :=
  match read_loop os tiles 0 w with
  | (w, inl e) => (w, Some (inl e))
  | (w, inr (data, missing)) =>
      if decide (len missing = 0) then (w, Some (inr (default [] <$> data)))
      else
        let '(res, r) := tr_ReadTiles missing (tr (cache w)) in
        let w := with_reader r w in
        match res with
        | inl e => (w, Some (inl (InnerErr e)))
        | inr missingData =>
            (w, (fun ds => inr ds) <$> FillLoop.fill data missingData)
        end
  end.

(** The tiles of a request that have no file on the disk. *)
Definition not_on_disk (w : world R) (tiles : list Tile) : list Tile :=
  filter (fun tl => files (on_disk w) !! path_of filepath_Join (cache w) tl = None)
    tiles.

(** The contents of the file of a tile, empty when there is none. *)
Definition on_disk_data (w : world R) (tl : Tile) : bytes :=
  default [] (files (on_disk w) !! path_of filepath_Join (cache w) tl).

End Methods.
End PermanentCacheRead.

Module PermanentCacheReadFacts.
Import PermanentCache FillLoop PermanentCacheRead.

Section Facts.
Context {R E : Type} `{!TileReaderWithContext R E}.
Variable filepath_Join : string -> string -> string.
Variable filepath_Dir : string -> string.

Abbreviation path_of := (path_of filepath_Join).
Abbreviation read_loop := (read_loop (R := R) (E := E) filepath_Join).
Abbreviation ReadTiles := (ReadTiles filepath_Join).
Abbreviation not_on_disk := (not_on_disk (R := R) filepath_Join).
Abbreviation on_disk_data := (on_disk_data (R := R) filepath_Join).
Abbreviation SaveTiles := (SaveTiles filepath_Join filepath_Dir).

(** The loop changes nothing but the log. *)
Lemma read_loop_keeps os tiles : forall i (w : world R),
  cache (read_loop os tiles i w).1 = cache w
  /\ on_disk (read_loop os tiles i w).1 = on_disk w
  /\ os_calls (read_loop os tiles i w).1 = os_calls w.
Proof.
  induction tiles as [|tl tiles IH]; intros i w; simpl; [easy|].
  case_decide; [easy|].
  destruct (read_file _ _ _) as [d| |e]; [| |easy].
  - specialize (IH (S i) (say w (LogInfo "loaded tile from cache"))).
    destruct (read_loop os tiles (S i) _) as [w' [e|[data missing]]]; exact IH.
  - specialize (IH (S i) w).
    destruct (read_loop os tiles (S i) w) as [w' [e|[data missing]]]; exact IH.
Qed.

Lemma read_file_error (d : disk) path (refused : option E) e :
  read_file d path refused = ReadOther e -> forall e', e <> InnerErr e'.
Proof.
  unfold read_file. destruct refused; [intros Hr; inversion Hr; discriminate|].
  destruct (files d !! path); [discriminate|].
  case_decide; [|discriminate]. intros Hr; inversion Hr; discriminate.
Qed.

(** A tile of another height stops the loop with an error, unless a read
    before it already did. *)
Lemma read_loop_wrong_height os tiles : forall i (w : world R),
  Exists (fun tl => tH tl <> TileHeight) tiles ->
  exists e, (read_loop os tiles i w).2 = inl e /\ forall e', e <> InnerErr e'.
Proof.
  induction tiles as [|tl tiles IH]; intros i w Hex; [inversion Hex|].
  simpl. case_decide as Hh; [eexists; split; [reflexivity | discriminate]|].
  apply Exists_cons in Hex as [Hex|Hex]; [easy|].
  destruct (read_file _ _ _) as [d| |e] eqn:Hr.
  - destruct (IH (S i) (say w (LogInfo "loaded tile from cache")) Hex)
      as (e & He & Hne).
    destruct (PermanentCacheRead.read_loop _ os tiles (S i) _)
      as [w' [e'|[data missing]]]; simpl in *; [|discriminate]. eauto.
  - destruct (IH (S i) w Hex) as (e & He & Hne).
    destruct (PermanentCacheRead.read_loop _ os tiles (S i) w)
      as [w' [e'|[data missing]]]; simpl in *; [|discriminate]. eauto.
  - exists e. split; [reflexivity|]. eapply read_file_error; eauto.
Qed.

(** X8.  A request that holds a tile of another height than [TileHeight]
    is refused as a whole: [ReadTiles] returns an error of its own or of
    [os.ReadFile], and neither asks the inner reader nor touches the disk,
    whatever the files and the operating system. *)
Theorem ReadTiles_wrong_height (os : nat -> option E) (tiles : list Tile)
    (w : world R) :
  Exists (fun tl => tH tl <> TileHeight) tiles ->
  (exists e, (ReadTiles os tiles w).2 = Some (inl e)
             /\ forall e', e <> InnerErr e')
  /\ cache (ReadTiles os tiles w).1 = cache w
  /\ on_disk (ReadTiles os tiles w).1 = on_disk w.
Proof.
  intros Hex. unfold PermanentCacheRead.ReadTiles.
  destruct (read_loop_wrong_height os tiles 0 w Hex) as (e & He & Hne).
  destruct (read_loop_keeps os tiles 0 w) as (Hc & Hd & _).
  destruct (PermanentCacheRead.read_loop _ os tiles 0 w)
    as [w' [e'|[data missing]]]; simpl in *; [|discriminate].
  inversion He; subst. eauto.
Qed.

(** With every tile of the right height, no read refused and no directory
    in the way, the loop finds the files that are there. *)
Lemma read_loop_spec os tiles : forall i (w : world R),
  Forall (fun tl => tH tl = TileHeight) tiles ->
  (forall j, os j = None) ->
  (forall tl, tl ∈ tiles -> files (on_disk w) !! path_of (cache w) tl = None ->
              path_of (cache w) tl ∉ dirs (on_disk w)) ->
  (read_loop os tiles i w).2
  = inr ((fun tl => files (on_disk w) !! path_of (cache w) tl) <$> tiles,
         not_on_disk w tiles).
Proof.
  unfold PermanentCacheRead.not_on_disk.
  induction tiles as [|tl tiles IH]; intros i w Hh Hos Hdirs; [reflexivity|].
  inversion Hh as [|? ? Htl Htiles]; subst.
  simpl. rewrite decide_False by (intros Hx; now apply Hx).
  unfold read_file. rewrite Hos.
  destruct (files (on_disk w) !! path_of (cache w) tl) as [b|] eqn:Hf.
  - pose proof (IH (S i) (say w (LogInfo "loaded tile from cache")) Htiles Hos
                  ltac:(intros t Ht; apply Hdirs; now right)) as Hrec.
    destruct (PermanentCacheRead.read_loop _ os tiles (S i) _) as [w' res].
    cbn [fst snd say cache on_disk] in Hrec. subst res. cbn [fst snd].
    now rewrite filter_cons_False by (rewrite Hf; easy).
  - rewrite decide_False by (apply Hdirs; [left | exact Hf]).
    pose proof (IH (S i) w Htiles Hos
                  ltac:(intros t Ht; apply Hdirs; now right)) as Hrec.
    destruct (PermanentCacheRead.read_loop _ os tiles (S i) w) as [w' res].
    cbn [fst snd] in Hrec. subst res. cbn [fst snd].
    now rewrite filter_cons_True by exact Hf.
Qed.

Lemma nils_files (w : world R) tiles :
  nils ((fun tl => files (on_disk w) !! path_of (cache w) tl) <$> tiles)
  = length (not_on_disk w tiles).
Proof.
  unfold PermanentCacheRead.not_on_disk.
  induction tiles as [|tl tiles IH]; [reflexivity|]. rewrite fmap_cons.
  destruct (files (on_disk w) !! path_of (cache w) tl) eqn:Hf.
  - rewrite nils_cons_Some, filter_cons_False by (rewrite Hf; easy). exact IH.
  - rewrite nils_cons_None, filter_cons_True by easy. simpl. now rewrite IH.
Qed.

(** X7.  With every tile of height [TileHeight], no read refused and no
    directory at the path of a tile, a request is served from the files
    that are there: when every tile has its file the inner reader is not
    asked at all; otherwise it is asked once, for the tiles without a file,
    in the order of the request.  Its error is passed on; its answer, when
    it has a slice for every tile asked, is merged with the contents of the
    files, one slice per tile in the order of the request.  The disk is left
    as it was. *)
Theorem ReadTiles_serves_files (os : nat -> option E) (tiles : list Tile)
    (w : world R) :
  Forall (fun tl => tH tl = TileHeight) tiles ->
  (forall j, os j = None) ->
  (forall tl, tl ∈ tiles -> path_of (cache w) tl ∉ dirs (on_disk w)) ->
  let missing := not_on_disk w tiles in
  on_disk (ReadTiles os tiles w).1 = on_disk w
  /\ (missing = [] ->
      (ReadTiles os tiles w).2 = Some (inr (on_disk_data w <$> tiles))
      /\ cache (ReadTiles os tiles w).1 = cache w)
  /\ (missing <> [] -> forall e r,
      tr_ReadTiles missing (tr (cache w)) = (inl e, r) ->
      (ReadTiles os tiles w).2 = Some (inl (InnerErr e))
      /\ tr (cache (ReadTiles os tiles w).1) = r)
  /\ (missing <> [] -> forall md r,
      tr_ReadTiles missing (tr (cache w)) = (inr md, r) ->
      (length missing <= length md)%nat ->
      exists ds,
        (ReadTiles os tiles w).2 = Some (inr ds)
        /\ tr (cache (ReadTiles os tiles w).1) = r
        /\ length ds = length tiles
        /\ forall i tl, tiles !! i = Some tl ->
             ds !! i = match files (on_disk w) !! path_of (cache w) tl with
                       | Some b => Some b
                       | None => md !! length (not_on_disk w (take i tiles))
                       end).
Proof.
  intros Hh Hos Hdirs missing.
  pose proof (read_loop_spec os tiles 0 w Hh Hos
                ltac:(intros tl Htl _; now apply Hdirs)) as Hloop.
  destruct (read_loop_keeps os tiles 0 w) as (Hc & Hd & _).
  unfold PermanentCacheRead.ReadTiles.
  destruct (PermanentCacheRead.read_loop _ os tiles 0 w) as [w' res].
  simpl in Hloop, Hc, Hd. subst res. fold missing.
  split; [|split; [|split]].
  - case_decide; [exact Hd|]. rewrite Hc.
    destruct (tr_ReadTiles missing (tr (cache w))) as [[e|md] r]; exact Hd.
  - intros Hnone. rewrite Hnone. rewrite decide_True by reflexivity. simpl.
    split; [|exact Hc]. do 2 f_equal. rewrite <- list_fmap_compose.
    reflexivity.
  - intros Hsome e r Hread.
    rewrite decide_False by (destruct missing; [easy | unfold len; simpl; lia]).
    rewrite Hc, Hread. easy.
  - intros Hsome md r Hread Hlen.
    rewrite decide_False by (destruct missing; [easy | unfold len; simpl; lia]).
    rewrite Hc, Hread. simpl.
    destruct (fill _ md) as [ds|] eqn:Hfill.
    2:{ apply fill_None in Hfill. rewrite nils_files in Hfill.
        fold missing in Hfill. lia. }
    exists ds. split; [reflexivity|]. split; [reflexivity|].
    destruct (fill_Some _ _ _ Hfill) as [Hl Hat].
    rewrite length_fmap in Hl. split; [exact Hl|].
    intros i tl Ht. specialize (Hat i).
    rewrite list_lookup_fmap, Ht in Hat. simpl in Hat.
    destruct (files (on_disk w) !! path_of (cache w) tl); [exact Hat|].
    rewrite Hat, <- fmap_take, nils_files. reflexivity.
Qed.

(** X9.  A full tile saved is a tile read back: after [SaveTiles] of one
    tile of height [TileHeight] and full width, with [os.MkdirAll] and
    [os.WriteFile] succeeding and no directory at the tile's path,
    [ReadTiles] returns the bytes saved, or those of the file that was
    already there, and does not ask the inner reader. *)
Theorem SaveTiles_then_ReadTiles (o : os_outcome) (tl : Tile) (d : bytes)
    (w : world R) :
  tH tl = TileHeight -> tW tl = TileWidth ->
  path_of (cache w) tl ∉ dirs (on_disk w) ->
  mkdir_fails o = false -> write_res o = WriteOk ->
  let w1 := (SaveTiles (fun _ => o) [tl] [d] w).1 in
  let r := ReadTiles (fun _ => None) [tl] w1 in
  r.2 = Some (inr [default d (files (on_disk w) !! path_of (cache w) tl)])
  /\ tr (cache r.1) = tr_SaveTiles [tl] [d] (tr (cache w))
  /\ on_disk r.1 = on_disk w1.
Proof.
  intros Hh Hw Hdir Hmk Hwr w1 r.
  assert (Hsaved : cache w1 = PermanentCache.mk
                                (tr_SaveTiles [tl] [d] (tr (cache w)))
                                (dir (cache w)) (tilePath (cache w))
                   /\ files (on_disk w1) !! path_of (cache w) tl
                      = Some (default d (files (on_disk w) !! path_of (cache w) tl))).
  { subst w1. unfold PermanentCache.SaveTiles, PermanentCache.save_loop,
      PermanentCache.save_tile.
    rewrite decide_False by (intros Hx; now apply Hx).
    rewrite decide_False by (intros Hx; now apply Hx).
    cbn [lookup list_lookup]. cbv zeta.
    unfold stat, call. cbn [on_disk cache].
    rewrite (bool_decide_eq_false_2 (path_of (cache w) tl ∈ dirs (on_disk w)))
      by exact Hdir.
    rewrite orb_false_r.
    destruct (files (on_disk w) !! path_of (cache w) tl) as [b|] eqn:Hf.
    - rewrite bool_decide_eq_true_2 by eauto. simpl. easy.
    - rewrite bool_decide_eq_false_2 by (intros [? ?]; congruence).
      rewrite Hmk, Hwr. simpl. split; [reflexivity|]. apply lookup_insert_eq. }
  destruct Hsaved as [Hcache Hfile].
  assert (Hpath : path_of (cache w1) tl = path_of (cache w) tl)
    by (now rewrite Hcache).
  subst r. clearbody w1.
  unfold PermanentCacheRead.ReadTiles. cbn [PermanentCacheRead.read_loop].
  rewrite decide_False by (intros Hx; now apply Hx).
  unfold read_file. rewrite Hpath, Hfile.
  cbn [fst snd]. rewrite decide_True by reflexivity.
  cbn [fst snd say cache on_disk]. rewrite Hcache. easy.
Qed.

End Facts.
End PermanentCacheReadFacts.

Module PermanentCacheReadExamples.
Import PermanentCache PermanentCacheRead PermanentCacheFacts PermanentCacheReadFacts.

(** The cache directory of the examples after the full tile was saved. *)
Definition savedWorld : world Recorder.t :=
  (SaveTiles join id (fun _ => mkOs false ∅ WriteOk) [fullTile] [[Byte.x61]]
     emptyWorld).1.

Lemma ReadTiles_serves_files_witness :
  Forall (fun tl => tH tl = TileHeight) [fullTile]
  /\ (ReadTiles join (fun _ => None) [fullTile] savedWorld).2
     = Some (inr [[Byte.x61]])
  /\ cache (ReadTiles join (fun _ => None) [fullTile] savedWorld).1
     = cache savedWorld.
Proof.
  assert (Hh : Forall (fun tl => tH tl = TileHeight) [fullTile])
    by (repeat constructor).
  split; [exact Hh|].
  destruct (ReadTiles_serves_files join (fun _ : nat => @None unit) [fullTile]
              savedWorld Hh (fun _ => eq_refl)
              (fun tl _ => not_elem_of_empty (C := gset string) _))
    as (_ & Hall & _).
  exact (Hall eq_refl).
Defined.

Lemma ReadTiles_wrong_height_witness :
  Exists (fun tl => tH tl <> TileHeight) [fullTile; mkTile 9 0 0 256]
  /\ (ReadTiles join (fun _ => None) [fullTile; mkTile 9 0 0 256] savedWorld).2
     = Some (inl (UnexpectedHeight 9))
  /\ cache (ReadTiles join (fun _ => None) [fullTile; mkTile 9 0 0 256]
              savedWorld).1 = cache savedWorld.
Proof.
  assert (Hex : Exists (fun tl => tH tl <> TileHeight)
                  [fullTile; mkTile 9 0 0 256])
    by (right; left; discriminate).
  split; [exact Hex|].
  destruct (ReadTiles_wrong_height join (fun _ : nat => @None unit)
              [fullTile; mkTile 9 0 0 256] savedWorld Hex)
    as (_ & Hcache & _).
  split; [reflexivity | exact Hcache].
Defined.

Lemma SaveTiles_then_ReadTiles_witness :
  (ReadTiles join (fun _ => None) [fullTile] savedWorld).2
  = Some (inr [[Byte.x61]])
  /\ tr (cache (ReadTiles join (fun _ => None) [fullTile] savedWorld).1)
     = [([fullTile], [[Byte.x61]])].
Proof.
  destruct (SaveTiles_then_ReadTiles join id (mkOs false ∅ WriteOk) fullTile
              [Byte.x61] emptyWorld eq_refl eq_refl
              (not_elem_of_empty (C := gset string) _) eq_refl eq_refl)
    as (Hres & Htr & _).
  split; [exact Hres | exact Htr].
Defined.

End PermanentCacheReadExamples.

(** ** How a tile request ends *)

Module TileFetcherOutcome.
Import TileFetcher.

Section Outcome.
Context {E : Type}.
Variable Atoi : string -> option Z.
Variable ParseTime : string -> option Time.

Abbreviation attempts := (attempts Atoi ParseTime).
Abbreviation fetch := (fetch Atoi ParseTime).

(** The error an attempt that is retried adds to [errs]. *)
Definition error_of (a : attempt E) : option (attempt_error E) :=
  match a with
  | DoError e => Some (Failed e)
  | Response status _ body =>
      if decide (status = 429 \/ status >= 500) then Some (UnexpectedStatus status)
      else if decide (status <> 200) then None
      else match body with
           | inl e => Some (Failed e)
           | inr _ => None
           end
  end.

(** The attempts from [j] up to [j + m] were all retried, and the context
    was not done in the pauses ahead of them. *)
Definition retried (w : env E) (j m : nat) : Prop :=
  forall k, (j <= k < j + m)%nat ->
    retryable (net w k) /\ ((0 < k)%nat -> cancelled w k = false).

Lemma retryable_error_of (a : attempt E) :
  retryable a <-> is_Some (error_of a).
Proof.
  unfold retryable, error_of, retryable_status.
  destruct a as [e|status header [e|d]]; repeat case_decide;
    split; intros Hx; try (now eauto); try lia;
    try (destruct Hx as [? Hx]; discriminate).
Qed.

Lemma retried_0 (w : env E) (j : nat) : retried w j 0.
Proof. intros k Hk. lia. Qed.

Lemma retried_S (w : env E) (j m : nat) :
  retried w j (S m)
  <-> retryable (net w j) /\ ((0 < j)%nat -> cancelled w j = false)
      /\ retried w (S j) m.
Proof.
  unfold retried. split.
  - intros Hall. split; [apply Hall; lia|]. split; [apply Hall; lia|].
    intros k Hk. apply Hall. lia.
  - intros (H0 & H1 & Hrest) k Hk.
    destruct (decide (k = j)) as [->|Hne]; [easy|]. apply Hrest. lia.
Qed.

(** One turn of the loop, by what the attempt meets. *)
Lemma attempts_S (w : env E) (n j : nat) ra errs tr :
  exists ra' tr',
    TileFetcher.attempts Atoi ParseTime w (S n) j ra errs tr
    = if decide ((0 < j)%nat /\ cancelled w j = true)
      then (tr', inl ContextDone)
      else match net w j with
           | DoError e => attempts w n (S j) ra' (errs ++ [Failed e])
                            (tr' ++ [Requested j])
           | Response status header body =>
               if decide (status = 429 \/ status >= 500) then
                 attempts w n (S j) (parseRetryAfter Atoi ParseTime (clock w j) header)
                   (errs ++ [UnexpectedStatus status]) (tr' ++ [Requested j])
               else if decide (status <> 200)
               then (tr' ++ [Requested j], inl (FatalStatus status))
               else match body with
                    | inl e => attempts w n (S j) ra' (errs ++ [Failed e])
                                 (tr' ++ [Requested j])
                    | inr d => (tr' ++ [Requested j], inr d)
                    end
           end.
Proof.
  cbn [TileFetcher.attempts].
  destruct (decide (0 < j)%nat) as [Hj|Hj].
  - exists zeroTime,
      (tr ++ [Retrying j (if IsZero ra then For (backoff j) else Until ra)]).
    destruct (cancelled w j) eqn:Hc.
    + rewrite decide_True by easy. reflexivity.
    + rewrite decide_False by (intros [_ ?]; congruence). reflexivity.
  - exists ra, tr. rewrite decide_False by tauto. reflexivity.
Qed.

Lemma attempts_success (w : env E) (n : nat) : forall j ra errs tr d,
  (attempts w n j ra errs tr).2 = inr d
  <-> exists m, (m < n)%nat
        /\ (exists h, net w (j + m) = Response 200 h (inr d))
        /\ retried w j m
        /\ ((0 < j + m)%nat -> cancelled w (j + m) = false).
Proof.
  induction n as [|n IH]; intros j ra errs tr d.
  - simpl. split; [discriminate | intros (m & ? & _); lia].
  - destruct (attempts_S w n j ra errs tr) as (ra' & tr' & ->).
    assert (Hstep : forall ra1 errs1 tr1,
      retryable (net w j) -> ((0 < j)%nat -> cancelled w j = false) ->
      ((attempts w n (S j) ra1 errs1 tr1).2 = inr d
       <-> exists m, (m < S n)%nat
             /\ (exists h, net w (j + m) = Response 200 h (inr d))
             /\ retried w j m
             /\ ((0 < j + m)%nat -> cancelled w (j + m) = false))).
    { intros ra1 errs1 tr1 Hre Hca. rewrite IH. split.
      - intros (m & Hm & Hnet & Hret & Hc). exists (S m).
        replace (j + S m)%nat with (S j + m)%nat by lia.
        split; [lia|]. split; [exact Hnet|]. split; [|exact Hc].
        apply retried_S. easy.
      - intros (m & Hm & (h & Hnet) & Hret & Hc). destruct m as [|m].
        + rewrite Nat.add_0_r in Hnet. rewrite Hnet in Hre.
          unfold retryable, retryable_status in Hre. lia.
        + exists m. replace (S j + m)%nat with (j + S m)%nat by lia.
          split; [lia|]. split; [eauto|]. split; [|exact Hc].
          now apply retried_S in Hret. }
    assert (Hnot : forall (P : Prop),
      (P -> ~ (retryable (net w j) /\ ((0 < j)%nat -> cancelled w j = false))) ->
      (P -> forall h, net w j <> Response 200 h (inr d)
                      \/ ~ ((0 < j)%nat -> cancelled w j = false)) ->
      P ->
      ~ exists m, (m < S n)%nat
             /\ (exists h, net w (j + m) = Response 200 h (inr d))
             /\ retried w j m
             /\ ((0 < j + m)%nat -> cancelled w (j + m) = false)).
    { intros P Hre Hsu HP (m & Hm & (h & Hnet) & Hret & Hc). destruct m as [|m].
      - rewrite Nat.add_0_r in *. destruct (Hsu HP h); tauto.
      - apply retried_S in Hret. apply (Hre HP). tauto. }
    case_decide as Hdone.
    { split; [discriminate|]. intros Hex. exfalso. revert Hex.
      apply (Hnot True); [| |exact I].
      - intros _ [_ Hc]. destruct Hdone as [Hj Hcd]. rewrite Hc in Hcd; easy.
      - intros _ h. right. intros Hc. destruct Hdone as [Hj Hcd].
        rewrite Hc in Hcd; easy. }
    assert (Hca : (0 < j)%nat -> cancelled w j = false).
    { intros Hj. destruct (cancelled w j); [tauto | reflexivity]. }
    destruct (net w j) as [e|status header body] eqn:Hnet.
    + apply Hstep; [exact I | exact Hca].
    + case_decide as Hretry.
      { apply Hstep; [|exact Hca]. unfold retryable, retryable_status.
        destruct body; [left|]; lia. }
      case_decide as H200.
      { split; [discriminate|]. intros Hex. exfalso. revert Hex.
        apply (Hnot True); [| |exact I].
        - intros _ [Hre _]. unfold retryable, retryable_status in Hre.
          destruct body; lia.
        - intros _ h. left. intros Heq. inversion Heq. lia. }
      assert (status = 200) as -> by lia.
      destruct body as [e|d'].
      * apply Hstep; [|exact Hca]. unfold retryable. now right.
      * simpl. split.
        -- intros Heq. inversion Heq; subst. exists 0%nat.
           rewrite Nat.add_0_r. split; [lia|]. split; [eauto|].
           split; [apply retried_0 | exact Hca].
        -- intros (m & Hm & (h & Hn) & Hret & Hc). destruct m as [|m].
           ++ rewrite Nat.add_0_r in Hn. congruence.
           ++ apply retried_S in Hret as (Hre & _). rewrite Hnet in Hre.
              unfold retryable, retryable_status in Hre. lia.
Qed.

Lemma attempts_exhausted (w : env E) (n : nat) : forall j ra errs tr errs',
  (attempts w n j ra errs tr).2 = inl (Exhausted errs')
  <-> retried w j n
      /\ Some errs' = (fun l => errs ++ l) <$> mapM (fun k => error_of (net w k)) (seq j n).
Proof.
  induction n as [|n IH]; intros j ra errs tr errs'.
  - simpl. rewrite app_nil_r. split.
    + intros Heq. inversion Heq. split; [apply retried_0 | reflexivity].
    + intros [_ Heq]. now inversion Heq.
  - destruct (attempts_S w n j ra errs tr) as (ra' & tr' & ->).
    rewrite retried_S. cbn [seq mapM mbind option_bind].
    assert (Hstep : forall ra1 tr1 x,
      retryable (net w j) -> ((0 < j)%nat -> cancelled w j = false) ->
      error_of (net w j) = Some x ->
      ((attempts w n (S j) ra1 (errs ++ [x]) tr1).2 = inl (Exhausted errs')
       <-> (retryable (net w j) /\ ((0 < j)%nat -> cancelled w j = false)
            /\ retried w (S j) n)
           /\ Some errs'
              = (fun l => errs ++ l)
                  <$> (y ← error_of (net w j);
                       k ← mapM (fun k => error_of (net w k)) (seq (S j) n);
                       mret (y :: k)))).
    { intros ra1 tr1 x Hre Hca Hx. rewrite IH, Hx. simpl.
      destruct (mapM _ (seq (S j) n)) as [l|]; simpl;
        [rewrite <- app_assoc; simpl|]; tauto. }
    case_decide as Hdone.
    { split; [discriminate|]. intros [(_ & Hc & _) _].
      destruct Hdone as [Hj Hcd]. rewrite Hc in Hcd; easy. }
    assert (Hca : (0 < j)%nat -> cancelled w j = false).
    { intros Hj. destruct (cancelled w j); [tauto | reflexivity]. }
    destruct (net w j) as [e|status header body] eqn:Hnet.
    + apply Hstep; [exact I | exact Hca | reflexivity].
    + case_decide as Hretry.
      { apply Hstep; [|exact Hca|].
        - unfold retryable, retryable_status. destruct body; [left|]; lia.
        - unfold error_of. now rewrite decide_True. }
      case_decide as H200.
      { split; [discriminate|]. intros [(Hre & _) _].
        unfold retryable, retryable_status in Hre. destruct body; lia. }
      assert (status = 200) as -> by lia.
      destruct body as [e|d'].
      * apply Hstep; [|exact Hca|].
        -- unfold retryable. now right.
        -- unfold error_of. rewrite decide_False by lia.
           now rewrite decide_False by lia.
      * simpl. split; [discriminate|]. intros [(Hre & _) _].
        unfold retryable, retryable_status in Hre. lia.
Qed.

Lemma attempts_cancelled (w : env E) (n : nat) : forall j ra errs tr,
  (attempts w n j ra errs tr).2 = inl ContextDone
  <-> exists m, (m < n)%nat /\ (0 < j + m)%nat
        /\ cancelled w (j + m) = true /\ retried w j m.
Proof.
  induction n as [|n IH]; intros j ra errs tr.
  - simpl. split; [discriminate | intros (m & ? & _); lia].
  - destruct (attempts_S w n j ra errs tr) as (ra' & tr' & ->).
    assert (Hstep : forall ra1 errs1 tr1,
      retryable (net w j) -> ((0 < j)%nat -> cancelled w j = false) ->
      ((attempts w n (S j) ra1 errs1 tr1).2 = inl ContextDone
       <-> exists m, (m < S n)%nat /\ (0 < j + m)%nat
             /\ cancelled w (j + m) = true /\ retried w j m)).
    { intros ra1 errs1 tr1 Hre Hca. rewrite IH. split.
      - intros (m & Hm & Hpos & Hc & Hret). exists (S m).
        replace (j + S m)%nat with (S j + m)%nat by lia.
        split; [lia|]. split; [lia|]. split; [exact Hc|].
        apply retried_S. easy.
      - intros (m & Hm & Hpos & Hc & Hret). destruct m as [|m].
        + rewrite Nat.add_0_r in *. rewrite Hca in Hc by lia. discriminate.
        + exists m. replace (S j + m)%nat with (j + S m)%nat by lia.
          split; [lia|]. split; [lia|]. split; [exact Hc|].
          now apply retried_S in Hret. }
    case_decide as Hdone.
    { split; [|reflexivity]. intros _. exists 0%nat. rewrite Nat.add_0_r.
      split; [lia|]. split; [tauto|]. split; [tauto | apply retried_0]. }
    assert (Hca : (0 < j)%nat -> cancelled w j = false).
    { intros Hj. destruct (cancelled w j); [tauto | reflexivity]. }
    assert (Hnot : ~ retryable (net w j) ->
      ~ exists m, (m < S n)%nat /\ (0 < j + m)%nat
             /\ cancelled w (j + m) = true /\ retried w j m).
    { intros Hre (m & Hm & Hpos & Hc & Hret). destruct m as [|m].
      - rewrite Nat.add_0_r in *. rewrite Hca in Hc by lia. discriminate.
      - apply retried_S in Hret. tauto. }
    destruct (net w j) as [e|status header body] eqn:Hnet.
    + apply Hstep; [exact I | exact Hca].
    + case_decide as Hretry.
      { apply Hstep; [|exact Hca]. unfold retryable, retryable_status.
        destruct body; [left|]; lia. }
      case_decide as H200.
      { split; [discriminate|]. intros Hex. exfalso. revert Hex. apply Hnot.
        unfold retryable, retryable_status. destruct body; lia. }
      assert (status = 200) as -> by lia.
      destruct body as [e|d'].
      * apply Hstep; [|exact Hca]. unfold retryable. now right.
      * simpl. split; [discriminate|]. intros Hex. exfalso. revert Hex.
        apply Hnot. unfold retryable, retryable_status. lia.
Qed.

(** X10.  A request ends with bytes exactly when some attempt among the
    five got a 200 response whose body could be read, every attempt before
    it was one the loop retries (a network error, a 429, a status of 500 or
    more, or a 200 whose body could not be read), and the context was not
    done in any pause up to it; the bytes are that body. *)
Theorem fetch_succeeds_iff (w : env E) (d : bytes) :
  (fetch w).2 = inr d
  <-> new_request w = None
      /\ exists m, (m < 5)%nat
           /\ (exists h, net w m = Response 200 h (inr d))
           /\ (forall k, (k < m)%nat -> retryable (net w k))
           /\ (forall k, (1 <= k <= m)%nat -> cancelled w k = false).
Proof.
  unfold TileFetcher.fetch. destruct (new_request w) as [e|].
  { simpl. split; [discriminate | intros [? _]; discriminate]. }
  rewrite attempts_success. simpl. split.
  - intros (m & Hm & Hnet & Hret & Hc). split; [reflexivity|].
    exists m. split; [exact Hm|]. split; [exact Hnet|]. split.
    + intros k Hk. apply Hret. lia.
    + intros k Hk. destruct (decide (k = m)) as [->|Hne]; [apply Hc; lia|].
      apply Hret; lia.
  - intros (_ & m & Hm & Hnet & Hret & Hc). exists m.
    split; [exact Hm|]. split; [exact Hnet|]. split.
    + intros k Hk. split; [apply Hret; lia | intros; apply Hc; lia].
    + intros Hpos. apply Hc. lia.
Qed.

(** X11.  A request gives up with the joined errors exactly when all five
    attempts were ones the loop retries and the context was not done in
    any of the four pauses; the errors joined are those of the five
    attempts, in order. *)
Theorem fetch_gives_up_iff (w : env E) (errs : list (attempt_error E)) :
  (fetch w).2 = inl (Exhausted errs)
  <-> new_request w = None
      /\ (forall k, (k < 5)%nat -> retryable (net w k))
      /\ (forall k, (1 <= k <= 4)%nat -> cancelled w k = false)
      /\ Some errs = mapM (fun k => error_of (net w k)) (seq 0 5).
Proof.
  unfold TileFetcher.fetch. destruct (new_request w) as [e|].
  { simpl. split; [discriminate | intros [? _]; discriminate]. }
  rewrite attempts_exhausted. split.
  - intros (Hret & Herrs). split; [reflexivity|]. split; [|split].
    + intros k Hk. apply Hret. lia.
    + intros k Hk. apply Hret; lia.
    + rewrite Herrs. now destruct (mapM _ _).
  - intros (_ & Hre & Hc & Herrs). split.
    + intros k Hk. split; [apply Hre; lia | intros; apply Hc; lia].
    + rewrite Herrs. now destruct (mapM _ _).
Qed.

(** X20.  A request ends with the context's error exactly when the
    context was done in the pause ahead of some retry, every attempt before
    that pause was one the loop retries, and the context was not done in an
    earlier pause.  The loop looks at the context only in the pauses, so
    never ahead of the first attempt. *)
Theorem fetch_cancelled_iff (w : env E) :
  (fetch w).2 = inl ContextDone
  <-> new_request w = None
      /\ exists m, (1 <= m <= 4)%nat
           /\ cancelled w m = true
           /\ (forall k, (k < m)%nat -> retryable (net w k))
           /\ (forall k, (1 <= k < m)%nat -> cancelled w k = false).
Proof.
  unfold TileFetcher.fetch. destruct (new_request w) as [e|].
  { simpl. split; [discriminate | intros [? _]; discriminate]. }
  rewrite attempts_cancelled. simpl. split.
  - intros (m & Hm & Hpos & Hc & Hret). split; [reflexivity|].
    exists m. split; [lia|]. split; [exact Hc|]. split.
    + intros k Hk. apply Hret. lia.
    + intros k Hk. apply Hret; lia.
  - intros (_ & m & Hm & Hc & Hre & Hca). exists m.
    split; [lia|]. split; [lia|]. split; [exact Hc|].
    intros k Hk. split; [apply Hre; lia | intros; apply Hca; lia].
Qed.

End Outcome.
End TileFetcherOutcome.

(** ** A batch of tile requests *)

Module TileFetcherBatch.
Import TileFetcher.

(** The errors of [TileFetcher.ReadTiles]: its own, and the error a
    goroutine returned, kept with the path of the goroutine's tile.  The
    message of such an error begins with the path, but for the context's
    error, which the goroutine returns as it is. *)
Inductive batch_error (E : Type) : Type :=
| UnexpectedHeight (h : Z)
| RequestError (path : string) (e : fetch_error E).
Arguments UnexpectedHeight {E}.
Arguments RequestError {E}.

(** A goroutine that [ReadTiles] started and waited for: the path of its
    tile, the URL it requests, what it does and how it ends. *)
Record started (E : Type) : Type := mkStarted {
  path : string;
  url : string;
  events : list event;
  outcome : fetch_error E + bytes
}.
Arguments mkStarted {E}.
Arguments path {E}.
Arguments url {E}.
Arguments events {E}.
Arguments outcome {E}.

(** How a goroutine ends that [ReadTiles] did not wait for: as its request
    ends, or with the panic of [data[i]].  The [return nil, err] inside the
    loop sets the result [data] to nil, and the goroutines started before
    it run on and index [data] when a response of status 200 is there. *)
Inductive ending (E : Type) : Type :=
| Ended (r : fetch_error E + bytes)
| IndexPanic.
Arguments Ended {E}.
Arguments IndexPanic {E}.

(** A goroutine that [ReadTiles] left behind. *)
Record left_behind (E : Type) : Type := mkLeft {
  l_path : string;
  l_url : string;
  l_events : list event;
  l_ending : ending E
}.
Arguments mkLeft {E}.
Arguments l_path {E}.
Arguments l_url {E}.
Arguments l_events {E}.
Arguments l_ending {E}.

(** What [ReadTiles] does: it returns from inside its loop, at a tile of
    height [h], and leaves the goroutines it started behind; or it starts
    a goroutine for every tile, waits for all of them, and returns the
    data or an error.  The data returned along with an error is left
    out. *)
Inductive result (E : Type) : Type :=
| ReturnedEarly (h : Z) (behind : list (left_behind E))
| Waited (gs : list (started E)) (res : batch_error E + list bytes).
Arguments ReturnedEarly {E}.
Arguments Waited {E}.

Section Methods.
Context {E : Type}.
Variable Atoi : string -> option Z.
Variable ParseTime : string -> option Time.
(** [f.base] and [f.tilePath] *)
Variable base : string.
Variable tilePath : Tile -> string.

(** The closure of [errGroup.Go] for the tile [t], in the environment its
    request meets, while [data] is the slice [ReadTiles] made. *)
Definition go (w : env E) (t : Tile) : started E :=
  let r := fetch Atoi ParseTime w in
  mkStarted (tilePath t) (base +:+ tilePath t) r.1 r.2.

(** The loop [for j := range 5] of the closure, as [attempts] has it, run
    by a goroutine that [ReadTiles] left behind.  [gone j] says whether
    [ReadTiles] has returned, so that [data] is nil, by the time attempt [j]
    stores the body of its response in [data[i]]. *)
Fixpoint attempts_left (w : env E) (gone : nat -> bool) (n j : nat)
    (retryAfter : Time) (errs : list (attempt_error E)) (tr : list event)
  : list event * ending E :=
  match n with
  | O => (tr, Ended (inl (Exhausted errs)))
  | S n' =>
      let '(tr, retryAfter, done) :=
        if decide (0 < j)%nat then
          let p := if IsZero retryAfter then For (backoff j)
                   else Until retryAfter in
          (tr ++ [Retrying j p], zeroTime, cancelled w j)
        else (tr, retryAfter, false) in
      if done : bool then (tr, Ended (inl ContextDone))
      else
        let tr := tr ++ [Requested j] in
        match net w j with
        | DoError e =>
            attempts_left w gone n' (S j) retryAfter (errs ++ [Failed e]) tr
        | Response status header body =>
            if decide (status = 429 \/ status >= 500) then
              attempts_left w gone n' (S j)
                (parseRetryAfter Atoi ParseTime (clock w j) header)
                (errs ++ [UnexpectedStatus status]) tr
            else if decide (status <> 200) then
              (tr, Ended (inl (FatalStatus status)))
            else if gone j then (tr, IndexPanic)
            else
              match body with
              | inl e =>
                  attempts_left w gone n' (S j) retryAfter
                    (errs ++ [Failed e]) tr
              | inr d => (tr, Ended (inr d))
              end
        end
  end.

(** The closure run by a goroutine that [ReadTiles] left behind. *)
Definition go_left (gone : nat -> bool) (w : env E) (t : Tile)
  : left_behind E :=
  let r := match new_request w with
           | Some e => ([], Ended (inl (CreateRequest e)))
           | None => attempts_left w gone 5 0 zeroTime [] []
           end in
  mkLeft (tilePath t) (base +:+ tilePath t) r.1 r.2.

(** The loop [for i, t := range tiles]: the tiles a goroutine was started
    for, each with its index, and the height at which the method returned
    from inside the loop. *)
Fixpoint start_all (tiles : list Tile) (i : nat)
  : list (nat * Tile) * option Z :=
  match tiles with
  | [] => ([], None)
  | t :: tiles' =>
      if decide (tH t <> TileHeight) then ([], Some (tH t))
      else
        let '(gs, bad) := start_all tiles' (S i) in
        ((i, t) :: gs, bad)
  end.

(** The error of the goroutine of index [i], if it returned one. *)
Definition failure (gs : list (started E)) (i : nat) : option (batch_error E) :=
  g ← gs !! i;
  match outcome g with
  | inl e => Some (RequestError (path g) e)
  | inr _ => None
  end.

(** [errGroup.Wait()]: the error of the goroutine that was first to return
    one.  [returned] is the order in which the goroutines returned;
    goroutines it does not list count as returning after the others, in the
    order they were started. *)
Definition wait (gs : list (started E)) (returned : list nat)
  : option (batch_error E) :=
  head (omap (failure gs) (returned ++ seq 0 (length gs))).

(** The slice [data] once the goroutines have returned. *)
Definition bodies (gs : list (started E)) : list bytes :=
  (fun g => match outcome g with inr d => d | inl _ => [] end) <$> gs.

(** [TileFetcher.ReadTiles].  [envs i] is the environment the request of
    the tile of index [i] meets; [gone i] is, for a goroutine left behind,
    which of its attempts come after the return; [returned] is the order in
    which the goroutines that are waited for return. *)
Definition ReadTiles (envs : nat -> env E) (gone : nat -> nat -> bool)
    (returned : list nat) (tiles : list Tile) : result E :=
  let '(sts, bad) := start_all tiles 0 in
  match bad with
  | Some h =>
      ReturnedEarly h ((fun p => go_left (gone p.1) (envs p.1) p.2) <$> sts)
  | None =>
      let gs := (fun p => go (envs p.1) p.2) <$> sts in
      Waited gs match wait gs returned with
                | Some err => inl err
                | None => inr (bodies gs)
                end
  end.

(** The tiles before the first of another height. *)
Fixpoint before_bad (tiles : list Tile) : list Tile :=
  match tiles with
  | [] => []
  | t :: tiles' => if decide (tH t <> TileHeight) then [] else t :: before_bad tiles'
  end.

Lemma start_all_spec (tiles : list Tile) : forall i,
  (start_all tiles i).1 = imap (fun k t => ((i + k)%nat, t)) (before_bad tiles)
  /\ (start_all tiles i).2
     = tH <$> head (filter (fun t => tH t <> TileHeight) tiles).
Proof.
  induction tiles as [|t tiles IH]; intros i; [easy|].
  cbn [start_all before_bad]. destruct (decide (tH t <> TileHeight)) as [Hbad|Hok].
  - rewrite filter_cons_True by exact Hbad. easy.
  - rewrite filter_cons_False by exact Hok.
    destruct (IH (S i)) as [H1 H2].
    destruct (start_all tiles (S i)) as [gs bad]. cbn [fst snd] in *.
    split; [|exact H2]. cbn [imap]. rewrite Nat.add_0_r, H1.
    apply (f_equal (cons (i, t))).
    apply imap_ext. intros k x _. cbn [compose].
    now replace (S i + k)%nat with (i + S k)%nat by lia.
Qed.

Lemma before_bad_all (tiles : list Tile) :
  Forall (fun t => tH t = TileHeight) tiles -> before_bad tiles = tiles.
Proof.
  induction 1 as [|t tiles Ht _ IH]; [reflexivity|].
  cbn [before_bad]. rewrite decide_False by (intros Hx; now apply Hx).
  now rewrite IH.
Qed.

Lemma filter_bad_none (tiles : list Tile) :
  Forall (fun t => tH t = TileHeight) tiles ->
  filter (fun t => tH t <> TileHeight) tiles = [].
Proof.
  induction 1 as [|t tiles Ht _ IH]; [reflexivity|].
  now rewrite filter_cons_False by (intros Hx; now apply Hx).
Qed.

Lemma filter_bad_some (tiles : list Tile) :
  filter (fun t => tH t <> TileHeight) tiles = [] ->
  Forall (fun t => tH t = TileHeight) tiles.
Proof.
  induction tiles as [|t tiles IH]; intros Hnil; [constructor|].
  destruct (decide (tH t <> TileHeight)) as [Hbad|Hok].
  - rewrite filter_cons_True in Hnil by exact Hbad. discriminate.
  - rewrite filter_cons_False in Hnil by exact Hok.
    constructor; [|now apply IH].
    destruct (decide (tH t = TileHeight)); [easy | tauto].
Qed.

Lemma omap_none {A B} (f : A -> option B) (l : list A) :
  (forall x, x ∈ l -> f x = None) -> omap f l = [].
Proof.
  induction l as [|x l IH]; intros Hnone; [reflexivity|].
  simpl. rewrite (Hnone x) by left. apply IH. intros y Hy. apply Hnone. now right.
Qed.

Lemma wait_None (gs : list (started E)) (returned : list nat) :
  wait gs returned = None <-> forall g, g ∈ gs -> exists d, outcome g = inr d.
Proof.
  unfold wait. rewrite head_None. split.
  - intros Hnil g Hg. apply list_elem_of_lookup in Hg as [i Hi].
    destruct (outcome g) as [e|d] eqn:Ho; [|eauto]. exfalso.
    assert (RequestError (path g) e ∈ omap (failure gs) (returned ++ seq 0 (length gs)))
      as Hin.
    { apply list_elem_of_omap. exists i. split.
      - apply elem_of_app. right. apply elem_of_seq.
        apply lookup_lt_Some in Hi. lia.
      - unfold failure. rewrite Hi. simpl. now rewrite Ho. }
    rewrite Hnil in Hin. inversion Hin.
  - intros Hall. apply omap_none. intros i _. unfold failure.
    destruct (gs !! i) as [g|] eqn:Hi; [|reflexivity]. simpl.
    destruct (Hall g) as [d ->]; [|reflexivity].
    eapply list_elem_of_lookup_2; eauto.
Qed.

Lemma wait_Some (gs : list (started E)) (returned : list nat) err :
  wait gs returned = Some err ->
  exists i g e, gs !! i = Some g /\ outcome g = inl e /\ err = RequestError (path g) e.
Proof.
  unfold wait. intros Hhead. apply head_Some_elem_of in Hhead.
  apply list_elem_of_omap in Hhead as (i & _ & Hf). unfold failure in Hf.
  destruct (gs !! i) as [g|] eqn:Hi; [|discriminate]. simpl in Hf.
  destruct (outcome g) as [e|d] eqn:Ho; [|discriminate].
  inversion Hf; subst. exists i, g, e. easy.
Qed.

(** A goroutine left behind panics, or does what its request does. *)
Lemma attempts_left_cases (w : env E) (gone : nat -> bool) (n : nat) :
  forall j retryAfter errs tr,
    (attempts_left w gone n j retryAfter errs tr).2 = IndexPanic
    \/ attempts_left w gone n j retryAfter errs tr
       = ((attempts Atoi ParseTime w n j retryAfter errs tr).1,
          Ended (attempts Atoi ParseTime w n j retryAfter errs tr).2).
Proof.
  induction n as [|n IH]; intros j retryAfter errs tr; [now right|].
  cbn [attempts_left attempts].
  destruct (decide (0 < j)%nat); cbn zeta beta iota.
  - destruct (cancelled w j); [now right|].
    destruct (net w j) as [e|status header body]; [apply IH|].
    destruct (decide (status = 429 \/ status >= 500)); [apply IH|].
    destruct (decide (status <> 200)); [now right|].
    destruct (gone j); [now left|].
    destruct body; [apply IH | now right].
  - destruct (net w j) as [e|status header body]; [apply IH|].
    destruct (decide (status = 429 \/ status >= 500)); [apply IH|].
    destruct (decide (status <> 200)); [now right|].
    destruct (gone j); [now left|].
    destruct body; [apply IH | now right].
Qed.

(** It panics only at an attempt that comes after the return and gets a
    response of status 200. *)
Lemma attempts_left_panic (w : env E) (gone : nat -> bool) (n : nat) :
  forall j retryAfter errs tr,
    (attempts_left w gone n j retryAfter errs tr).2 = IndexPanic ->
    exists k header body,
      (j <= k < j + n)%nat /\ gone k = true
      /\ net w k = Response 200 header body.
Proof.
  induction n as [|n IH]; intros j retryAfter errs tr; [discriminate|].
  cbn [attempts_left].
  assert (Hrec : forall ra es t,
            (attempts_left w gone n (S j) ra es t).2 = IndexPanic ->
            exists k header body,
              (j <= k < j + S n)%nat /\ gone k = true
              /\ net w k = Response 200 header body).
  { intros ra es t Hp. destruct (IH _ _ _ _ Hp) as (k & h & b & Hk & Hg & Hn).
    exists k, h, b. split; [lia | easy]. }
  destruct (decide (0 < j)%nat); cbn zeta beta iota.
  - destruct (cancelled w j); [discriminate|].
    destruct (net w j) as [e|status header body] eqn:Hnet; [apply Hrec|].
    destruct (decide (status = 429 \/ status >= 500)); [apply Hrec|].
    destruct (decide (status <> 200)) as [|H200]; [discriminate|].
    destruct (gone j) eqn:Hg.
    + intros _. exists j, header, body. split; [lia|]. split; [exact Hg|].
      rewrite Hnet. f_equal. lia.
    + destruct body; [apply Hrec | discriminate].
  - destruct (net w j) as [e|status header body] eqn:Hnet; [apply Hrec|].
    destruct (decide (status = 429 \/ status >= 500)); [apply Hrec|].
    destruct (decide (status <> 200)) as [|H200]; [discriminate|].
    destruct (gone j) eqn:Hg.
    + intros _. exists j, header, body. split; [lia|]. split; [exact Hg|].
      rewrite Hnet. f_equal. lia.
    + destruct body; [apply Hrec | discriminate].
Qed.

(** X19.  A batch that holds a tile of another height than [TileHeight]
    makes [ReadTiles] return from inside its loop, with the height of the
    first such tile, whatever the network does.  Goroutines were started
    for the tiles before that tile only, and they are left behind: each ends
    as its request does or panics at [data[i]], which the return set to nil;
    it panics only at an attempt that comes after the return and gets a
    response of status 200, and it does panic when its first attempt is such
    a one.  For a batch of tiles of the right height one request is started
    per tile, to the base URL followed by the tile's path, and all are
    waited for; the batch succeeds exactly when every request ends with
    bytes, and then returns them in the order of the tiles; when it fails,
    its error is that of a request that failed, for the tile of that
    request. *)
Theorem ReadTiles_all_or_nothing (envs : nat -> env E)
    (gone : nat -> nat -> bool) (returned : list nat) (tiles : list Tile) :
  match ReadTiles envs gone returned tiles with
  | ReturnedEarly h behind =>
      (exists t, head (filter (fun t => tH t <> TileHeight) tiles) = Some t
                 /\ h = tH t)
      /\ length behind = length (before_bad tiles)
      /\ forall k g, behind !! k = Some g ->
           (exists t, before_bad tiles !! k = Some t
                      /\ l_path g = tilePath t
                      /\ l_url g = (base +:+ tilePath t)%string)
           /\ (l_ending g = IndexPanic
               \/ l_ending g = Ended (fetch Atoi ParseTime (envs k)).2)
           /\ (l_ending g = IndexPanic ->
               exists j header body,
                 (j < 5)%nat /\ gone k j = true
                 /\ net (envs k) j = Response 200 header body)
           /\ (new_request (envs k) = None -> gone k 0%nat = true ->
               (exists header body,
                  net (envs k) 0%nat = Response 200 header body) ->
               l_ending g = IndexPanic)
  | Waited gs res =>
      Forall (fun t => tH t = TileHeight) tiles
      /\ gs = imap (fun k t => go (envs k) t) tiles
      /\ (forall ds, res = inr ds
            <-> length ds = length tiles
                /\ forall i d, ds !! i = Some d ->
                      (fetch Atoi ParseTime (envs i)).2 = inr d)
      /\ (forall err, res = inl err ->
            exists i t e, tiles !! i = Some t
              /\ (fetch Atoi ParseTime (envs i)).2 = inl e
              /\ err = RequestError (tilePath t) e)
  end.
Proof.
  unfold ReadTiles.
  destruct (start_all_spec tiles 0) as [Hgs Hbad].
  destruct (start_all tiles 0) as [sts bad]. cbn [fst snd] in *.
  simpl in Hgs. subst sts.
  destruct bad as [h|].
  - (* the early return *)
    destruct (head (filter (fun t => tH t <> TileHeight) tiles)) as [t|] eqn:Hhd;
      [|discriminate].
    simpl in Hbad. inversion Hbad; subst h.
    split; [eauto|]. rewrite length_fmap, length_imap. split; [reflexivity|].
    intros k g Hk. rewrite list_lookup_fmap in Hk.
    destruct (imap _ (before_bad tiles) !! k) as [[k' t']|] eqn:Hi; [|discriminate].
    apply list_lookup_imap_Some in Hi as (t'' & Ht'' & Heq).
    inversion Heq; subst k' t''. simpl in Hk. inversion Hk; subst g.
    unfold go_left. cbn [l_path l_url l_ending fst snd].
    split; [eauto|]. unfold fetch.
    destruct (new_request (envs k)) as [e|] eqn:Hnew; cbn [snd].
    { split; [now right|]. split; [discriminate|]. discriminate. }
    split; [|split].
    + destruct (attempts_left_cases (envs k) (gone k) 5 0 zeroTime [] [])
        as [Hp | ->]; [now left | now right].
    + intros Hp. destruct (attempts_left_panic _ _ _ _ _ _ _ Hp)
        as (j & header & body & Hj & Hg & Hn).
      exists j, header, body. split; [lia | easy].
    + intros _ Hg (header & body & Hn).
      cbn [attempts_left]. rewrite decide_False by lia. cbn zeta beta iota.
      rewrite Hn. rewrite decide_False by lia. rewrite decide_False by lia.
      now rewrite Hg.
  - (* every goroutine waited for *)
    destruct (head (filter (fun t => tH t <> TileHeight) tiles)) as [t|] eqn:Hhd;
      [discriminate|].
    apply head_None in Hhd. apply filter_bad_some in Hhd as Hall.
    rewrite (before_bad_all _ Hall).
    set (gs := (fun p : nat * Tile => go (envs p.1) p.2)
                 <$> imap (fun k t => (k, t)) tiles).
    assert (Hgs : gs = imap (fun k t => go (envs k) t) tiles).
    { unfold gs. rewrite fmap_imap. reflexivity. }
    clearbody gs.
    split; [exact Hall|]. split; [exact Hgs|].
    assert (Hlookup : forall i g, gs !! i = Some g ->
              exists t, tiles !! i = Some t /\ path g = tilePath t
                        /\ outcome g = (fetch Atoi ParseTime (envs i)).2).
    { intros i g Hi. rewrite Hgs in Hi. apply list_lookup_imap_Some in Hi
        as (t & Ht & ->). eauto. }
    assert (Hlen : length gs = length tiles) by (rewrite Hgs; apply length_imap).
    split.
    + intros ds. destruct (wait gs returned) as [err|] eqn:Hw.
      * split; [discriminate|]. intros [Hl Hds]. exfalso.
        destruct (wait_Some _ _ _ Hw) as (i & g & e & Hi & Ho & _).
        destruct (Hlookup i g Hi) as (t & Ht & _ & Hout).
        destruct (ds !! i) as [d|] eqn:Hd.
        -- rewrite (Hds i d Hd) in Hout. congruence.
        -- apply lookup_ge_None in Hd. apply lookup_lt_Some in Ht. lia.
      * pose proof (proj1 (wait_None gs returned) Hw) as Hok. split.
        -- intros Heq. inversion Heq; subst ds. unfold bodies.
           rewrite length_fmap. split; [exact Hlen|]. intros i d Hd.
           rewrite list_lookup_fmap in Hd.
           destruct (gs !! i) as [g|] eqn:Hi; [|discriminate]. simpl in Hd.
           destruct (Hlookup i g Hi) as (t & _ & _ & Hout). rewrite <- Hout.
           destruct (Hok g) as [d' Hd']; [eapply list_elem_of_lookup_2; eauto|].
           rewrite Hd' in *. congruence.
        -- intros [Hl Hds]. f_equal. apply list_eq. intros i. unfold bodies.
           rewrite list_lookup_fmap.
           destruct (gs !! i) as [g|] eqn:Hi; simpl.
           ++ destruct (Hlookup i g Hi) as (t & Ht & _ & Hout).
              destruct (ds !! i) as [d|] eqn:Hd.
              ** rewrite (Hds i d Hd) in Hout. now rewrite Hout.
              ** apply lookup_ge_None in Hd. apply lookup_lt_Some in Ht. lia.
           ++ apply lookup_ge_None in Hi. symmetry. apply lookup_ge_None. lia.
    + intros err. destruct (wait gs returned) as [err'|] eqn:Hw; [|discriminate].
      intros Heq. inversion Heq; subst err'.
      destruct (wait_Some _ _ _ Hw) as (i & g & e & Hi & Ho & ->).
      destruct (Hlookup i g Hi) as (t & Ht & Hp & Hout).
      exists i, t, e. rewrite <- Hout, <- Hp. easy.
Qed.

End Methods.

(** A batch of two tiles, the second of height 9, on a network that
    answers every request with status 200: [ReadTiles] returns the error of
    the height, and the goroutine of the first tile, which gets its
    response after the return, panics. *)
Example goroutine_left_behind_panics :
  ReadTiles (fun _ => None) (fun _ => None) "https://log.example/"
    (fun _ => "tile/0/000"%string)
    (fun _ => mkEnv None (fun _ => Response 200 "" (inr [Byte.x61]))
                (fun _ => 0) (fun _ => false))
    (fun _ _ => true) [] [mkTile 8 0 0 256; mkTile 9 0 0 256]
  = ReturnedEarly 9
      [mkLeft "tile/0/000" "https://log.example/tile/0/000" [Requested 0]
         (IndexPanic (E := unit))].
Proof. reflexivity. Qed.

End TileFetcherBatch.

(** ** Making a client *)

Module NewClient.

(** [ClientOption], by the function that made it; [WithCutEntry] may be
    given a nil function. *)
Inductive ClientOption (Hash E : Type) : Type :=
| WithTimeout (d : Z)
| WithCutEntry (cut : option (bytes -> bytes * Hash * bytes * option E))
| WithSumDBEntries.
Arguments WithTimeout {Hash E}.
Arguments WithCutEntry {Hash E}.
Arguments WithSumDBEntries {Hash E}.

(** The client while the options are applied: [cut] may still be nil. *)
Record draft (R Hash E : Type) : Type := mkDraft {
  d_tr : R;
  d_cut : option (bytes -> bytes * Hash * bytes * option E);
  d_timeout : Z
}.
Arguments mkDraft {R Hash E}.
Arguments d_tr {R Hash E}.
Arguments d_cut {R Hash E}.
Arguments d_timeout {R Hash E}.

(** [time.Minute], in nanoseconds. *)
Definition Minute : Z := 60 * TileFetcher.Second.

Section Methods.
Context {R Hash E : Type}.
(** [tlog.RecordHash] *)
Variable RecordHash : bytes -> Hash.

(** [opt(c)] *)
Definition apply_option {T : Type} (c : draft T Hash E)
    (opt : ClientOption Hash E) : draft T Hash E :=
  match opt with
  | WithTimeout d => mkDraft (d_tr c) (d_cut c) d
  | WithCutEntry cut => mkDraft (d_tr c) cut (d_timeout c)
  | WithSumDBEntries =>
      mkDraft (d_tr c) (Some (sumdb_cut RecordHash)) (d_timeout c)
  end.

(** [NewClient]; [None] is the error that the cut function is not set. *)
Definition NewClient (tr : R) (opts : list (ClientOption Hash E))
  : option (Client.t (EdgeMemoryCache.t R) Hash E) :=
  let c := foldl apply_option (mkDraft (EdgeMemoryCache.new tr) None 0) opts in
  match d_cut c with
  | None => None
  | Some cut =>
      Some (Client.mk (d_tr c) cut
              (if decide (d_timeout c = 0) then 5 * Minute else d_timeout c)
              None)
  end.

(** The cut an option sets, if it sets one, and the timeout. *)
Definition cut_of (opt : ClientOption Hash E)
  : option (option (bytes -> bytes * Hash * bytes * option E)) :=
  match opt with
  | WithTimeout _ => None
  | WithCutEntry cut => Some cut
  | WithSumDBEntries => Some (Some (sumdb_cut RecordHash))
  end.

Definition timeout_of (opt : ClientOption Hash E) : option Z :=
  match opt with
  | WithTimeout d => Some d
  | _ => None
  end.

Lemma foldl_apply_option {T : Type} (opts : list (ClientOption Hash E))
    (c : draft T Hash E) :
  let c' := foldl apply_option c opts in
  d_tr c' = d_tr c
  /\ d_cut c' = default (d_cut c) (last (omap cut_of opts))
  /\ d_timeout c' = default (d_timeout c) (last (omap timeout_of opts)).
Proof.
  induction opts as [|opt opts IH] using rev_ind; [easy|].
  rewrite foldl_app. cbn [foldl]. cbv zeta in *.
  destruct IH as (Htr & Hcut & Hto). rewrite !omap_app.
  destruct opt as [d|cut|]; simpl; rewrite ?app_nil_r, ?last_snoc; easy.
Qed.

(** X17.  [NewClient] fails exactly when no option sets a cut function or
    the last that does sets nil.  Otherwise the client cuts with the
    function of the last option that sets one; it reads through a new,
    empty edge cache around the given reader; it holds no error; and its
    timeout is that of the last [WithTimeout], with five minutes in place
    of zero or of no such option, so it is never zero. *)
Theorem NewClient_options (tr : R) (opts : list (ClientOption Hash E)) :
  match NewClient tr opts with
  | None =>
      last (omap cut_of opts) = None \/ last (omap cut_of opts) = Some None
  | Some c =>
      last (omap cut_of opts) = Some (Some (Client.cut c))
      /\ Client.tr c = EdgeMemoryCache.new tr
      /\ Client.Err c = None
      /\ Client.timeout c <> 0
      /\ Client.timeout c
         = match last (omap timeout_of opts) with
           | Some d => if decide (d = 0) then 5 * Minute else d
           | None => 5 * Minute
           end
  end.
Proof.
  unfold NewClient.
  destruct (foldl_apply_option opts (mkDraft (EdgeMemoryCache.new tr) None 0))
    as (Htr & Hcut & Hto).
  cbv zeta in *. cbn [d_tr d_cut d_timeout] in *.
  destruct (d_cut _) as [cut|].
  - cbn [Client.cut Client.tr Client.Err Client.err Client.timeout].
    split; [destruct (last (omap cut_of opts)) as [[f|]|]; simpl in Hcut; congruence|].
    split; [exact Htr|]. split; [reflexivity|]. rewrite Hto. split.
    + case_decide; [unfold Minute, TileFetcher.Second; lia | easy].
    + destruct (last (omap timeout_of opts)); reflexivity.
  - destruct (last (omap cut_of opts)) as [[f|]|]; simpl in Hcut;
      [discriminate | now right | now left].
Qed.

End Methods.
End NewClient.

(** ** Making a tile fetcher *)

Module NewTileFetcher.

(** [strings.HasSuffix] *)
Definition HasSuffix (s suffix : string) : bool :=
  bool_decide (String.length suffix <= String.length s)%nat
  && bool_decide (substring (String.length s - String.length suffix)
                    (String.length suffix) s = suffix).

Section Methods.
(** [*http.Client] and [*slog.Logger], the client and the logger a new
    fetcher makes for itself, and [TilePath], which another file of the
    package declares. *)
Context {HTTPClient Logger : Type}.
Variable defaultClient : HTTPClient.
Variable discard : Logger.
Variable TilePath : Tile -> string.

(** [TileFetcher]: a nil pointer or function is [None]. *)
Record t : Type := mk {
  base : string;
  hc : option HTTPClient;
  ua : string;
  log : option Logger;
  limit : Z;
  tilePath : option (Tile -> string)
}.

(** [TileFetcherOption], by the function that made it. *)
Inductive TileFetcherOption : Type :=
| WithTileFetcherLogger (l : option Logger)
| WithHTTPClient (c : option HTTPClient)
| WithUserAgent (s : string)
| WithConcurrencyLimit (n : Z)
| WithTilePath (f : option (Tile -> string)).

(** [opt(tf)] *)
Definition apply_option (f : t) (opt : TileFetcherOption) : t :=
  match opt with
  | WithTileFetcherLogger l => mk (base f) (hc f) (ua f) l (limit f) (tilePath f)
  | WithHTTPClient c => mk (base f) c (ua f) (log f) (limit f) (tilePath f)
  | WithUserAgent s => mk (base f) (hc f) s (log f) (limit f) (tilePath f)
  | WithConcurrencyLimit n => mk (base f) (hc f) (ua f) (log f) n (tilePath f)
  | WithTilePath p => mk (base f) (hc f) (ua f) (log f) (limit f) p
  end.

(** [NewTileFetcher]; the error it returns is always nil. *)
Definition NewTileFetcher (base0 : string) (opts : list TileFetcherOption) : t :=
  let base0 := if HasSuffix base0 "/" then base0 else (base0 +:+ "/")%string in
  let tf := foldl apply_option (mk base0 None "" None 0 None) opts in
  let tf := if tilePath tf is None
            then mk (base tf) (hc tf) (ua tf) (log tf) (limit tf) (Some TilePath)
            else tf in
  let tf := if hc tf is None
            then mk (base tf) (Some defaultClient) (ua tf) (log tf) (limit tf)
                   (tilePath tf)
            else tf in
  let tf := if decide (ua tf = ""%string)
            then mk (base tf) (hc tf) "filippo.io/torchwood.Client" (log tf)
                   (limit tf) (tilePath tf)
            else tf in
  if log tf is None
  then mk (base tf) (hc tf) (ua tf) (Some discard) (limit tf) (tilePath tf)
  else tf.

Lemma foldl_apply_option_base (opts : list TileFetcherOption) (f : t) :
  base (foldl apply_option f opts) = base f.
Proof.
  revert f. induction opts as [|opt opts IH]; intros f; [reflexivity|].
  simpl. rewrite IH. now destruct opt.
Qed.

Lemma substring_all (s : string) : substring 0 (String.length s) s = s.
Proof. induction s as [|c s IH]; [reflexivity|]. simpl. now rewrite IH. Qed.

Lemma substring_append (s suffix : string) :
  substring (String.length s) (String.length suffix) (s +:+ suffix) = suffix.
Proof. induction s as [|c s IH]; [apply substring_all | exact IH]. Qed.

Lemma length_append (s1 s2 : string) :
  String.length (s1 +:+ s2) = (String.length s1 + String.length s2)%nat.
Proof. induction s1 as [|c s1 IH]; [reflexivity|]. simpl. now rewrite IH. Qed.

Lemma HasSuffix_append (s suffix : string) : HasSuffix (s +:+ suffix) suffix = true.
Proof.
  unfold HasSuffix. rewrite length_append.
  rewrite bool_decide_eq_true_2 by lia.
  replace (String.length s + String.length suffix - String.length suffix)%nat
    with (String.length s) by lia.
  rewrite substring_append. now rewrite bool_decide_eq_true_2.
Qed.

Lemma NewTileFetcher_base (base0 : string) (opts : list TileFetcherOption) :
  base (NewTileFetcher base0 opts)
  = if HasSuffix base0 "/" then base0 else (base0 +:+ "/")%string.
Proof.
  unfold NewTileFetcher. cbv zeta.
  repeat match goal with
         | |- context [match ?x with Some _ => _ | None => _ end] =>
             destruct x; cbn [base]
         | |- context [if decide ?P then _ else _] => destruct (decide P); cbn [base]
         end; apply foldl_apply_option_base.
Qed.

(** X18.  The base URL of a new fetcher always ends in a slash: a base
    that ends in one is kept and any other gets one appended, whatever the
    options.  So making a fetcher from the base of a fetcher changes nothing.
    Every nil or empty field is filled in: the HTTP client, the logger and
    the tile path function are set and the user agent is not empty. *)
Theorem NewTileFetcher_defaults (base0 : string) (opts : list TileFetcherOption) :
  let f := NewTileFetcher base0 opts in
  HasSuffix (base f) "/" = true
  /\ (HasSuffix base0 "/" = true -> base f = base0)
  /\ (HasSuffix base0 "/" = false -> base f = (base0 +:+ "/")%string)
  /\ NewTileFetcher (base f) opts = f
  /\ is_Some (hc f) /\ is_Some (log f) /\ is_Some (tilePath f)
  /\ ua f <> ""%string.
Proof.
  cbv zeta. rewrite NewTileFetcher_base.
  assert (Hslash : HasSuffix (if HasSuffix base0 "/" then base0
                              else (base0 +:+ "/")%string) "/" = true).
  { destruct (HasSuffix base0 "/") eqn:Hs; [exact Hs | apply HasSuffix_append]. }
  split; [exact Hslash|].
  split; [now intros ->|]. split; [now intros ->|].
  split.
  { unfold NewTileFetcher at 1. cbv zeta. rewrite Hslash. reflexivity. }
  unfold NewTileFetcher. cbv zeta.
  generalize (foldl apply_option
                (mk (if HasSuffix base0 "/" then base0 else (base0 +:+ "/")%string)
                   None "" None 0 None) opts).
  intros [b h u l n p]. cbn [tilePath].
  destruct p, h, l; cbn [hc ua log tilePath];
    destruct (decide (u = ""%string)); cbn [hc ua log tilePath];
    repeat split; try (eexists; reflexivity); try discriminate; try assumption.
Qed.

End Methods.
End NewTileFetcher.

(** ** The sumdb tile format *)

Module SumDBFormat.

(** The data of a tile in the format [WithSumDBEntries] reads: the entries,
    each ending in a newline, with a blank line between one and the
    next. *)
Fixpoint join (entries : list bytes) : bytes :=
  match entries with
  | [] => []
  | [e] => e
  | e :: rest => e ++ [nl] ++ join rest
  end.

(** An entry of the format: text that ends in a newline and holds no blank
    line. *)
Definition is_entry (e : bytes) : Prop :=
  (exists text, e = text ++ [nl]) /\ absent [nl; nl] e.

Lemma bytes_Index_first (s sep : bytes) (i : nat) :
  sep <> [] -> first_occurrence sep s i -> bytes_Index s sep = Z.of_nat i.
Proof.
  intros Hsep Hfirst.
  destruct (decide (bytes_Index s sep < 0)) as [Hneg|Hpos].
  - pose proof (bytes_Index_absent s sep Hneg Hsep) as Habs.
    destruct Hfirst as [Hocc _]. now apply Habs in Hocc.
  - pose proof (bytes_Index_found s sep ltac:(lia)) as Hfound.
    rewrite (first_occurrence_unique _ _ _ _ Hfirst Hfound). lia.
Qed.

Lemma bytes_Index_none (s sep : bytes) :
  absent sep s -> bytes_Index s sep < 0.
Proof.
  intros Habs. destruct (decide (bytes_Index s sep < 0)) as [|Hpos]; [easy|].
  destruct (bytes_Index_found s sep ltac:(lia)) as [Hocc _].
  now apply Habs in Hocc.
Qed.

(** Where the first blank line of an entry followed by more data is. *)
Lemma first_blank_line (text rest : bytes) :
  absent [nl; nl] (text ++ [nl]) ->
  first_occurrence [nl; nl] ((text ++ [nl]) ++ [nl] ++ rest) (length text).
Proof.
  intros Habs. split.
  - unfold occurs_at. rewrite <- !app_assoc. rewrite drop_app_length. reflexivity.
  - intros j Hj Hocc. apply (Habs j). unfold occurs_at in *.
    rewrite <- !app_assoc in *.
    rewrite <- (take_drop j text) in Hocc at 1.
    rewrite <- (take_drop j text) at 1.
    rewrite <- !app_assoc in *.
    assert (Hlen : length (take j text) = j) by (rewrite length_take; lia).
    rewrite <- Hlen in Hocc at 1. rewrite <- Hlen at 1.
    rewrite drop_app_length in *.
    destruct (drop j text) as [|c [|c' tail]] eqn:Hd.
    + apply (f_equal length) in Hd. rewrite length_drop in Hd. simpl in Hd. lia.
    + simpl in *. exact Hocc.
    + simpl in *. exact Hocc.
Qed.

Section Cut.
Context {Hash E : Type}.
Variable RecordHash : bytes -> Hash.

Lemma sumdb_cut_join (e : bytes) (rest : list bytes) :
  is_entry e ->
  sumdb_cut (E := E) RecordHash (join (e :: rest))
  = (e, RecordHash e, join rest, None).
Proof.
  intros [[text ->] Habs]. destruct rest as [|e' rest].
  - cbn [join]. unfold sumdb_cut.
    pose proof (bytes_Index_none _ _ Habs).
    rewrite decide_False by lia. reflexivity.
  - change (join ((text ++ [nl]) :: e' :: rest))
      with ((text ++ [nl]) ++ [nl] ++ join (e' :: rest)).
    unfold sumdb_cut.
    rewrite (bytes_Index_first _ [nl; nl] (length text) ltac:(discriminate)
               (first_blank_line text (join (e' :: rest)) Habs)).
    rewrite decide_True by lia. unfold slice_to, slice_from.
    replace (Z.to_nat (Z.of_nat (length text) + 1)) with (length (text ++ [nl]))
      by (rewrite length_app; simpl; lia).
    replace (Z.to_nat (Z.of_nat (length text) + 2))
      with (length ((text ++ [nl]) ++ [nl]))
      by (rewrite !length_app; simpl; lia).
    rewrite take_app_length.
    rewrite (app_assoc (text ++ [nl]) [nl]), drop_app_length. reflexivity.
Qed.

(** X12.  The preset undoes the format: cut from the data of entries
    joined by blank lines, it returns the first entry, its record hash and
    the data of the entries that follow, which is empty after the last
    one; so cutting again and again gives the entries back in order. *)
Theorem sumdb_cut_inverts_join (e : bytes) (rest : list bytes) :
  is_entry e ->
  sumdb_cut (E := E) RecordHash (join (e :: rest))
  = (e, RecordHash e, join rest, None)
  /\ 1 <= len (join (e :: rest))
  /\ join [] = [].
Proof.
  intros He. split; [now apply sumdb_cut_join|]. split; [|reflexivity].
  destruct He as [[text ->] _]. unfold len.
  destruct rest; cbn [join]; rewrite !length_app; simpl; lia.
Qed.

End Cut.
End SumDBFormat.

(** ** A log in the sumdb format, end to end *)

Module SumDBLog.
Import Client SumDBFormat.

Section Log.
Context {R Hash E : Type} `{!EqDecision Hash} `{!TileReaderWithContext R E}.
Variable StoredHashIndex : Z -> Z -> Z.
Variable ReadHashes : Tree Hash -> list Z -> R -> (E + list Hash) * R.
Variable w : env E.
Variable tree : Tree Hash.
Variable RecordHash : bytes -> Hash.
(** The log: its entries, the hash kept at each stored-hash index, and the
    bytes of each data tile. *)
Variable entry : Z -> bytes.
Variable leaf_hash : Z -> Hash.
Variable tile_data : Tile -> bytes.

Abbreviation Entries := (Entries StoredHashIndex ReadHashes).
Abbreviation cut_entries :=
  (ClientResume.cut_entries (E := E) StoredHashIndex leaf_hash (sumdb_cut RecordHash)).
Abbreviation tile_entries :=
  (ClientResume.tile_entries (E := E) StoredHashIndex tile_data leaf_hash
     (sumdb_cut RecordHash)).
Abbreviation entries_of :=
  (ClientResume.entries_of (E := E) StoredHashIndex tile_data leaf_hash
     (sumdb_cut RecordHash)).

(** The entries of the log from [b] on, [n] of them, with their
    indexes. *)
Definition log_pairs (b n : Z) : list (Z * bytes) :=
  (fun i => (i, entry i)) <$> seqZ b n.

(** The entries are entries of the format, the leaves of the tree are
    their record hashes, and a data tile holds its entries joined. *)
Hypothesis entries_ok : forall i, is_entry (entry i).
Hypothesis leaves_ok : forall i,
  leaf_hash (StoredHashIndex 0 i) = RecordHash (entry i).
Hypothesis data_ok : forall tl,
  tile_data tl = join (entry <$> seqZ (tN tl * TileWidth) (tW tl)).
(** The reader serves these bytes and the hash reader these hashes; the
    context is never done and the consumer never leaves its loop. *)
Hypothesis read_pure : forall tiles r,
  (tr_ReadTiles tiles r).1 = inr (tile_data <$> tiles).
Hypothesis hashes_pure : forall indexes r,
  (ReadHashes tree indexes r).1 = inr (leaf_hash <$> indexes).
Hypothesis calm_ctx : forall n, ctx_err w n = None.
Hypothesis calm_consumer : forall l, accept w l = true.

Lemma join_nonempty (e : bytes) (rest : list bytes) :
  is_entry e -> len (join (e :: rest)) <> 0.
Proof.
  intros [[text ->] _]. unfold len.
  destruct rest; cbn [join]; rewrite !length_app; simpl; lia.
Qed.

Lemma log_pairs_S (b : Z) (n : nat) :
  log_pairs b (Z.of_nat (S n)) = (b, entry b) :: log_pairs (b + 1) (Z.of_nat n).
Proof.
  unfold log_pairs. rewrite seqZ_cons by lia. rewrite fmap_cons.
  do 3 f_equal; lia.
Qed.

Lemma log_pairs_app (b n m : Z) :
  0 <= n -> 0 <= m ->
  log_pairs b (n + m) = log_pairs b n ++ log_pairs (b + n) m.
Proof. intros Hn Hm. unfold log_pairs. now rewrite seqZ_app, fmap_app. Qed.

Lemma cut_entries_join (n : nat) : forall i,
  cut_entries n i (join (entry <$> seqZ i (Z.of_nat n)))
  = Some (log_pairs i (Z.of_nat n), []).
Proof.
  induction n as [|n IH]; intros i; [reflexivity|].
  rewrite log_pairs_S. rewrite seqZ_cons by lia. rewrite fmap_cons.
  replace (Z.pred (Z.of_nat (S n))) with (Z.of_nat n) by lia.
  replace (Z.succ i) with (i + 1) by lia.
  cbn [ClientResume.cut_entries].
  rewrite decide_False by (apply join_nonempty, entries_ok).
  rewrite (sumdb_cut_join RecordHash _ _ (entries_ok i)).
  rewrite decide_False by (intros Hne; apply Hne; symmetry; apply leaves_ok).
  rewrite IH. reflexivity.
Qed.

Lemma tile_entries_join (tl : Tile) :
  0 <= tW tl ->
  tile_entries tl = Some (log_pairs (tN tl * TileWidth) (tW tl)).
Proof.
  intros Hw. unfold ClientResume.tile_entries. rewrite data_ok.
  rewrite <- (Z2Nat.id (tW tl)) at 2 by exact Hw.
  rewrite cut_entries_join. simpl. now rewrite Z2Nat.id.
Qed.

Lemma entries_of_covers tiles : forall b e,
  covers b tiles e -> entries_of tiles = Some (log_pairs b (e - b)).
Proof.
  induction tiles as [|tl tiles IH]; intros b e Hcov.
  - simpl in Hcov. subst. now rewrite Z.sub_diag.
  - destruct Hcov as (HN & HW & Hcov). pose proof (covers_le _ _ _ Hcov).
    cbn [ClientResume.entries_of]. rewrite tile_entries_join by lia.
    rewrite (IH _ _ Hcov). simpl. rewrite HN.
    replace (e - b) with (tW tl + (e - (b + tW tl))) by lia.
    now rewrite log_pairs_app by lia.
Qed.

(** X13.  Over a log in the sumdb format, a client with the preset yields
    the log: when the data tiles hold their entries joined by blank lines
    and the leaves of the tree are the record hashes of the entries, an
    iteration that nothing interrupts completes without error and yields,
    in order, every entry from [start] up to where the iteration ends, each
    with its index. *)
Theorem Entries_yields_log (c : Client.t R Hash E) (start : Z) (fuel : nat) :
  cut c = sumdb_cut RecordHash ->
  fits (treeN tree) -> 0 <= start <= treeN tree ->
  (enough_fuel tree start <= fuel)%nat ->
  let r := (Entries c tree start).2 w fuel (Entries c tree start).1 in
  why r.2 = Completed
  /\ yields (trace r.1) = log_pairs start (emitEnd tree start - start)
  /\ Err (client r.1) = None.
Proof.
  intros Hcut Hfits Hstart Hfuel.
  pose proof (ClientFacts.Entries_err_after StoredHashIndex ReadHashes c tree
                start w fuel) as [Hnil _].
  cbv zeta in *. revert Hnil.
  unfold Client.Entries, Client.iterate, enough_fuel in *. cbn [fst snd].
  pose proof (emitEnd_bounds tree start Hstart) as Hb.
  set (top := emitEnd tree start) in *.
  set (base := start / TileWidth * TileWidth).
  assert (Hbase : 0 <= base <= start /\ base mod TileWidth = 0).
  { subst base.
    pose proof (Z.div_mod start TileWidth ltac:(int64)).
    pose proof (Z.mod_pos_bound start TileWidth ltac:(int64)).
    rewrite Z.mod_mul by int64. int64. }
  set (s1 := mkState (Client.mk (tr c) (cut c) (timeout c) None) 0 []).
  pose proof (ClientResume.loop_pure StoredHashIndex ReadHashes w tree tile_data
                leaf_hash (sumdb_cut RecordHash) read_pure hashes_pure calm_ctx
                calm_consumer fuel start s1 (Z.to_nat (top - base)) Hfits
                ltac:(lia) Hcut ltac:(lia)) as Hloop.
  fold base top in Hloop. specialize (Hloop ltac:(int64)). cbv zeta in Hloop.
  rewrite (entries_of_covers _ base (batch_end (Z.to_nat (top - base)) base top))
    in Hloop by (apply tiles_between_covers; lia).
  replace (batch_end (Z.to_nat (top - base)) base top) with top in Hloop
    by (unfold batch_end; int64).
  destruct Hloop as [Hy Hwhy]. intros Hnil.
  split; [exact Hwhy|]. split; [|apply Hnil; rewrite Hwhy; discriminate].
  rewrite Hy. simpl.
  replace (top - base) with ((start - base) + (top - start)) by lia.
  rewrite log_pairs_app by lia. rewrite filter_app.
  rewrite ClientResume.filter_none, filter_all.
  - simpl. f_equal. lia.
  - intros [i e] Hin. unfold log_pairs in Hin.
    apply list_elem_of_fmap in Hin as (k & Heq & Hk). inversion Heq; subst.
    apply elem_of_seqZ in Hk. simpl. lia.
  - intros [i e] Hin. unfold log_pairs in Hin.
    apply list_elem_of_fmap in Hin as (k & Heq & Hk). inversion Heq; subst.
    apply elem_of_seqZ in Hk. simpl. lia.
Qed.

End Log.
End SumDBLog.

(** A log in the sumdb format for examples: every entry is the line
    ["a"], the record hash is the entry itself, and the stored-hash index
    of a leaf is its number. *)
Module SumDBDemo.
Import SumDBFormat.

Definition line : bytes := [Byte.x61; nl].
Definition entry (i : Z) : bytes := line.
Definition tile_data (tl : Tile) : bytes :=
  join (entry <$> seqZ (tN tl * TileWidth) (tW tl)).

Record reader : Type := mkReader { reads : nat }.

#[global] Instance sumdb_reader : TileReaderWithContext reader unit := {|
  tr_ReadTiles := fun tiles r => (inr (tile_data <$> tiles), mkReader (S (reads r)));
  tr_SaveTiles := fun tiles data r => r
|}.

Definition ReadHashes (tree : Tree bytes) (indexes : list Z) (r : reader)
  : (unit + list bytes) * reader :=
  (inr ((fun _ => line) <$> indexes), r).

Definition client : Client.t reader bytes unit :=
  Client.mk (mkReader 0) (sumdb_cut (fun e => e)) 300 None.

Lemma line_is_entry : is_entry line.
Proof.
  split; [exists [Byte.x61]; reflexivity|].
  intros [|[|j]]; unfold occurs_at; simpl; try discriminate.
  rewrite drop_nil. discriminate.
Qed.

End SumDBDemo.

Lemma sumdb_cut_inverts_join_witness :
  SumDBFormat.is_entry SumDBDemo.line
  /\ sumdb_cut (E := unit) (fun e => e)
       (SumDBFormat.join [SumDBDemo.line; SumDBDemo.line])
     = (SumDBDemo.line, SumDBDemo.line, SumDBDemo.line, None).
Proof.
  split; [exact SumDBDemo.line_is_entry|].
  exact (proj1 (SumDBFormat.sumdb_cut_inverts_join (E := unit) (fun e => e)
                  SumDBDemo.line [SumDBDemo.line] SumDBDemo.line_is_entry)).
Defined.

Lemma Entries_yields_log_witness :
  fits 3 /\ 0 <= 1 <= 3
  /\ Client.yields
       (Client.trace
          ((Client.Entries Demo.StoredHashIndex SumDBDemo.ReadHashes
              SumDBDemo.client (mkTree 3 []) 1).2 Demo.calm 3%nat
             (Client.Entries Demo.StoredHashIndex SumDBDemo.ReadHashes
                SumDBDemo.client (mkTree 3 []) 1).1).1)
     = [(1, SumDBDemo.line); (2, SumDBDemo.line)].
Proof.
  assert (H1 : fits 3) by (apply fits_small; lia).
  assert (H2 : 0 <= 1 <= 3) by lia.
  split; [exact H1|]. split; [exact H2|].
  assert (Hread : forall (tiles : list Tile) (r : SumDBDemo.reader),
             (tr_ReadTiles tiles r).1 = inr (SumDBDemo.tile_data <$> tiles))
    by reflexivity.
  assert (Hhashes : forall (indexes : list Z) (r : SumDBDemo.reader),
             (SumDBDemo.ReadHashes (mkTree 3 []) indexes r).1
             = inr ((fun _ => SumDBDemo.line) <$> indexes))
    by reflexivity.
  destruct (SumDBLog.Entries_yields_log Demo.StoredHashIndex
              SumDBDemo.ReadHashes Demo.calm (mkTree 3 []) (fun e => e)
              SumDBDemo.entry (fun _ => SumDBDemo.line) SumDBDemo.tile_data
              (fun _ => SumDBDemo.line_is_entry) (fun _ => eq_refl)
              (fun _ => eq_refl) Hread Hhashes (fun _ => eq_refl)
              (fun _ => eq_refl) SumDBDemo.client 1 3%nat eq_refl H1 H2
              ltac:(vm_compute; lia))
    as (_ & Hy & _).
  exact Hy.
Defined.

(** ** The batches of an iteration *)

Module ClientBatches.
Import Client.

Section Batches.
Context {R Hash E : Type} `{!EqDecision Hash} `{!TileReaderWithContext R E}.
Variable StoredHashIndex : Z -> Z -> Z.
Variable ReadHashes : Tree Hash -> list Z -> R -> (E + list Hash) * R.

Abbreviation read_batch := (read_batch StoredHashIndex ReadHashes).
Abbreviation batch := (batch StoredHashIndex ReadHashes).
Abbreviation loop := (loop StoredHashIndex ReadHashes).
Abbreviation Entries := (Entries StoredHashIndex ReadHashes).

(** The calls of [Entries] to [c.tr.ReadTiles] in a trace, with their
    results, and its calls to [c.tr.SaveTiles], in order. *)
Definition requests (tr : list (event Hash E)) : list (list Tile * (E + list bytes)) :=
  omap (fun ev => match ev with
                  | EvReadTiles tiles res => Some (tiles, res)
                  | _ => None
                  end) tr.


(** The batches that were read without error. *)
Definition reads (tr : list (event Hash E)) : list (list Tile * list bytes) :=
  omap (fun q => match q.2 with inr data => Some (q.1, data) | inl _ => None end)
    (requests tr).













End Batches.



Section Shape.
Context {R Hash E : Type} `{!EqDecision Hash} `{!TileReaderWithContext R E}.
Variable StoredHashIndex : Z -> Z -> Z.
Variable ReadHashes : Tree Hash -> list Z -> R -> (E + list Hash) * R.
Variable w : env E.
Variable tree : Tree Hash.

Abbreviation batch := (batch StoredHashIndex ReadHashes).
Abbreviation loop := (loop StoredHashIndex ReadHashes).
Abbreviation Entries := (Entries StoredHashIndex ReadHashes).




End Shape.
End ClientBatches.

(** ** A start past the end of the tree *)

Module ClientPastEnd.
Import Client.

Section PastEnd.
Context {R Hash E : Type} `{!EqDecision Hash} `{!TileReaderWithContext R E}.
Variable StoredHashIndex : Z -> Z -> Z.
Variable ReadHashes : Tree Hash -> list Z -> R -> (E + list Hash) * R.
Variable w : env E.
Variable tree : Tree Hash.

Abbreviation read_batch := (read_batch StoredHashIndex ReadHashes).
Abbreviation batch := (batch StoredHashIndex ReadHashes).
Abbreviation loop := (loop StoredHashIndex ReadHashes).
Abbreviation Entries := (Entries StoredHashIndex ReadHashes).

(** How a step leaves the pairs yielded alone, and ends otherwise than by
    the consumer. *)
Definition silent {A} (s : state R Hash E) (r : state R Hash E * (stop + A)) : Prop :=
  yields (trace r.1) = yields (trace s)
  /\ match r.2 with inl st => why st <> Broke /\ why st <> OutOfFuel | inr _ => True end.

(** Entries below [start] are cut and checked, and skipped. *)
Lemma entries_loop_skips (n : nat) :
  forall i tile base start hashes data (s : state R Hash E),
    i + Z.of_nat n <= start -> Int64.in_range start ->
    Int64.in_range i ->
    silent s (entries_loop w n i tile base start hashes data s).
Proof.
  induction n as [|n IH]; intros i tile base start hashes data s Hi Hs Hr;
    cbn [entries_loop]; unfold ask, fail.
  - split; easy.
  - destruct (ctx_err w (asked s)); [split; [reflexivity | easy]|].
    destruct (decide (len data = 0)); [split; [reflexivity | easy]|].
    cbn [client].
    destruct (cut (client s) data) as [[[entry rh] rest] [e|]].
    { split; [|easy]. simpl. rewrite ClientFacts.yields_app. simpl.
      now rewrite app_nil_r. }
    destruct (index hashes (Int64.sub i base)).
    2:{ split; [|easy]. simpl. rewrite ClientFacts.yields_app. simpl.
        now rewrite app_nil_r. }
    destruct (decide (rh <> h)).
    { split; [|easy]. simpl. rewrite ClientFacts.yields_app. simpl.
      now rewrite app_nil_r. }
    rewrite decide_True by lia.
    rewrite add_in_range by int64.
    match goal with
    | |- silent s (entries_loop w n ?i' tile base start hashes rest ?s0) =>
        destruct (IH i' tile base start hashes rest s0 ltac:(lia) Hs
                    ltac:(int64)) as [Hy Hst]
    end.
    split; [|exact Hst]. rewrite Hy. simpl. rewrite ClientFacts.yields_app.
    simpl. now rewrite app_nil_r.
Qed.

(** The second half of a turn on the one tile that ends at the size of the
    tree, below [start]. *)
Lemma read_batch_skips (tl : Tile) base top start (s : state R Hash E) :
  0 <= tN tl * TileWidth -> 0 <= tW tl ->
  tN tl * TileWidth + tW tl = top -> top <= start -> Int64.in_range start ->
  let r := read_batch w tree [tl] base top start s in
  yields (trace r.1) = yields (trace s)
  /\ exists st, r.2 = inl st /\ why st <> Broke /\ why st <> OutOfFuel.
Proof.
  intros HN HW Hend Htop Hs. unfold Client.read_batch. cbv zeta.
  destruct (tr_ReadTiles [tl] (tr (client s))) as [[e|tdata] r1].
  { unfold fail. cbn [fst snd]. split; [|eauto].
    simpl. rewrite ClientFacts.yields_app. simpl. now rewrite app_nil_r. }
  cbn [client set_reader record tr].
  destruct (ReadHashes tree (leaf_indexes StoredHashIndex [tl]) r1)
    as [[e|hashes] r2].
  { unfold fail. cbn [fst snd]. split; [|eauto].
    simpl. rewrite !ClientFacts.yields_app. simpl. now rewrite !app_nil_r. }
  cbn [tiles_loop].
  rewrite (mul_in_range (tN tl) TileWidth) by int64.
  rewrite (add_in_range (tN tl * TileWidth) (tW tl)) by int64.
  assert (Hpre : forall s0 : state R Hash E,
             trace s0 = (trace s ++ [EvReadTiles [tl] (inr tdata)])
                        ++ [EvReadHashes tree (leaf_indexes StoredHashIndex [tl])
                              (inr hashes)] ->
             yields (trace s0) = yields (trace s)).
  { intros s0 ->. rewrite !ClientFacts.yields_app. simpl. now rewrite !app_nil_r. }
  destruct (tdata !! 0%nat) as [data|].
  2:{ cbn [fst snd]. split; [now apply Hpre | eauto]. }
  match goal with
  | |- context [entries_loop w ?n ?i ?t base start hashes data ?s0] =>
      destruct (entries_loop_skips n i t base start hashes data s0
                  ltac:(lia) Hs ltac:(int64)) as [Hy Hst];
      pose proof (Hpre s0 eq_refl) as Hy0;
      destruct (entries_loop w n i t base start hashes data s0) as [s1 [st|rest]]
  end; cbn [fst snd] in *.
  { split; [congruence | eauto]. }
  destruct (decide (len rest <> 0)).
  { unfold fail. cbn [fst snd]. split; [simpl; congruence | eauto]. }
  cbn [tiles_loop fst snd]. rewrite Hend. rewrite decide_True by reflexivity.
  cbn [fst snd]. split; [|eauto].
  simpl. rewrite ClientFacts.yields_app. simpl. rewrite app_nil_r. congruence.
Qed.

(** X16.  An iteration that starts at or past the size of the tree yields
    nothing, whatever the reader, the context and the consumer do.  It ends
    within one turn of the outer loop: completed, failed or panicked, and
    never because the consumer left. *)
Theorem Entries_past_the_end (c : Client.t R Hash E) (start : Z) (fuel : nat) :
  0 <= treeN tree <= start -> start + TileWidth <= Int64.max_int ->
  let r := (Entries c tree start).2 w (S fuel) (Entries c tree start).1 in
  yields (trace r.1) = []
  /\ (why r.2 = Completed \/ why r.2 = Failed \/ why r.2 = Panicked).
Proof.
  intros HN Hmax. unfold Client.Entries, Client.iterate. cbn [fst snd Client.loop].
  set (s0 := mkState (Client.mk (tr c) (cut c) (timeout c) None) 0 []).
  assert (Hgoal : yields (trace (batch w tree start s0).1) = yields (trace s0)
                  /\ exists st, (batch w tree start s0).2 = inl st
                                /\ why st <> Broke /\ why st <> OutOfFuel).
  2:{ destruct Hgoal as (Hy & st & Hst & Hb & Ho).
      destruct (batch w tree start s0) as [s1 r]. cbn [fst snd] in *. subst r.
      cbn [fst snd]. split; [exact Hy|]. destruct (why st); tauto. }
  unfold Client.batch, ask. destruct (ctx_err w (asked s0)) as [e|].
  { unfold fail. cbn [fst snd]. split; [reflexivity | eauto]. }
  cbv beta iota zeta.
  rewrite base_of_eq by int64. unfold top_of. rewrite base_of_eq by int64.
  rewrite div_nonneg by int64.
  pose proof (Z.div_mod start TileWidth ltac:(int64)) as Hdm.
  pose proof (Z.mod_pos_bound start TileWidth ltac:(int64)) as Hmb.
  pose proof (Z.div_mod (treeN tree) TileWidth ltac:(int64)) as Hdn.
  pose proof (Z.mod_pos_bound (treeN tree) TileWidth ltac:(int64)) as Hmn.
  pose proof (Z.div_le_mono (treeN tree) start TileWidth ltac:(int64) ltac:(lia))
    as Hmono.
  assert (Hbase : (start / TileWidth * TileWidth) mod TileWidth = 0)
    by (apply Z.mod_mul; int64).
  assert (Hfull : (treeN tree / TileWidth * TileWidth) / TileWidth * TileWidth
                  = treeN tree / TileWidth * TileWidth)
    by (rewrite Z.div_mul by int64; reflexivity).
  rewrite (mul_in_range (treeN tree / TileWidth) TileWidth) by int64.
  set (base := start / TileWidth * TileWidth) in *.
  set (full := treeN tree / TileWidth * TileWidth) in *.
  assert (Hb : 0 <= full <= treeN tree /\ treeN tree < full + TileWidth
               /\ full <= base <= start) by (subst base full; int64).
  clearbody base full.
  rewrite (sub_in_range full base) by int64.
  destruct (decide (full - base = 0)) as [Heq|Hne].
  - assert (base = full) as -> by lia.
    destruct (decide (full >= treeN tree)) as [Hge|Hlt].
    + change 50%nat with (S 49). rewrite build_tiles_S. cbv zeta.
      rewrite (mul_in_range 0 TileWidth) by int64.
      rewrite (add_in_range full (0 * TileWidth)) by int64.
      rewrite (decide_True (P := full + 0 * TileWidth >= treeN tree)) by lia.
      rewrite decide_True by reflexivity.
      cbn [fst snd]. split; [reflexivity | eauto].
    + rewrite (build_tiles_between 50 0 full (treeN tree)) by int64.
      replace (full + 0 * TileWidth) with full by lia.
      change 50%nat with (S 49). rewrite tiles_between_S.
      rewrite (decide_False (P := full >= treeN tree)) by lia.
      rewrite tiles_between_done by lia.
      rewrite decide_False by (unfold len; simpl; lia).
      rewrite Z.min_r by lia.
      match goal with
      | |- context [Client.read_batch _ _ w tree [?tl] ?b ?t start ?s1] =>
          destruct (read_batch_skips tl b t start s1) as [Hy Hst];
            [cbn [tN tW]; rewrite ?Hfull; int64..|]
      end.
      split; [exact Hy | exact Hst].
  - change 50%nat with (S 49). rewrite build_tiles_S. cbv zeta.
    rewrite (mul_in_range 0 TileWidth) by int64.
    rewrite (add_in_range base (0 * TileWidth)) by int64.
    rewrite (decide_True (P := base + 0 * TileWidth >= full)) by lia.
    rewrite decide_True by reflexivity.
    cbn [fst snd]. split; [reflexivity | eauto].
Qed.

End PastEnd.
End ClientPastEnd.


Lemma Entries_past_the_end_witness :
  0 <= 300 <= 400 /\ 400 + TileWidth <= Int64.max_int
  /\ Client.yields
       (Client.trace
          ((Client.Entries Demo.StoredHashIndex Demo.ReadHashes Demo.client
              (mkTree 300 []) 400).2 Demo.calm 1%nat
             (Client.Entries Demo.StoredHashIndex Demo.ReadHashes Demo.client
                (mkTree 300 []) 400).1).1) = [].
Proof.
  assert (H1 : 0 <= 300 <= 400) by lia.
  assert (H2 : 400 + TileWidth <= Int64.max_int) by (vm_compute; discriminate).
  split; [exact H1|]. split; [exact H2|].
  exact (proj1 (ClientPastEnd.Entries_past_the_end Demo.StoredHashIndex
                  Demo.ReadHashes Demo.calm (mkTree 300 []) Demo.client 400
                  0%nat H1 H2)).
Defined.

(** A start past the end that lies within the boundaries of the last,
    partial tile: the tile is read and checked, and nothing is yielded. *)
Example past_the_end_reads_the_partial_tile :
  ClientBatches.requests
    (Client.trace
       ((Client.Entries Demo.StoredHashIndex Demo.ReadHashes Demo.client
           (mkTree 300 []) 400).2 Demo.calm 1%nat Demo.client).1)
  = [([mkTile 8 (-1) 1 44], inr [Demo.tile_data (mkTile 8 (-1) 1 44)])].
Proof. vm_compute. reflexivity. Qed.
